(** * Shallow embedding of the oil shell builtins and boolean parser

    Sources embedded here:
    - [core/builtin.py]: [Resolve], [ResolveSpecial], [_ResolveNames],
      [ECHO_LEXER], [_EvalStringPart], [Echo], [Exit], [Wait],
      [_AppendParts], [Read], [Shift], [Cd], [Export], [Unset], [Command],
      [Type], [_ParseOptSpec], [_GetOpts], [GetOpts];
    - [osh/bool_parse.py]: the [BoolParser] class.

    Python values are modelled as follows: [str] is [string], [int] is [Z],
    a list is a [list], a dict is a [gmap], [None] is an [option].  A Python
    exception is a value of [exn] carried by [result]. *)

From Stdlib Require Import ZArith List Ascii String Lia DecimalString.
From stdpp Require Import base option list gmap strings.

Local Open Scope Z_scope.

(** ** Python runtime basics *)

Module Py.

(** The exceptions the embedded code raises or lets escape. *)
Inductive exn : Type :=
| AssertionError
| IndexError
| ValueError
| KeyError
| UsageError (msg : string)          (* args.UsageError *)
| FatalRuntimeError (msg : string)   (* util.e_die *)
| ParseError (msg : string)          (* util.p_die *)
| SystemExit (code : Z)
| UnicodeDecodeError.

Inductive result (A : Type) : Type :=
| Ok (a : A)
| Raise (e : exn).
Arguments Ok {A} a.
Arguments Raise {A} e.

Definition bind {A B} (m : result A) (k : A -> result B) : result B :=
  match m with
  | Ok a => k a
  | Raise e => Raise e
  end.

(** [s.startswith(c)] for a one-character prefix. *)
Definition startswith_char (c : ascii) (s : string) : bool :=
  match s with
  | String d _ => Ascii.eqb d c
  | EmptyString => false
  end.

(** [s[-1]]: the last character, [IndexError] on the empty string. *)
Fixpoint last_char (s : string) : option ascii :=
  match s with
  | EmptyString => None
  | String c EmptyString => Some c
  | String _ rest => last_char rest
  end.

(** [s.endswith(c)] for a one-character suffix. *)
Definition endswith_char (c : ascii) (s : string) : bool :=
  match last_char s with
  | Some d => Ascii.eqb d c
  | None => false
  end.

(** [s[:-1]]. *)
Fixpoint drop_last (s : string) : string :=
  match s with
  | EmptyString => EmptyString
  | String _ EmptyString => EmptyString
  | String c rest => String c (drop_last rest)
  end.

(** Index normalisation of a slice bound: negative bounds count from the
    end, and every bound is clamped to [0, len]. *)
Definition clamp (len i : Z) : Z :=
  if i <? 0 then Z.max (i + len) 0 else Z.min i len.

(** [s[a:b]] with Python's slicing rules. *)
Definition slice (s : string) (a b : Z) : string :=
  let len := Z.of_nat (String.length s) in
  let a' := clamp len a in
  let b' := clamp len b in
  String.substring (Z.to_nat a') (Z.to_nat (b' - a')) s.

(** [s.split(sep)] for a one-character separator. *)
Fixpoint split_on (sep : ascii) (s : string) : list string :=
  match s with
  | EmptyString => [EmptyString]
  | String c rest =>
      if Ascii.eqb c sep then EmptyString :: split_on sep rest
      else match split_on sep rest with
           | [] => [String c EmptyString]
           | w :: ws => String c w :: ws
           end
  end.

(** [os.path.join(a, b)] of posixpath. *)
Definition path_join (a b : string) : string :=
  if startswith_char "/" b then b
  else if String.eqb a EmptyString || endswith_char "/" a
       then a +:+ b
       else a +:+ "/" +:+ b.

(** [str(i)] for an integer. *)
Definition str_of_int (i : Z) : string :=
  NilZero.string_of_int (Z.to_int i).

End Py.
Import Py.

Notation "'let*' x ':=' m 'in' k" := (Py.bind m (fun x => k))
  (at level 10, x pattern, m at level 100, k at level 200).

(** A message given to [util.error]: the format string and its arguments. *)
Inductive log_entry : Type :=
| Error (fmt : string) (args : list string).

(** [runtime.value]: the three kinds of shell value. *)
Inductive value : Type :=
| Undef
| Str (s : string)
| StrArray (strs : list string).

(** The token ids named by the embedded code ([core.id_kind.Id]); every
    other id is an [Id_other]. *)
Inductive Id : Type :=
| Char_OneChar | Char_Stop | Char_Octal | Char_Hex
| Char_Unicode4 | Char_Unicode8 | Char_Literals
| Undefined_Tok | Eof_Real | Op_Newline
| Op_DPipe | Op_DAmp | Op_LParen | Op_RParen
| KW_Bang | Lit_DRightBracket
| BoolUnary_o | BoolUnary_a | BoolBinary_EqualTilde
| Id_other (n : nat).

Global Instance Id_eq_dec : EqDecision Id.
Proof. solve_decision. Defined.

(** ** Builtin dispatch: [Resolve], [ResolveSpecial], [_ResolveNames] *)

Module Dispatch.

Inductive EBuiltin : Type :=
| NONE | READ | ECHO | SHIFT
| CD | PUSHD | POPD | DIRS
| EXPORT | UNSET | SET | SHOPT
| TRAP | UMASK
| EXIT | SOURCE | DOT | EVAL | EXEC | WAIT | JOBS
| COMPLETE | COMPGEN | DEBUG_LINE
| TRUE | FALSE
| COLON
| TEST | BRACKET | GETOPTS
| COMMAND | TYPE | HELP.

Global Instance EBuiltin_eq_dec : EqDecision EBuiltin.
Proof. solve_decision. Defined.

Definition _SPECIAL_BUILTINS : list string :=
  [ "break"; ":"; "continue"; "."; "eval"; "exec"; "exit"; "export";
    "readonly"; "return"; "set"; "shift"; "times"; "trap"; "unset";
    "local"; "declare" ].

Definition _BUILTINS : list string := [ "echo"; "read" ].

Definition ResolveSpecial (argv0 : string) : EBuiltin :=
  if String.eqb argv0 "export" then EXPORT
  else if String.eqb argv0 "exit" then EXIT
  else if String.eqb argv0 ":" then COLON
  else NONE.

Definition Resolve (argv0 : string) : EBuiltin :=
  if String.eqb argv0 "read" then READ
  else if String.eqb argv0 "echo" then ECHO
  else if String.eqb argv0 "cd" then CD
  else if String.eqb argv0 "shift" then SHIFT
  else if String.eqb argv0 "pushd" then PUSHD
  else if String.eqb argv0 "popd" then POPD
  else if String.eqb argv0 "dirs" then DIRS
  else if String.eqb argv0 "source" then SOURCE
  else if String.eqb argv0 "." then DOT
  else if String.eqb argv0 "trap" then TRAP
  else if String.eqb argv0 "umask" then UMASK
  else if String.eqb argv0 "eval" then EVAL
  else if String.eqb argv0 "exec" then EXEC
  else if String.eqb argv0 "wait" then WAIT
  else if String.eqb argv0 "jobs" then JOBS
  else if String.eqb argv0 "set" then SET
  else if String.eqb argv0 "shopt" then SHOPT
  else if String.eqb argv0 "unset" then UNSET
  else if String.eqb argv0 "complete" then COMPLETE
  else if String.eqb argv0 "compgen" then COMPGEN
  else if String.eqb argv0 "true" then TRUE
  else if String.eqb argv0 "false" then FALSE
  else if String.eqb argv0 "test" then TEST
  else if String.eqb argv0 "[" then BRACKET
  else if String.eqb argv0 "getopts" then GETOPTS
  else if String.eqb argv0 "command" then COMMAND
  else if String.eqb argv0 "type" then TYPE
  else if String.eqb argv0 "help" then HELP
  else if String.eqb argv0 "debug-line" then DEBUG_LINE
  else NONE.

(** The pair [(kind, arg)] that [_ResolveNames] yields for a name;
    [(None, None)] when nothing was found. *)
Definition resolution : Type := (option string * option string)%type.

Section ResolveNames.
(** A function body; only membership in [funcs] is inspected. *)
Context {Func : Type}.
(** [lex.IsOtherBuiltin] and [lex.IsKeyword] (osh/lex.py) and the file
    system test [os.path.exists]. *)
Variable IsOtherBuiltin : string -> bool.
Variable IsKeyword : string -> bool.
Variable path_exists : string -> bool.

(** The [for path_dir in path_list] search. *)
Fixpoint search_path (path_list : list string) (name : string)
  : resolution :=
  match path_list with
  | [] => (None, None)
  | path_dir :: rest =>
      let full_path := path_join path_dir name in
      if path_exists full_path then (Some "file", Some full_path)
      else search_path rest name
  end.

(** The body of the [for name in names] loop. *)
Definition resolve_name (funcs : gmap string Func)
    (path_list : list string) (name : string) : resolution :=
  if decide (is_Some (funcs !! name)) then (Some "function", Some name)
  else if decide (Resolve name <> NONE) then (Some "builtin", Some name)
  else if decide (ResolveSpecial name <> NONE)
       then (Some "builtin", Some name)
  else if IsOtherBuiltin name then (Some "builtin", Some name)
  else if IsKeyword name then (Some "keyword", Some name)
  else search_path path_list name.

Definition _ResolveNames (names : list string)
    (funcs : gmap string Func) (path_val : value) : list resolution :=
  let path_list :=
    match path_val with
    | Str s => split_on ":" s
    | _ => []
    end in
  map (resolve_name funcs path_list) names.

End ResolveNames.

End Dispatch.


(** ** Field assembly for [read]: [_AppendParts] and [Read] *)

Module Fields.

(** [runtime.span_e]. *)
Inductive span_e : Type := Black | Delim | Backslash.

Global Instance span_e_eq_dec : EqDecision span_e.
Proof. solve_decision. Defined.

(** A span as the splitter returns it: [(span_type, end_index)]. *)
Definition span : Type := (span_e * Z)%type.

(** The variables of the [for span_type, end_index in spans] loop of
    [_AppendParts]; [parts] is the caller's list, mutated in place. *)
Record loop_state : Type := LoopState {
  parts : list string;
  join_next : bool;
  start_index : Z;
  last_span_was_black : bool
}.

(** [parts[-1] += x]; [IndexError] when [parts] is empty. *)
Fixpoint append_to_last (ps : list string) (x : string)
  : result (list string) :=
  match ps with
  | [] => Raise IndexError
  | [p] => Ok [p +:+ x]
  | p :: rest => let* r := append_to_last rest x in Ok (p :: r)
  end.

(** One iteration of the loop over [spans]. *)
Definition step (s : string) (max_results : Z) (st : loop_state)
    (sp : span) : result loop_state :=
  let '(span_type, end_index) := sp in
  let piece := slice s (start_index st) end_index in
  let* (ps, jn, black) :=
    match span_type with
    | Black =>
        if join_next st && negb (bool_decide (parts st = []))
        then let* ps := append_to_last (parts st) piece in
             Ok (ps, false, true)
        else Ok (parts st ++ [piece], join_next st, true)
    | Delim =>
        if join_next st
        then let* ps := append_to_last (parts st) piece in
             Ok (ps, false, false)
        else Ok (parts st, join_next st, false)
    | Backslash =>
        if last_span_was_black st
        then Ok (parts st, true, false)
        else Ok (parts st, join_next st, false)
    end in
  let jn' := if Z.of_nat (length ps) >=? max_results then true else jn in
  Ok (LoopState ps jn' end_index black).

(** The whole [for] loop. *)
Fixpoint loop (s : string) (max_results : Z) (spans : list span)
    (st : loop_state) : result loop_state :=
  match spans with
  | [] => Ok st
  | sp :: rest =>
      let* st' := step s max_results st sp in
      loop s max_results rest st'
  end.

(** [done]: false exactly when [spans] is non-empty and [spans[-1]] is a
    [Backslash]. *)
Definition is_done (spans : list span) : bool :=
  match last spans with
  | Some (Backslash, _) => false
  | _ => true
  end.

(** [_AppendParts(s, spans, max_results, join_next, parts)]; the result is
    the updated [parts] together with the returned [(done, join_next)]. *)
Definition _AppendParts (s : string) (spans : list span) (max_results : Z)
    (join_next0 : bool) (parts0 : list string)
  : result (list string * bool * bool) :=
  let* st := loop s max_results spans (LoopState parts0 join_next0 0 false) in
  Ok (parts st, is_done spans, join_next st).

(** *** Span content, for stating what [_AppendParts] assembles *)

(** The content of the Black and Delim spans of [spans], concatenated in
    order, where the first span starts at [start]; the content of a
    Backslash span is left out. *)
Fixpoint joined_content (s : string) (start : Z) (spans : list span)
  : string :=
  match spans with
  | [] => ""
  | (Backslash, end_index) :: rest => joined_content s end_index rest
  | (_, end_index) :: rest =>
      slice s start end_index +:+ joined_content s end_index rest
  end.

(** The content of the Black spans alone, concatenated in order. *)
Fixpoint black_content (s : string) (start : Z) (spans : list span)
  : string :=
  match spans with
  | [] => ""
  | (Black, end_index) :: rest =>
      slice s start end_index +:+ black_content s end_index rest
  | (_, end_index) :: rest => black_content s end_index rest
  end.

(** [joined_content] from the first Black span on; [None] when [spans] has
    no Black span. *)
Fixpoint content_from_first_black (s : string) (start : Z)
    (spans : list span) : option string :=
  match spans with
  | [] => None
  | (Black, end_index) :: rest =>
      Some (joined_content s start ((Black, end_index) :: rest))
  | (_, end_index) :: rest => content_from_first_black s end_index rest
  end.

(** The loop invariant: the list never holds more than [max] fields, it is
    full only with [join_next] set, and [join_next] or
    [last_span_was_black] is set only when there is a field to join
    onto. *)
Definition inv (max : Z) (st : loop_state) : Prop :=
  Z.of_nat (length (parts st)) <= max /\
  (max <= Z.of_nat (length (parts st)) -> join_next st = true) /\
  (join_next st = true -> parts st <> []) /\
  (last_span_was_black st = true -> parts st <> []).

(** The contents of the Black spans, one field for each. *)
Fixpoint black_fields (s : string) (start : Z) (spans : list span)
  : list string :=
  match spans with
  | [] => []
  | (Black, end_index) :: rest =>
      slice s start end_index :: black_fields s end_index rest
  | (_, end_index) :: rest => black_fields s end_index rest
  end.

(** The number of Black spans. *)
Fixpoint count_black (spans : list span) : nat :=
  match spans with
  | [] => O
  | (Black, _) :: rest => S (count_black rest)
  | _ :: rest => count_black rest
  end.

(** [ps'] is [ps] grown: no field is lost, every field of [ps] is still
    there with text added at its end at most, and only the last field of
    [ps] may have text added. *)
Definition grows (ps ps' : list string) : Prop :=
  (length ps <= length ps')%nat /\
  forall (i : nat) (l : string),
    ps !! i = Some l ->
    exists x, ps' !! i = Some (l +:+ x) /\
              ((S i < length ps)%nat -> x = "").

(** The flags [READ_SPEC.Parse] returns: [arg.r] and [arg.n]. *)
Record read_arg : Type := ReadArg { arg_r : bool; arg_n : option Z }.

Section Read.
(** The variable store [mem] with [state.SetLocalString] (core/state.py),
    the splitter's [SplitForRead] (core/legacy.py), the flag parser
    [READ_SPEC.Parse] (core/args.py) and [os.read] on standard input. *)
Context {Mem : Type}.
Variable SetLocalString : Mem -> string -> string -> result Mem.
Variable SplitForRead : string -> bool -> list span.
Variable READ_SPEC_Parse : list string -> result (read_arg * nat).
Variable os_read : Z -> list string -> string * list string.

(** Standard input is the list of the strings that successive
    [sys.stdin.readline()] calls return; once it is used up, [readline]
    returns [''].

    [read_lines] is the [while True] loop of [Read]; it returns the last
    [status] assigned, the final [parts] and the input left unread. *)
Fixpoint read_lines (raw : bool) (max_results : Z) (stdin : list string)
    (ps : list string) (jn : bool)
  : result (Z * list string * list string) :=
  match stdin with
  | [] => Ok (1, ps, [])
  | line :: rest =>
      if String.eqb line "" then Ok (1, ps, rest)
      else
        let '(line', status) :=
          if endswith_char "010" line then (drop_last line, 0)
          else (line, 1) in
        let spans := SplitForRead line' (negb raw) in
        let* (ps', done, jn') :=
          _AppendParts line' spans max_results jn ps in
        if done then Ok (status, ps', rest)
        else read_lines raw max_results rest ps' jn'
  end.

(** [continued raw max pre ps jn]: the lines [pre] are all continued,
    that is, each ends in a newline and is assembled with [done] false; the
    result is [parts] and [join_next] after the last of them. *)
Fixpoint continued (raw : bool) (max_results : Z) (pre : list string)
    (ps : list string) (jn : bool) : option (list string * bool) :=
  match pre with
  | [] => Some (ps, jn)
  | line :: rest =>
      if endswith_char "010" line
      then
        let line' := drop_last line in
        match _AppendParts line' (SplitForRead line' (negb raw))
                           max_results jn ps with
        | Ok (ps', false, jn') => continued raw max_results rest ps' jn'
        | _ => None
        end
      else None
  end.

(** The [for i in xrange(max_results)] loop: [names[i]] receives
    [parts[i]], or [''] when [parts] is too short. *)
Fixpoint assign_names (names : list string) (i : nat) (ps : list string)
    (mem : Mem) : result Mem :=
  match names with
  | [] => Ok mem
  | name :: rest =>
      let s := default "" (ps !! i) in
      let* mem' := SetLocalString mem name s in
      assign_names rest (S i) ps mem'
  end.

(** Every name of [names] set to [v], in order. *)
Fixpoint set_all (names : list string) (v : string) (mem : Mem)
  : result Mem :=
  match names with
  | [] => Ok mem
  | name :: rest =>
      let* mem' := SetLocalString mem name v in set_all rest v mem'
  end.

(** [Read(argv, splitter, mem)]: the status, the store and the input left. *)
Definition Read (argv : list string) (stdin : list string) (mem : Mem)
  : result (Z * Mem * list string) :=
  let* (arg, i) := READ_SPEC_Parse argv in
  let names := skipn i argv in
  match arg_n arg with
  | Some n =>
      let name := default "REPLY" (names !! 0%nat) in
      let '(s, stdin') := os_read n stdin in
      let* mem' := SetLocalString mem name s in
      Ok (0, mem', stdin')
  | None =>
      let names := if bool_decide (names = []) then ["REPLY"] else names in
      let max_results := Z.of_nat (length names) in
      let* (status, ps, stdin') :=
        read_lines (arg_r arg) max_results stdin [] false in
      let* mem' := assign_names names 0 ps mem in
      Ok (status, mem', stdin')
  end.

End Read.

End Fields.


(** ** [echo -e]: [ECHO_LEXER], [_EvalStringPart] and [Echo] *)

Module Echo.

(** A character of decoded text: a byte of a [str], or a code point of a
    [unicode].  A [str] is a text of [Byte]s and a [unicode] a text of
    [Uni]s; the two meet in [join] below, where Python 2 coerces. *)
Inductive pchar : Type :=
| Byte (c : ascii)
| Uni (code_point : Z).

Definition text : Type := list pchar.

Definition text_of_string (s : string) : text :=
  map Byte (list_ascii_of_string s).

Definition code (c : ascii) : Z := Z.of_N (N_of_ascii c).

Definition in_range (lo hi : ascii) (c : ascii) : bool :=
  (code lo <=? code c) && (code c <=? code hi).

Definition is_octal_digit : ascii -> bool := in_range "0" "7".
Definition is_digit : ascii -> bool := in_range "0" "9".
Definition is_hex_digit (c : ascii) : bool :=
  in_range "0" "9" c || in_range "a" "f" c || in_range "A" "F" c.

(** Membership in a character class written as a string. *)
Fixpoint one_of (cls : string) (c : ascii) : bool :=
  match cls with
  | EmptyString => false
  | String d rest => Ascii.eqb c d || one_of rest c
  end.

(** Greedy repetition: how many leading characters, at most [max], satisfy
    [p]. *)
Fixpoint count_while (p : ascii -> bool) (max : nat) (s : string) : nat :=
  match max, s with
  | S m, String c rest => if p c then S (count_while p m rest) else O
  | _, _ => O
  end.

(** A compiled pattern: the length of its left-anchored match at the head
    of the remaining input, if it matches. *)
Definition matcher : Type := string -> option nat.

(** [\\] followed by what [k] matches. *)
Definition backslash_then (k : matcher) : matcher :=
  fun s =>
    match s with
    | String c rest => if Ascii.eqb c "\" then S <$> k rest else None
    | EmptyString => None
    end.

(** One character of the class [p]. *)
Definition one_char (p : ascii -> bool) : matcher :=
  fun s =>
    match s with
    | String c _ => if p c then Some 1%nat else None
    | EmptyString => None
    end.

(** The character [c], then [p]{1,max}. *)
Definition char_then_rep (c : ascii) (p : ascii -> bool) (max : nat)
  : matcher :=
  fun s =>
    match s with
    | String d rest =>
        if Ascii.eqb d c
        then match count_while p max rest with
             | O => None
             | n => Some (S n)
             end
        else None
    | EmptyString => None
    end.

(** [p]+ *)
Definition plus (p : ascii -> bool) : matcher :=
  fun s =>
    match count_while p (String.length s) s with
    | O => None
    | n => Some n
    end.

(** [$]: the end of the string, or just before a newline that ends it. *)
Definition at_end : matcher :=
  fun s =>
    if String.eqb s "" || String.eqb s (String "010" "")
    then Some O else None.

Definition not_backslash (c : ascii) : bool := negb (Ascii.eqb c "\").
Definition not_newline (c : ascii) : bool := negb (Ascii.eqb c "010").

(** [ECHO_LEXER]: the pattern table, in its order. *)
Definition ECHO_LEXER : list (matcher * Id) :=
  [ (backslash_then (one_char (one_of "0abeEfrtnv\")), Char_OneChar);
    (backslash_then (one_char (Ascii.eqb "c")), Char_Stop);
    (backslash_then (char_then_rep "0" is_octal_digit 3), Char_Octal);
    (backslash_then (char_then_rep "x" is_hex_digit 2), Char_Hex);
    (backslash_then (char_then_rep "u" is_digit 4), Char_Unicode4);
    (backslash_then (char_then_rep "U" is_digit 8), Char_Unicode8);
    (plus not_backslash, Char_Literals);
    (backslash_then (one_char not_newline), Char_Literals);
    (backslash_then at_end, Char_Literals);
    (backslash_then (one_char (Ascii.eqb "000")), Char_Literals) ].

(** Modelled from the spec: [lexer.SimpleLexer] (core/lexer.py) is not part
    of the sources.  Following section 4.1, the lexer classifies the input
    at the current position by the pattern table: every pattern is tried
    left-anchored, the longest match wins, the earliest pattern wins a tie,
    and input that no pattern matches is an [AssertionError]. *)
Fixpoint all_matches (pats : list (matcher * Id)) (s : string)
  : list (nat * Id) :=
  match pats with
  | [] => []
  | (m, tok_type) :: rest =>
      match m s with
      | Some n => (n, tok_type) :: all_matches rest s
      | None => all_matches rest s
      end
  end.

Fixpoint first_max (l : list (nat * Id)) : option (nat * Id) :=
  match l with
  | [] => None
  | m :: rest =>
      match first_max rest with
      | Some m' => if (fst m <? fst m')%nat then Some m' else Some m
      | None => Some m
      end
  end.

Definition FindLongestMatch (pats : list (matcher * Id)) (s : string)
  : result (Id * nat) :=
  match first_max (all_matches pats s) with
  | Some (n, tok_type) => Ok (tok_type, n)
  | None => Raise AssertionError
  end.

(** [_ONE_CHAR]. *)
Definition _ONE_CHAR (c : ascii) : option ascii :=
  if Ascii.eqb c "0" then Some "000"%char
  else if Ascii.eqb c "a" then Some "007"%char
  else if Ascii.eqb c "b" then Some "008"%char
  else if Ascii.eqb c "e" then Some "027"%char
  else if Ascii.eqb c "E" then Some "027"%char
  else if Ascii.eqb c "f" then Some "012"%char
  else if Ascii.eqb c "n" then Some "010"%char
  else if Ascii.eqb c "r" then Some "013"%char
  else if Ascii.eqb c "t" then Some "009"%char
  else if Ascii.eqb c "v" then Some "011"%char
  else if Ascii.eqb c "\" then Some "\"%char
  else None.

(** The value of a digit in [int(s, base)]. *)
Definition digit_value (c : ascii) : option Z :=
  if in_range "0" "9" c then Some (code c - 48)
  else if in_range "a" "z" c then Some (code c - 87)
  else if in_range "A" "Z" c then Some (code c - 55)
  else None.

Fixpoint int_digits (base acc : Z) (s : string) : option Z :=
  match s with
  | EmptyString => Some acc
  | String c rest =>
      match digit_value c with
      | Some d =>
          if d <? base then int_digits base (acc * base + d) rest else None
      | None => None
      end
  end.

(** [int(s, base)] on a string of digits; [ValueError] otherwise. *)
Definition int_base (s : string) (base : Z) : result Z :=
  match s with
  | EmptyString => Raise ValueError
  | _ => match int_digits base 0 s with
         | Some i => Ok i
         | None => Raise ValueError
         end
  end.

(** [chr(i)]: [ValueError] outside [range(256)]. *)
Definition chr (i : Z) : result text :=
  if (0 <=? i) && (i <? 256)
  then Ok [Byte (ascii_of_N (Z.to_N i))]
  else Raise ValueError.

(** [unichr(i)] of a wide build: [ValueError] outside [range(0x110000)]. *)
Definition unichr (i : Z) : result text :=
  if (0 <=? i) && (i <? 1114112) then Ok [Uni i] else Raise ValueError.

(** [value[2:]]. *)
Definition drop2 (value : string) : string :=
  match value with
  | String _ (String _ rest) => rest
  | _ => EmptyString
  end.

(** [_EvalStringPart(id_, value)]; [None] is the sentinel of [\c]. *)
Definition _EvalStringPart (id_ : Id) (value : string)
  : result (option text) :=
  match id_ with
  | Char_OneChar =>
      match String.get 1 value with
      | None => Raise IndexError
      | Some c =>
          match _ONE_CHAR c with
          | Some d => Ok (Some [Byte d])
          | None => Raise KeyError
          end
      end
  | Char_Stop => Ok None
  | Char_Octal =>
      let s := drop2 value in
      let* i := int_base s 8 in
      let i := if i >=? 256 then i mod 256 else i in
      let* t := chr i in Ok (Some t)
  | Char_Hex =>
      let s := drop2 value in
      let* i := int_base s 16 in
      let* t := chr i in Ok (Some t)
  | Char_Unicode4 =>
      let s := drop2 value in
      let* i := int_base s 16 in
      let* t := unichr i in Ok (Some t)
  | Char_Unicode8 =>
      let s := drop2 value in
      let* i := int_base s 16 in
      let* t := unichr i in Ok (Some t)
  | Char_Literals => Ok (Some (text_of_string value))
  | _ => Raise AssertionError
  end.

(** The loop [for id_, value in ECHO_LEXER.Tokens(a)] of [Echo], run on
    the input [s] that is left.  The generator is consumed lazily: a token
    is lexed only when the loop asks for it.  [skip] counts the characters
    of the current token that are still to be passed over, so that the
    next token starts where this one ended.  [acc] is the list [parts]
    with its members laid end to end, [parts.append(p)] being [acc ++ t]:
    a part made by [unichr] is one [Uni] and every other part is a run of
    [Byte]s, so that all [''.join(parts)] depends on can be read off
    [acc].  The result is [acc] at the end of the loop and whether [\c]
    stopped it; the parts are not joined here. *)
Fixpoint eval_tokens (s : string) (skip : nat) (acc : text)
  : result (text * bool) :=
  match s with
  | EmptyString => Ok (acc, false)
  | String _ rest =>
      match skip with
      | S k => eval_tokens rest k acc
      | O =>
          let* (id_, n) := FindLongestMatch ECHO_LEXER s in
          let* p := _EvalStringPart id_ (String.substring 0 n s) in
          match p with
          | None => Ok (acc, true)
          | Some t => eval_tokens rest (Nat.pred n) (acc ++ t)
          end
      end
  end.

(** Every character of [s] satisfies [p]. *)
Fixpoint all_chars (p : ascii -> bool) (s : string) : bool :=
  match s with
  | EmptyString => true
  | String c rest => p c && all_chars p rest
  end.

(** What [Echo] does to standard output: the calls [sys.stdout.write(t)]
    and [sys.stdout.flush()].  What the stream makes of a [unicode]
    argument is the stream's matter and not part of [Echo]. *)
Inductive event : Type :=
| Write (t : text)
| Flush.

(** [for i, a in enumerate(argv): ...]: the arguments separated by single
    spaces. *)
Fixpoint write_args (first : bool) (argv : list text) : list event :=
  match argv with
  | [] => []
  | a :: rest =>
      (if first then [] else [Write (text_of_string " ")])
      ++ Write a :: write_args false rest
  end.

(** A part that is a [unicode], and a byte that ASCII cannot decode. *)
Definition is_unicode (c : pchar) : bool :=
  match c with
  | Uni _ => true
  | Byte _ => false
  end.

Definition is_high_byte (c : pchar) : bool :=
  match c with
  | Byte b => 128 <=? code b
  | Uni _ => false
  end.

(** What decoding a [str] as ASCII makes of a character. *)
Definition to_unicode (c : pchar) : pchar :=
  match c with
  | Byte b => Uni (code b)
  | Uni i => Uni i
  end.

(** [''.join(parts)] of Python 2, on the parts laid end to end.  When
    every part is a [str] the result is the [str] of their bytes.  When a
    part is a [unicode] the result is a [unicode] and every [str] part is
    decoded as ASCII, which raises [UnicodeDecodeError] on a byte above
    0x7F. *)
Definition join (parts : text) : result text :=
  if existsb is_unicode parts
  then if existsb is_high_byte parts
       then Raise UnicodeDecodeError
       else Ok (map to_unicode parts)
  else Ok parts.

(** One argument of the [-e] branch: its tokens are decoded, and the parts
    are joined when the loop over the tokens ends or stops at [\c]. *)
Definition decode_arg (a : string) : result (text * bool) :=
  let* (parts, stopped) := eval_tokens a 0 [] in
  let* t := join parts in
  Ok (t, stopped).

(** The loop [for a in argv] of the [-e] branch.  [inl out] is the early
    return at [\c], with the output written there; [inr new_argv] is the
    normal end of the loop. *)
Fixpoint decode_args (argv : list string) (new_argv : list text)
  : result (list event + list text) :=
  match argv with
  | [] => Ok (inr new_argv)
  | a :: rest =>
      let* (t, stopped) := decode_arg a in
      if stopped : bool
      then Ok (inl (write_args true (new_argv ++ [t])))
      else decode_args rest (new_argv ++ [t])
  end.

(** The text written by a sequence of events, in order. *)
Fixpoint output_text (evs : list event) : text :=
  match evs with
  | [] => []
  | Write t :: rest => t ++ output_text rest
  | Flush :: rest => output_text rest
  end.

Section Echo.
(** [echo_spec.ParseLikeEcho] (core/args.py): the flags [arg.e] and
    [arg.n], and the index of the first operand. *)
Variable ParseLikeEcho : list string -> (bool * bool) * nat.

(** [Echo(argv)]: the exit status and the output events, in order. *)
Definition Echo (argv : list string) : result (Z * list event) :=
  let '((arg_e, arg_n), arg_index) := ParseLikeEcho argv in
  let argv := skipn arg_index argv in
  let* r :=
    if arg_e then decode_args argv []
    else Ok (inr (map text_of_string argv)) in
  match r with
  | inl out => Ok (0, out)
  | inr argv' =>
      Ok (0, write_args true argv'
             ++ (if arg_n then [] else [Write (text_of_string (String "010" ""))])
             ++ [Flush])
  end.

End Echo.

End Echo.


(** ** [getopts]: [_ParseOptSpec], [_GetOpts] and [GetOpts] *)

Module GetOpts.

(** The [while True] loop of [_ParseOptSpec] over the characters left. *)
Fixpoint parse_opt_spec (spec_str : string) (spec : gmap string bool)
  : gmap string bool :=
  match spec_str with
  | EmptyString => spec
  | String c rest =>
      let key := String "-" (String c "") in
      let spec := <[key := false]> spec in
      match rest with
      | EmptyString => spec
      | String d rest' =>
          if Ascii.eqb d ":"
          then parse_opt_spec rest' (<[key := true]> spec)
          else parse_opt_spec rest spec
      end
  end.

Definition _ParseOptSpec (spec_str : string) : gmap string bool :=
  parse_opt_spec spec_str ∅.

Section GetOpts.
(** The variable store [mem] with [GetArgNum], [GetVar] and
    [state.SetGlobalString] (core/state.py); Python's [int] on a [str],
    where [None] stands for [ValueError]. *)
Context {Mem : Type}.
Variable GetArgNum : Mem -> Z -> value.
Variable GetVar : Mem -> string -> value.
Variable SetGlobalString : Mem -> string -> string -> result Mem.
Variable int_of_str : string -> option Z.

(** [_GetOpts(spec, mem, optind)]: the tuple
    [(status, opt_char, optarg, optind)] and the messages given to
    [util.error]. *)
Definition _GetOpts (spec : gmap string bool) (mem : Mem) (optind : Z)
  : result (Z * string * string * Z * list log_entry) :=
  let optarg := "" in
  match GetArgNum mem optind with
  | Undef => Ok (1, "?", optarg, optind, [])
  | StrArray _ => Raise AssertionError
  | Str current =>
      if negb (startswith_char "-" current)
      then Ok (1, "?", optarg, optind, [])
      else
        match spec !! current with
        | None => Ok (0, "?", optarg, optind + 1, [])
        | Some needs_arg =>
            let optind := optind + 1 in
            match last_char current with
            | None => Raise IndexError
            | Some c =>
                let opt_char := String c "" in
                if needs_arg : bool
                then
                  match GetArgNum mem optind with
                  | Undef =>
                      Ok (0, "?", optarg, optind,
                          [Error "getopts: option %r requires an argument"
                                 [current]])
                  | StrArray _ => Raise AssertionError
                  | Str s => Ok (0, opt_char, s, optind + 1, [])
                  end
                else Ok (0, opt_char, optarg, optind, [])
            end
        end
  end.

(** The spec [GetOpts] uses: the entry of [_GETOPTS_CACHE], or the parsed
    spec string. *)
Definition cached_spec (cache : gmap string (gmap string bool))
    (spec_str : string) : gmap string bool :=
  match cache !! spec_str with
  | Some spec => spec
  | None => _ParseOptSpec spec_str
  end.

(** The three [state.SetGlobalString] calls that end [GetOpts]. *)
Definition set_results (mem : Mem) (var_name opt_char optarg : string)
    (optind : Z) : result Mem :=
  let* mem := SetGlobalString mem var_name opt_char in
  let* mem := SetGlobalString mem "OPTARG" optarg in
  SetGlobalString mem "OPTIND" (str_of_int optind).

(** [_GETOPTS_CACHE] after the lookup of [spec_str]. *)
Definition cache_after (cache : gmap string (gmap string bool))
    (spec_str : string) (spec : gmap string bool)
  : gmap string (gmap string bool) :=
  match cache !! spec_str with
  | Some _ => cache
  | None => <[spec_str := spec]> cache
  end.

(** [GetOpts(argv, mem)], with the module-level [_GETOPTS_CACHE] passed
    explicitly: the status, the store, the cache and the messages given to
    [util.error]. *)
Definition GetOpts (argv : list string) (mem : Mem)
    (cache : gmap string (gmap string bool))
  : result (Z * Mem * gmap string (gmap string bool) * list log_entry) :=
  match argv with
  | spec_str :: var_name :: _ =>
      let spec := cached_spec cache spec_str in
      let cache := cache_after cache spec_str spec in
      match GetVar mem "OPTIND" with
      | Str s =>
          match int_of_str s with
          | None =>
              Raise (FatalRuntimeError
                       "OPTIND doesn't look like an integer, got %r")
          | Some optind =>
              let* (status, opt_char, optarg, optind, errs) :=
                _GetOpts spec mem optind in
              let* mem := set_results mem var_name opt_char optarg optind in
              Ok (status, mem, cache, errs)
          end
      | _ => Raise (FatalRuntimeError "OPTIND should be a string, got %r")
      end
  | _ => Raise (UsageError "getopts optstring name [arg]")
  end.

End GetOpts.

(** Every entry of the cache is the parsed form of its key. *)
Definition coherent (cache : gmap string (gmap string bool)) : Prop :=
  forall spec_str spec,
    cache !! spec_str = Some spec -> spec = _ParseOptSpec spec_str.

(** The result of [GetOpts] without the cache. *)
Definition drop_cache {Mem : Type}
    (r : result (Z * Mem * gmap string (gmap string bool) * list log_entry))
  : result (Z * Mem * list log_entry) :=
  let* (status, mem, _, errs) := r in Ok (status, mem, errs).

End GetOpts.


(** ** [wait] *)

Module Wait.

(** What [job.WaitUntilDone] returns: one status, or the list of the
    statuses of a pipeline. *)
Inductive wait_status : Type :=
| Single (st : Z)
| Pipeline (st : list Z).

Section Wait.
(** [World] stands for the waiter, the job table and the variable store
    together.  [getopt_n] is [getopt.getopt(argv, 'n')], with [None] for
    [GetoptError]; [int_of_str] is Python's [int] on a [str], with [None]
    for [ValueError]. *)
Context {World Job : Type}.
Variable getopt_n : list string -> option (list (string * string) * list string).
Variable int_of_str : string -> option Z.
Variable waiter_Wait : World -> bool * World.
Variable last_status : World -> Z.
Variable AllDone : World -> bool.
Variable jobs : World -> gmap Z Job.
Variable WaitUntilDone : Job -> World -> wait_status * World.
Variable SetGlobalArray : World -> string -> list string -> result World.

(** [for name, val in opts]. *)
Fixpoint scan_opts (opts : list (string * string)) (opt_n : bool)
  : result bool :=
  match opts with
  | [] => Ok opt_n
  | (name, _) :: rest =>
      if String.eqb name "-n" then scan_opts rest true
      else Raise AssertionError
  end.

(** The [while True] loop of the branch without ids; [None] when [fuel]
    iterations were not enough. *)
Fixpoint wait_all (fuel : nat) (w : World) : option World :=
  match fuel with
  | O => None
  | S fuel' =>
      let '(waited, w') := waiter_Wait w in
      if negb waited then Some w'
      else if AllDone w' then Some w'
      else wait_all fuel' w'
  end.

(** The loop [for a in args] over the listed ids, from [status]: the
    returned status, the world and the messages given to [util.error]. *)
Fixpoint wait_ids (args : list string) (status : Z) (w : World)
  : result (Z * World * list log_entry) :=
  match args with
  | [] => Ok (status, w, [])
  | a :: rest =>
      match int_of_str a with
      | None => Ok (127, w, [Error "Invalid argument %r" [a]])
      | Some jid =>
          match jobs w !! jid with
          | None => Ok (127, w, [Error "No such job: %s" [str_of_int jid]])
          | Some job =>
              let '(st, w1) := WaitUntilDone job w in
              match st with
              | Pipeline l =>
                  match last l with
                  | None => Raise IndexError
                  | Some s =>
                      let* w2 :=
                        SetGlobalArray w1 "PIPESTATUS" (map str_of_int l) in
                      wait_ids rest s w2
                  end
              | Single s => wait_ids rest s w1
              end
          end
      end
  end.

(** [Wait(argv, waiter, job_state, mem)]; [None] when the loop of the branch
    without ids did not end within [fuel] iterations. *)
Definition Wait (fuel : nat) (argv : list string) (w : World)
  : option (result (Z * World * list log_entry)) :=
  match getopt_n argv with
  | None => Some (Raise (SystemExit 2))
  | Some (opts, args) =>
      match scan_opts opts false with
      | Raise e => Some (Raise e)
      | Ok true =>
          let '(waited, w') := waiter_Wait w in
          if waited then Some (Ok (last_status w', w', []))
          else Some (Ok (127, w', []))
      | Ok false =>
          match args with
          | [] =>
              match wait_all fuel w with
              | Some w' => Some (Ok (0, w', []))
              | None => None
              end
          | _ => Some (wait_ids args 1 w)
          end
      end
  end.

End Wait.

End Wait.


(** ** The boolean expression parser: [BoolParser] *)

Module BoolParse.

(** The token kinds named by the parser ([osh.meta.Kind]). *)
Inductive Kind : Type :=
| Kind_Undefined | Kind_BoolUnary | Kind_Word | Kind_BoolBinary | Kind_Redir
| Kind_other (n : nat).

Global Instance Kind_eq_dec : EqDecision Kind.
Proof. solve_decision. Defined.

Inductive lex_mode_e : Type := DBRACKET | BASH_REGEX.

Global Instance lex_mode_e_eq_dec : EqDecision lex_mode_e.
Proof. solve_decision. Defined.

(** The ids of the AND tokens ([&&] and [-a]) and of the OR tokens
    ([||] and [-o]), as [ParseTerm] and [ParseExpr] test them. *)
Definition is_and_id (id_ : Id) : Prop :=
  id_ = Op_DAmp \/ id_ = BoolUnary_a.

Definition is_or_id (id_ : Id) : Prop :=
  id_ = Op_DPipe \/ id_ = BoolUnary_o.

Section Parser.
(** [word] is the type of the words read; [WP] is the state of the word
    parser [w_parser], whose [ReadWord] may raise.  [BoolId] is
    [word.BoolId], [LookupKind] is [osh.meta.LookupKind], [StaticEval] is
    [word.StaticEval], and [regex_parse] tells whether [libc.regex_parse]
    accepts a pattern. *)
Context {word WP : Type}.
Variable ReadWord : WP -> lex_mode_e -> result (word * WP).
Variable BoolId : word -> Id.
Variable LookupKind : Id -> Kind.
Variable StaticEval : word -> bool * string * bool.
Variable regex_parse : string -> bool.

(** The boolean AST ([ast.LogicalNot] and the others). *)
Inductive bool_expr : Type :=
| LogicalNot (child : bool_expr)
| LogicalAnd (left right : bool_expr)
| LogicalOr (left right : bool_expr)
| BoolUnary (op : Id) (w : word)
| BoolBinary (op : Id) (left right : word)
| WordTest (w : word).

(** The fields of a [BoolParser]. *)
Record pstate : Type := PState {
  w_parser : WP;
  words : list word;
  cur_word : option word;
  op_id : Id;
  b_kind : Kind
}.

(** [BoolParser(w_parser)]. *)
Definition init (wp : WP) : pstate :=
  PState wp [] None Undefined_Tok Kind_Undefined.

(** The outcome of a method: a value with the new fields, an exception,
    or not enough fuel for the recursion. *)
Inductive outcome (A : Type) : Type :=
| Done (a : A) (st : pstate)
| Fail (e : exn)
| OutOfFuel.
Arguments Done {A} a st.
Arguments Fail {A} e.
Arguments OutOfFuel {A}.

Definition pbind {A B} (m : outcome A) (k : A -> pstate -> outcome B)
  : outcome B :=
  match m with
  | Done a st => k a st
  | Fail e => Fail e
  | OutOfFuel => OutOfFuel
  end.

Definition p_die {A} (msg : string) : outcome A := Fail (ParseError msg).

(** [self.w_parser.ReadWord(lex_mode)]. *)
Definition read_word (lex_mode : lex_mode_e) (st : pstate)
  : outcome word :=
  match ReadWord (w_parser st) lex_mode with
  | Ok (w, wp') =>
      Done w (PState wp' (words st) (cur_word st) (op_id st) (b_kind st))
  | Raise e => Fail e
  end.

(** The end of [_NextOne]: [cur_word] must be set; then [op_id] and
    [b_kind] are derived from it. *)
Definition classify (wp : WP) (ws : list word) (cur : option word)
  : outcome unit :=
  match cur with
  | None => Fail AssertionError
  | Some w =>
      let op := BoolId w in
      Done tt (PState wp ws cur op (LookupKind op))
  end.

Definition _NextOne (lex_mode : lex_mode_e) (st : pstate) : outcome unit :=
  match words st with
  | [_; w1] =>
      if bool_decide (lex_mode = DBRACKET)
      then classify (w_parser st) [w1] (Some w1)
      else Fail AssertionError
  | [] =>
      pbind (read_word lex_mode st) (fun w st' =>
        classify (w_parser st') [w] (Some w))
  | [_] =>
      pbind (read_word lex_mode st) (fun w st' =>
        classify (w_parser st') [w] (Some w))
  | ws => classify (w_parser st) ws (cur_word st)
  end.

(** [_Next]: advance, skipping newlines. *)
Fixpoint _Next (fuel : nat) (lex_mode : lex_mode_e) (st : pstate)
  : outcome unit :=
  match fuel with
  | O => OutOfFuel
  | S fuel' =>
      pbind (_NextOne lex_mode st) (fun _ st' =>
        if bool_decide (op_id st' <> Op_Newline) then Done tt st'
        else _Next fuel' lex_mode st')
  end.

Definition _LookAhead (st : pstate) : outcome word :=
  match words st with
  | [_] =>
      pbind (read_word DBRACKET st) (fun w st' =>
        Done w (PState (w_parser st') (words st' ++ [w]) (cur_word st')
                       (op_id st') (b_kind st')))
  | _ => Fail AssertionError
  end.

(** [self.cur_word] where a word is needed. *)
Definition get_cur_word (st : pstate) : outcome word :=
  match cur_word st with
  | Some w => Done w st
  | None => Fail AssertionError
  end.

(** The regex check of [ParseFactor] on the right-hand word. *)
Definition check_regex (right : word) (st : pstate) : outcome unit :=
  let '(ok, regex_str, _) := StaticEval right in
  if ok && negb (regex_parse regex_str)
  then p_die "Error parsing regex %r: %s"
  else Done tt st.

(** [ParseExpr], [ParseTerm], [ParseNegatedFactor] and [ParseFactor]; every
    call uses one unit of [fuel]. *)
Fixpoint ParseExpr (fuel : nat) (st : pstate) : outcome bool_expr :=
  match fuel with
  | O => OutOfFuel
  | S fuel' =>
      pbind (ParseTerm fuel' st) (fun left st =>
        if bool_decide (op_id st = Op_DPipe)
           || bool_decide (op_id st = BoolUnary_o)
        then
          pbind (_Next fuel' DBRACKET st) (fun _ st =>
          pbind (ParseExpr fuel' st) (fun right st =>
            Done (LogicalOr left right) st))
        else Done left st)
  end
with ParseTerm (fuel : nat) (st : pstate) : outcome bool_expr :=
  match fuel with
  | O => OutOfFuel
  | S fuel' =>
      pbind (ParseNegatedFactor fuel' st) (fun left st =>
        if bool_decide (op_id st = Op_DAmp)
           || bool_decide (op_id st = BoolUnary_a)
        then
          pbind (_Next fuel' DBRACKET st) (fun _ st =>
          pbind (ParseTerm fuel' st) (fun right st =>
            Done (LogicalAnd left right) st))
        else Done left st)
  end
with ParseNegatedFactor (fuel : nat) (st : pstate) : outcome bool_expr :=
  match fuel with
  | O => OutOfFuel
  | S fuel' =>
      if bool_decide (op_id st = KW_Bang)
      then
        pbind (_Next fuel' DBRACKET st) (fun _ st =>
        pbind (ParseFactor fuel' st) (fun child st =>
          Done (LogicalNot child) st))
      else ParseFactor fuel' st
  end
with ParseFactor (fuel : nat) (st : pstate) : outcome bool_expr :=
  match fuel with
  | O => OutOfFuel
  | S fuel' =>
      if bool_decide (b_kind st = Kind_BoolUnary)
      then
        let op := op_id st in
        pbind (_Next fuel' DBRACKET st) (fun _ st =>
        pbind (get_cur_word st) (fun w st =>
        pbind (_Next fuel' DBRACKET st) (fun _ st =>
          Done (BoolUnary op w) st)))
      else if bool_decide (b_kind st = Kind_Word)
      then
        pbind (_LookAhead st) (fun t2 st =>
          let t2_op_id := BoolId t2 in
          let t2_b_kind := LookupKind t2_op_id in
          if bool_decide (t2_b_kind = Kind_BoolBinary)
             || bool_decide (t2_b_kind = Kind_Redir)
          then
            pbind (get_cur_word st) (fun left st =>
            pbind (_Next fuel' DBRACKET st) (fun _ st =>
              let op := op_id st in
              let is_regex :=
                bool_decide (t2_op_id = BoolBinary_EqualTilde) in
              pbind (_Next fuel'
                           (if is_regex then BASH_REGEX else DBRACKET) st)
                (fun _ st =>
              pbind (get_cur_word st) (fun right st =>
              pbind (if is_regex then check_regex right st else Done tt st)
                (fun _ st =>
              pbind (_Next fuel' DBRACKET st) (fun _ st =>
                Done (BoolBinary op left right) st))))))
          else
            pbind (get_cur_word st) (fun w st =>
            pbind (_Next fuel' DBRACKET st) (fun _ st =>
              Done (WordTest w) st)))
      else if bool_decide (op_id st = Op_LParen)
      then
        pbind (_Next fuel' DBRACKET st) (fun _ st =>
        pbind (ParseExpr fuel' st) (fun node st =>
          if bool_decide (op_id st <> Op_RParen)
          then p_die "Expected ), got %s"
          else
            pbind (_Next fuel' DBRACKET st) (fun _ st =>
              Done node st)))
      else p_die "Unexpected token in boolean expression"
  end.

(** [Parse]: the entry point for [[ ]]. *)
Definition Parse (fuel : nat) (st : pstate) : outcome bool_expr :=
  pbind (_Next fuel DBRACKET st) (fun _ st =>
  pbind (ParseExpr fuel st) (fun node st =>
    if bool_decide (op_id st <> Lit_DRightBracket)
    then p_die "Expected ]]"
    else Done node st)).

(** [ParseForBuiltin]: the entry point for the [test] builtin. *)
Definition ParseForBuiltin (fuel : nat) (st : pstate) : outcome bool_expr :=
  pbind (_Next fuel DBRACKET st) (fun _ st =>
  pbind (ParseExpr fuel st) (fun node st =>
    if bool_decide (op_id st <> Eof_Real)
    then p_die "Unexpected trailing word in test expression: %s"
    else Done node st)).

(** *** Word streams, for stating what the parser returns *)

(** Reading in [DBRACKET] mode from [wp] yields the words [ws] in order and
    leaves the word parser in [wp']. *)
Fixpoint reads (wp : WP) (ws : list word) (wp' : WP) : Prop :=
  match ws with
  | [] => wp = wp'
  | w :: rest =>
      exists wp1, ReadWord wp DBRACKET = Ok (w, wp1) /\ reads wp1 rest wp'
  end.

(** The fields after [_Next] has stopped on the word [w], with no word
    read ahead. *)
Definition at_word (wp : WP) (w : word) : pstate :=
  PState wp [w] (Some w) (BoolId w) (LookupKind (BoolId w)).

(** [w] is an operand: a word of kind [Word] that is neither [!] nor a
    newline. *)
Definition is_word (w : word) : Prop :=
  LookupKind (BoolId w) = Kind_Word /\
  BoolId w <> KW_Bang /\ BoolId w <> Op_Newline.

(** [w] is a token with one of the ids [ids] that does not classify as a
    binary test operator or a redirection. *)
Definition is_op (ids : list Id) (w : word) : Prop :=
  In (BoolId w) ids /\
  LookupKind (BoolId w) <> Kind_BoolBinary /\
  LookupKind (BoolId w) <> Kind_Redir.

(** The parser has stopped on a word: that word alone is pending, it is
    the current word, [op_id] and [b_kind] are derived from it, and it is
    not a newline. *)
Definition settled (st : pstate) : Prop :=
  exists wp w, st = at_word wp w /\ BoolId w <> Op_Newline.

End Parser.

Arguments Done {word WP A} a st.
Arguments Fail {word WP A} e.
Arguments OutOfFuel {word WP A}.

End BoolParse.


(** ** Sample collaborators

    Small executable stand-ins for the parts of the shell that the embedded
    code calls but that live in other modules: a variable store, a job
    table, a splitter on spaces, flag parsers and a word stream.  They
    serve to run the embedded code on concrete inputs. *)

Module Samples.

(** A store: the variables and the positional parameters. *)
Record store : Type := Store {
  vars : gmap string value;
  positional : list string
}.

Definition GetVar (m : store) (name : string) : value :=
  default Undef (vars m !! name).

(** [mem.GetArgNum(n)]: the [n]-th positional parameter, from 1. *)
Definition GetArgNum (m : store) (n : Z) : value :=
  if n <? 1 then Undef
  else match positional m !! Z.to_nat (n - 1) with
       | Some s => Str s
       | None => Undef
       end.

Definition SetString (m : store) (name s : string) : result store :=
  Ok (Store (<[name := Str s]> (vars m)) (positional m)).

(** Decimal digits only. *)
Definition int_of_str (s : string) : option Z :=
  match s with
  | EmptyString => None
  | _ => Echo.int_digits 10 0 s
  end.

(** A job table: every job holds the result its wait will return. *)
Record world : Type := World {
  table : gmap Z Wait.wait_status;
  pipestatus : list string
}.

Definition WaitUntilDone (job : Wait.wait_status) (w : world)
  : Wait.wait_status * world := (job, w).

Definition SetGlobalArray (w : world) (name : string) (l : list string)
  : result world := Ok (World (table w) l).

Definition getopt_n (argv : list string)
  : option (list (string * string) * list string) := Some ([], argv).

(** Spans of a line split on spaces: runs of spaces are [Delim], the other
    runs are [Black]. *)
Fixpoint space_spans (s : string) (pos : Z) (cur : option Fields.span_e)
  : list Fields.span :=
  match s with
  | EmptyString =>
      match cur with
      | Some k => [(k, pos)]
      | None => []
      end
  | String c rest =>
      let k := if Ascii.eqb c " " then Fields.Delim else Fields.Black in
      match cur with
      | Some k' =>
          if bool_decide (k = k') then space_spans rest (pos + 1) cur
          else (k', pos) :: space_spans rest (pos + 1) (Some k)
      | None => space_spans rest (pos + 1) (Some k)
      end
  end.

Definition SplitForRead (line : string) (decode_backslash : bool)
  : list Fields.span := space_spans line 0 None.

Definition READ_SPEC_Parse (argv : list string)
  : result (Fields.read_arg * nat) :=
  match argv with
  | "-r" :: _ => Ok (Fields.ReadArg true None, 1%nat)
  | _ => Ok (Fields.ReadArg false None, 0%nat)
  end.

Definition os_read (n : Z) (stdin : list string) : string * list string :=
  ("", stdin).

Definition ParseLikeEcho (argv : list string) : (bool * bool) * nat :=
  match argv with
  | "-e" :: _ => ((true, false), 1%nat)
  | "-n" :: _ => ((false, true), 1%nat)
  | _ => ((false, false), 0%nat)
  end.

(** A word stream: the words are strings, read one after the other. *)
Definition ReadWord (wp : list string) (mode : BoolParse.lex_mode_e)
  : result (string * list string) :=
  match wp with
  | [] => Ok ("", [])
  | w :: rest => Ok (w, rest)
  end.

Definition BoolId (w : string) : Id :=
  if String.eqb w "" then Eof_Real
  else if String.eqb w "&&" then Op_DAmp
  else if String.eqb w "||" then Op_DPipe
  else if String.eqb w "!" then KW_Bang
  else if String.eqb w "]]" then Lit_DRightBracket
  else if String.eqb w "(" then Op_LParen
  else if String.eqb w ")" then Op_RParen
  else if String.eqb w "-a" then BoolUnary_a
  else if String.eqb w "-o" then BoolUnary_o
  else if String.eqb w "=~" then BoolBinary_EqualTilde
  else if String.eqb w "-z" then Id_other 1
  else if String.eqb w "==" then Id_other 2
  else Id_other 0.

Definition LookupKind (id_ : Id) : BoolParse.Kind :=
  match id_ with
  | BoolUnary_a | BoolUnary_o | Id_other 1 => BoolParse.Kind_BoolUnary
  | BoolBinary_EqualTilde | Id_other 2 => BoolParse.Kind_BoolBinary
  | Id_other 0 => BoolParse.Kind_Word
  | _ => BoolParse.Kind_other 0
  end.

Definition StaticEval (w : string) : bool * string * bool := (true, w, false).

Definition regex_parse (pat : string) : bool := true.

End Samples.


(** ** Other builtins: [Exit], [Shift], [Cd], [Export], [Unset], [Command],
    [Type] *)

Module Builtins.

(** What a builtin sends to the user: [util.error], [util.warn], [log], a
    [print] to standard error and a [print] to standard output. *)
Inductive out : Type :=
| UtilError (fmt : string) (args : list string)
| UtilWarn (fmt : string)
| UtilLog (fmt : string)
| Stderr (fmt : string) (args : list string)
| Stdout (line : string).

(** [runtime.scope_e] and [runtime.var_flags_e], as far as they are
    named. *)
Inductive scope_e : Type := Dynamic | GlobalOnly.
Inductive var_flags_e : Type := Exported | ReadOnly.

Section ExitShift.
(** Python's [int] on a [str], with [None] for [ValueError], and
    [mem.Shift] (core/state.py), which returns the status. *)
Context {Mem : Type}.
Variable int_of_str : string -> option Z.
Variable mem_Shift : Mem -> Z -> Z * Mem.

(** [Exit(argv)]: [sys.exit(code)] is the exception [SystemExit code]. *)
Definition Exit (argv : list string) : result Z * list out :=
  match argv with
  | _ :: _ :: _ => (Ok 1, [UtilError "exit: too many arguments" []])
  | [] => (Raise (SystemExit 0), [])
  | [a] =>
      match int_of_str a with
      | Some code => (Raise (SystemExit code), [])
      | None => (Raise (SystemExit 1), [Stderr "Invalid argument %r" [a]])
      end
  end.

(** [Shift(argv, mem)].  The handler of [ValueError] formats [argv[1]]. *)
Definition Shift (argv : list string) (mem : Mem)
  : result (Z * Mem) * list out :=
  match argv with
  | _ :: _ :: _ => (Ok (1, mem), [UtilError "shift: too many arguments" []])
  | [] => (Ok (mem_Shift mem 1), [])
  | [a] =>
      match int_of_str a with
      | Some n => (Ok (mem_Shift mem n), [])
      | None =>
          match argv !! 1%nat with
          | Some a1 =>
              (Ok (1, mem), [Stderr "Invalid shift argument %r" [a1]])
          | None => (Raise IndexError, [])
          end
      end
  end.

End ExitShift.

Section Cd.
(** The store with [GetVar] (whose scope argument is optional) and
    [state.SetGlobalString]; the file system with [os.chdir], where [None]
    stands for [OSError]; the directory stack with [Reset]. *)
Context {Mem FS DirStack : Type}.
Variable GetVar : Mem -> string -> option scope_e -> value.
Variable SetGlobalString : Mem -> string -> string -> result Mem.
Variable chdir : FS -> string -> option FS.
Variable dir_Reset : FS -> DirStack -> DirStack.



(** *** The destination, for stating what [Cd] does *)




End Cd.

(** [arg.split('=', 1)]: the text before the first [=], and the text after
    it when there is one. *)
Fixpoint split_eq (s : string) : string * option string :=
  match s with
  | EmptyString => (EmptyString, None)
  | String c rest =>
      if Ascii.eqb c "="
      then (EmptyString, Some rest)
      else let '(name, v) := split_eq rest in (String c name, v)
  end.

(** The characters other than [=]. *)
Definition not_equals (c : ascii) : bool := negb (Ascii.eqb c "=").

Section ExportNames.
(** [EXPORT_SPEC.Parse] (the flag [-n] and the index of the first operand),
    [lex.VAR_NAME_RE.match] as a test, [mem.ClearFlag] and [mem.SetVar]. *)
Context {Mem : Type}.
Variable EXPORT_SPEC_Parse : list string -> result (bool * nat).
Variable var_name_match : string -> bool.
Variable ClearFlag : Mem -> string -> var_flags_e -> scope_e -> Mem.
Variable SetVar :
  Mem -> string -> option value -> list var_flags_e -> scope_e -> result Mem.

(** The loop of the [-n] branch. *)
Fixpoint export_clear (names : list string) (mem : Mem) : result Mem :=
  match names with
  | [] => Ok mem
  | name :: rest =>
      if var_name_match name
      then export_clear rest (ClearFlag mem name Exported Dynamic)
      else Raise (UsageError "export: Invalid variable name %r")
  end.

(** The loop of the other branch. *)
Fixpoint export_set (args : list string) (mem : Mem) : result Mem :=
  match args with
  | [] => Ok mem
  | arg :: rest =>
      let '(name, val) :=
        match split_eq arg with
        | (name, None) => (name, None)
        | (name, Some s) => (name, Some (Str s))
        end in
      if var_name_match name
      then let* mem' := SetVar mem name val [Exported] Dynamic in
           export_set rest mem'
      else Raise (UsageError "export: Invalid variable name %r")
  end.

Definition Export (argv : list string) (mem : Mem) : result (Z * Mem) :=
  let* (arg_n, i) := EXPORT_SPEC_Parse argv in
  let* mem' :=
    if arg_n : bool then export_clear (skipn i argv) mem
    else export_set (skipn i argv) mem in
  Ok (0, mem').

End ExportNames.

Section Unset.
(** [UNSET_SPEC.Parse] (the flags [-v] and [-f] and the index of the first
    operand) and [mem.Unset], which returns [(ok, found)]. *)
Context {Mem Func : Type}.
Variable UNSET_SPEC_Parse : list string -> result ((bool * bool) * nat).
Variable mem_Unset : Mem -> string -> scope_e -> (bool * bool) * Mem.

(** [if name in funcs: del funcs[name]]. *)
Definition del_func (name : string) (funcs : gmap string Func)
  : gmap string Func :=
  if decide (is_Some (funcs !! name)) then delete name funcs else funcs.

(** The loop [for name in argv[i:]]. *)
Fixpoint unset_names (arg_v arg_f : bool) (names : list string)
    (mem : Mem) (funcs : gmap string Func)
  : Z * Mem * gmap string Func * list out :=
  match names with
  | [] => (0, mem, funcs, [])
  | name :: rest =>
      if arg_f
      then unset_names arg_v arg_f rest mem (del_func name funcs)
      else
        let '((ok, found), mem') := mem_Unset mem name Dynamic in
        if negb ok
        then (1, mem', funcs,
              [UtilError "Can't unset readonly variable %r" [name]])
        else if arg_v
        then unset_names arg_v arg_f rest mem' funcs
        else if negb found
        then unset_names arg_v arg_f rest mem' (del_func name funcs)
        else unset_names arg_v arg_f rest mem' funcs
  end.

Definition Unset (argv : list string) (mem : Mem)
    (funcs : gmap string Func)
  : result (Z * Mem * gmap string Func * list out) :=
  let* ((arg_v, arg_f), i) := UNSET_SPEC_Parse argv in
  Ok (unset_names arg_v arg_f (skipn i argv) mem funcs).

End Unset.

Section CommandType.
(** [COMMAND_SPEC.Parse] (the flags [-v] and [-V]) and [TYPE_SPEC.Parse]
    (the flag [-t]), with the parameters of [_ResolveNames]. *)
Context {Func : Type}.
Variable IsOtherBuiltin : string -> bool.
Variable IsKeyword : string -> bool.
Variable path_exists : string -> bool.
Variable COMMAND_SPEC_Parse : list string -> result ((bool * bool) * nat).
Variable TYPE_SPEC_Parse : list string -> result (bool * nat).

(** [print(x)] of a string or [None]. *)
Definition print_opt (x : option string) : out :=
  Stdout (default "None" x).

(** The loop of [Command]: [print(arg)] for every resolved name. *)
Fixpoint command_loop (results : list Dispatch.resolution) (status : Z)
  : Z * list out :=
  match results with
  | [] => (status, [])
  | (None, _) :: rest => command_loop rest 1
  | (Some _, arg) :: rest =>
      let '(st, o) := command_loop rest status in (st, print_opt arg :: o)
  end.

(** The loop of [Type]: [print(kind)] for every resolved name. *)
Fixpoint type_loop (results : list Dispatch.resolution) (status : Z)
  : Z * list out :=
  match results with
  | [] => (status, [])
  | (None, _) :: rest => type_loop rest 1
  | (Some kind, _) :: rest =>
      let '(st, o) := type_loop rest status in (st, Stdout kind :: o)
  end.

Definition Command (argv : list string) (funcs : gmap string Func)
    (path_val : value) : result (Z * list out) :=
  let* ((arg_v, _), i) := COMMAND_SPEC_Parse argv in
  if arg_v : bool
  then Ok (command_loop
             (Dispatch._ResolveNames IsOtherBuiltin IsKeyword path_exists
                (skipn i argv) funcs path_val) 0)
  else Ok (1, [UtilWarn "*** command without -v not not implemented ***"]).

Definition Type_ (argv : list string) (funcs : gmap string Func)
    (path_val : value) : result (Z * list out) :=
  let* (arg_t, i) := TYPE_SPEC_Parse argv in
  let '(status, warn) :=
    if arg_t : bool then (0, [])
    else (1, [UtilWarn "*** 'type' builtin called without -t ***"]) in
  let '(st, o) :=
    type_loop
      (Dispatch._ResolveNames IsOtherBuiltin IsKeyword path_exists
         (skipn i argv) funcs path_val) status in
  Ok (st, warn ++ o).

End CommandType.

End Builtins.


(** More sample collaborators, for the other builtins and for word
    streams with newlines. *)
Module Samples2.

(** [Samples.BoolId], with the string of one newline as the newline
    token. *)
Definition BoolId (w : string) : Id :=
  if String.eqb w (String "010" "") then Op_Newline else Samples.BoolId w.

(** The lexer's tests and a file system with one file. *)
Definition IsOtherBuiltin (name : string) : bool := String.eqb name "declare".
Definition IsKeyword (name : string) : bool := String.eqb name "if".
Definition path_exists (p : string) : bool := String.eqb p "/bin/ls".

(** Flag parsers: a flag is recognised in first position only. *)
Definition COMMAND_SPEC_Parse (argv : list string)
  : result ((bool * bool) * nat) :=
  match argv with
  | "-v" :: _ => Ok ((true, false), 1%nat)
  | _ => Ok ((false, false), 0%nat)
  end.

Definition TYPE_SPEC_Parse (argv : list string) : result (bool * nat) :=
  match argv with
  | "-t" :: _ => Ok (true, 1%nat)
  | _ => Ok (false, 0%nat)
  end.

Definition UNSET_SPEC_Parse (argv : list string)
  : result ((bool * bool) * nat) :=
  match argv with
  | "-v" :: _ => Ok ((true, false), 1%nat)
  | "-f" :: _ => Ok ((false, true), 1%nat)
  | _ => Ok ((false, false), 0%nat)
  end.

Definition EXPORT_SPEC_Parse (argv : list string) : result (bool * nat) :=
  match argv with
  | "-n" :: _ => Ok (true, 1%nat)
  | _ => Ok (false, 0%nat)
  end.

(** A store without read-only variables. *)
Definition mem_Unset (m : Samples.store) (name : string)
    (sc : Builtins.scope_e) : (bool * bool) * Samples.store :=
  ((true, bool_decide (is_Some (Samples.vars m !! name))),
   Samples.Store (delete name (Samples.vars m)) (Samples.positional m)).

Definition GetVar (m : Samples.store) (name : string)
    (sc : option Builtins.scope_e) : value := Samples.GetVar m name.

Definition SetVar (m : Samples.store) (name : string) (v : option value)
    (flags : list Builtins.var_flags_e) (sc : Builtins.scope_e)
  : result Samples.store :=
  Ok (Samples.Store (<[name := default (Str "") v]> (Samples.vars m))
                    (Samples.positional m)).

Definition ClearFlag (m : Samples.store) (name : string)
    (f : Builtins.var_flags_e) (sc : Builtins.scope_e) : Samples.store := m.

(** Names made of letters, digits and underscores that do not start with a
    digit. *)
Definition var_name_match (name : string) : bool :=
  let word_char c :=
    Echo.in_range "a" "z" c || Echo.in_range "A" "Z" c
    || Echo.is_digit c || Ascii.eqb c "_" in
  match name with
  | EmptyString => false
  | String c _ => negb (Echo.is_digit c) && Echo.all_chars word_char name
  end.



Definition mem_Shift (m : Samples.store) (n : Z) : Z * Samples.store :=
  if (0 <=? n) && (n <=? Z.of_nat (length (Samples.positional m)))
  then (0, Samples.Store (Samples.vars m)
                         (skipn (Z.to_nat n) (Samples.positional m)))
  else (1, m).

End Samples2.


(** * Properties *)

(** ** Dispatch resolution *)

Section DispatchFacts.
Import Dispatch.
Context {Func : Type}.
Variables (IsOtherBuiltin IsKeyword path_exists : string -> bool).

(** A name bound in [funcs] resolves to the function, whatever else the
    name is. *)
Lemma resolve_name_function (funcs : gmap string Func) path_list name :
  is_Some (funcs !! name) ->
  resolve_name IsOtherBuiltin IsKeyword path_exists funcs path_list name
  = (Some "function", Some name).
Proof.
  intros Hf. unfold resolve_name. by rewrite decide_True.
Qed.

(** Without a function of that name, an ordinary builtin resolves to
    itself. *)
Lemma resolve_name_builtin (funcs : gmap string Func) path_list name :
  funcs !! name = None ->
  Resolve name <> NONE ->
  resolve_name IsOtherBuiltin IsKeyword path_exists funcs path_list name
  = (Some "builtin", Some name).
Proof.
  intros Hf Hb. unfold resolve_name.
  rewrite decide_False; [| rewrite Hf; by intros [? ?]].
  by rewrite decide_True.
Qed.

(** C1: [_ResolveNames] looks into [funcs] before anything else, so for
    every name of [_SPECIAL_BUILTINS] a user-defined function of that name
    is what [command -v] and [type] report: the function shadows the
    special builtin, where the comment on [_SPECIAL_BUILTINS] says that
    these names cannot be redefined by functions. *)
Theorem C1_function_shadows_special_builtin
    (funcs : gmap string Func) (path_val : value) (name : string) :
  In name _SPECIAL_BUILTINS ->
  is_Some (funcs !! name) ->
  _ResolveNames IsOtherBuiltin IsKeyword path_exists [name] funcs path_val
  = [(Some "function", Some name)].
Proof.
  intros _ Hf. unfold _ResolveNames. cbn [map].
  by rewrite resolve_name_function.
Qed.

End DispatchFacts.

Lemma C1_function_shadows_special_builtin_witness :
  In "export" Dispatch._SPECIAL_BUILTINS /\
  is_Some ((<["export" := tt]> ∅ : gmap string unit) !! "export") /\
  Dispatch._ResolveNames (fun _ => false) (fun _ => false) (fun _ => false)
    ["export"] (<["export" := tt]> ∅ : gmap string unit) (Str "/bin")
  = [(Some "function", Some "export")].
Proof.
  assert (H1 : In "export" Dispatch._SPECIAL_BUILTINS).
  { simpl. tauto. }
  assert (H2 : is_Some ((<["export" := tt]> ∅ : gmap string unit) !! "export")).
  { rewrite lookup_insert_eq. by eexists. }
  split; [exact H1 | split; [exact H2 |]].
  exact (C1_function_shadows_special_builtin (fun _ => false)
           (fun _ => false) (fun _ => false) _ (Str "/bin") "export" H1 H2).
Defined.


(** ** Field assembly *)

Section FieldsFacts.
Import Fields.

Lemma string_app_cons (x : ascii) (a b : string) :
  String x a +:+ b = String x (a +:+ b).
Proof. reflexivity. Qed.

Lemma string_app_assoc (a b c : string) : (a +:+ b) +:+ c = a +:+ (b +:+ c).
Proof.
  induction a as [| x a IH]; [done |].
  by rewrite !string_app_cons, IH.
Qed.

Lemma string_app_empty_r (a : string) : a +:+ "" = a.
Proof.
  induction a as [| x a IH]; [done |].
  by rewrite string_app_cons, IH.
Qed.

(** [parts[-1] += x] on a non-empty list changes its last element only. *)
Lemma append_to_last_snoc (init : list string) (l x : string) :
  append_to_last (init ++ [l]) x = Ok (init ++ [l +:+ x]).
Proof.
  induction init as [| a init IH]; [done |].
  change ((a :: init) ++ [l]) with (a :: (init ++ [l])).
  destruct (init ++ [l]) as [| b t] eqn:E.
  { by destruct init. }
  change (append_to_last (a :: b :: t) x)
    with (let* r := append_to_last (b :: t) x in Ok (a :: r)).
  by rewrite IH.
Qed.

(** A non-empty list ends in some element. *)
Lemma nonempty_snoc {A} (l : list A) :
  l <> [] -> exists init x, l = init ++ [x].
Proof.
  destruct l as [| a l] using rev_ind; [done | eauto].
Qed.

Lemma geb_true_of_le (a b : Z) : b <= a -> (a >=? b) = true.
Proof. intros. destruct (Z.geb_spec a b); [done | lia]. Qed.

Lemma nonempty_of_length {A} (l : list A) :
  1 <= Z.of_nat (length l) -> l <> [].
Proof. intros H ->. simpl in H. lia. Qed.

Ltac solve_inv :=
  unfold inv; simpl; rewrite ?length_app; simpl;
  repeat split; intros;
  repeat match goal with
    | |- context [?a >=? ?b] => destruct (Z.geb_spec a b)
    | H : context [?a >=? ?b] |- _ => destruct (Z.geb_spec a b)
    end;
  first [ done | lia | auto; fail
        | apply nonempty_of_length; rewrite ?length_app; simpl; lia ].

Lemma step_inv s max st sp :
  1 <= max -> inv max st ->
  exists st', step s max st sp = Ok st' /\ inv max st' /\
              start_index st' = snd sp.
Proof.
  intros Hmax (Hle & Hfull & Hjn & Hblack).
  destruct st as [ps jn start black], sp as [ty e]; simpl in *.
  unfold step; simpl.
  destruct ty.
  - (* Black *)
    destruct jn; simpl.
    + destruct (nonempty_snoc ps (Hjn eq_refl)) as (init & l & ->).
      rewrite bool_decide_eq_false_2 by (by destruct init).
      simpl. rewrite append_to_last_snoc. simpl.
      eexists; split; [reflexivity |].
      rewrite !length_app in *; simpl in *.
      split; [solve_inv | done].
    + assert (Z.of_nat (length ps) < max).
      { destruct (Z.lt_ge_cases (Z.of_nat (length ps)) max); [done |].
        by specialize (Hfull ltac:(lia)). }
      eexists; split; [reflexivity |].
      split; [solve_inv | done].
  - (* Delim *)
    destruct jn; simpl.
    + destruct (nonempty_snoc ps (Hjn eq_refl)) as (init & l & ->).
      rewrite append_to_last_snoc. simpl.
      eexists; split; [reflexivity |].
      rewrite !length_app in *; simpl in *.
      split; [solve_inv | done].
    + eexists; split; [reflexivity |].
      split; [solve_inv | done].
  - (* Backslash *)
    destruct black; simpl.
    + eexists; split; [reflexivity |].
      split; [solve_inv | done].
    + eexists; split; [reflexivity |].
      split; [solve_inv | done].
Qed.

Lemma loop_inv s max spans st :
  1 <= max -> inv max st ->
  exists st', loop s max spans st = Ok st' /\ inv max st'.
Proof.
  intros Hmax. revert st.
  induction spans as [| sp spans IH]; intros st Hinv; simpl.
  - eauto.
  - destruct (step_inv s max st sp Hmax Hinv) as (st1 & -> & Hinv1 & _).
    simpl. by apply IH.
Qed.

Lemma loop_app s max pre post st :
  loop s max (pre ++ post) st =
  (let* st1 := loop s max pre st in loop s max post st1).
Proof.
  revert st. induction pre as [| sp pre IH]; intros st; simpl; [done |].
  destruct (step s max st sp); simpl; [apply IH | done].
Qed.

(** Once the list is full, every later Black or Delim span is joined onto
    the last field, and no field is added. *)
Lemma loop_saturated s max post : forall init l start black,
  Z.of_nat (length (init ++ [l])) = max ->
  exists start' black',
    loop s max post (LoopState (init ++ [l]) true start black)
    = Ok (LoopState (init ++ [l +:+ joined_content s start post]) true
                    start' black').
Proof.
  induction post as [| [ty e] post IH]; intros init l start black Hlen.
  - simpl. rewrite string_app_empty_r. eauto.
  - assert (Hlen' : forall x, Z.of_nat (length (init ++ [x])) = max).
    { intros x. rewrite length_app in *. exact Hlen. }
    cbn [loop]. unfold step. cbn [parts join_next start_index
      last_span_was_black andb].
    destruct ty.
    + rewrite bool_decide_eq_false_2 by (by destruct init).
      cbn [negb]. rewrite append_to_last_snoc. cbn [bind].
      rewrite geb_true_of_le by (rewrite Hlen'; lia).
      destruct (IH init (l +:+ slice s start e) e true (Hlen' _))
        as (start' & black' & ->).
      cbn [joined_content]. rewrite string_app_assoc. eauto.
    + rewrite append_to_last_snoc. cbn [bind].
      rewrite geb_true_of_le by (rewrite Hlen'; lia).
      destruct (IH init (l +:+ slice s start e) e false (Hlen' _))
        as (start' & black' & ->).
      cbn [joined_content]. rewrite string_app_assoc. eauto.
    + assert (Hstep :
        (let* (ps, jn, black0) :=
           (if black then Ok (init ++ [l], true, false)
            else Ok (init ++ [l], true, false)) in
         Ok (LoopState ps
               (if Z.of_nat (length ps) >=? max then true else jn)
               e black0))
        = Ok (LoopState (init ++ [l]) true e false)).
      { destruct black; cbn [bind];
          by rewrite geb_true_of_le by (rewrite Hlen; lia). }
      rewrite Hstep. cbn [bind].
      destruct (IH init l e false Hlen) as (start' & black' & ->).
      cbn [joined_content]. eauto.
Qed.

(** C8: for [max_results >= 1], from a list of fields that respects the
    loop invariant (at most [max_results] fields, full only with
    [join_next] set, [join_next] set only with a field to join onto; the
    empty list with [join_next] false is such a state), [_AppendParts]
    returns at most [max_results] fields; and from the point where the list
    holds [max_results] fields, the content of every later Black and Delim
    span is appended to the last field, no field being added. *)
Theorem C8_overflow_joins_last_field
    (s : string) (spans : list span) (max : Z) (jn0 : bool)
    (parts0 : list string) :
  1 <= max ->
  Z.of_nat (length parts0) <= max ->
  (max <= Z.of_nat (length parts0) -> jn0 = true) ->
  (jn0 = true -> parts0 <> []) ->
  exists ps done jn,
    _AppendParts s spans max jn0 parts0 = Ok (ps, done, jn) /\
    Z.of_nat (length ps) <= max /\
    forall pre post st,
      spans = pre ++ post ->
      loop s max pre (LoopState parts0 jn0 0 false) = Ok st ->
      Z.of_nat (length (parts st)) = max ->
      exists init l,
        parts st = init ++ [l] /\
        ps = init ++ [l +:+ joined_content s (start_index st) post].
Proof.
  intros Hmax Hle Hfull Hjn.
  assert (Hinv : inv max (LoopState parts0 jn0 0 false)).
  { unfold inv; simpl. repeat split; [done | done | done | done]. }
  destruct (loop_inv s max spans _ Hmax Hinv) as (stf & Hloop & Hinvf).
  exists (parts stf), (is_done spans), (join_next stf).
  split; [unfold _AppendParts; by rewrite Hloop |].
  split; [apply Hinvf |].
  intros pre post st -> Hpre Hlen.
  destruct (loop_inv s max pre _ Hmax Hinv) as (st1 & Hpre1 & Hinv1).
  rewrite Hpre in Hpre1. injection Hpre1 as <-.
  destruct Hinv1 as (_ & Hfull1 & Hjn1 & _).
  specialize (Hfull1 ltac:(lia)).
  destruct (nonempty_snoc _ (Hjn1 Hfull1)) as (init & l & Hparts).
  exists init, l. split; [done |].
  rewrite loop_app, Hpre in Hloop. cbn [bind] in Hloop.
  destruct st as [ps1 jn1 start1 black1]; simpl in *. subst ps1 jn1.
  destruct (loop_saturated s max post init l start1 black1 Hlen)
    as (start' & black' & Hsat).
  rewrite Hsat in Hloop. by injection Hloop as <-.
Qed.

(** Before the first Black span nothing is assembled; from it on, with
    room for one field, everything but the Backslash spans is joined. *)
Lemma loop_single_field s spans : forall start,
  exists st,
    loop s 1 spans (LoopState [] false start false) = Ok st /\
    parts st = match content_from_first_black s start spans with
               | Some f => [f]
               | None => []
               end.
Proof.
  induction spans as [| [ty e] spans IH]; intros start.
  - eexists; split; [reflexivity | done].
  - destruct ty.
    + destruct (loop_saturated s 1 spans [] (slice s start e) e true eq_refl)
        as (start' & black' & Hsat).
      eexists. cbn [loop]. unfold step; simpl. split; [exact Hsat | done].
    + destruct (IH e) as (st & Hst & Hparts).
      exists st. cbn [loop]. unfold step; simpl. by split.
    + destruct (IH e) as (st & Hst & Hparts).
      exists st. cbn [loop]. unfold step; simpl. by split.
Qed.

(** C3: when the final span is not a Backslash, assembling with
    [max_results = 1], [join_next] false and no earlier field is complete
    ([done] is true) and returns no field when there is no Black span, and
    otherwise exactly one field: the content of the first Black span and of
    every Black and Delim span after it, in order. *)
Theorem C3_single_field_keeps_delimiters (s : string) (spans : list span) :
  (forall e, last spans <> Some (Backslash, e)) ->
  exists jn,
    _AppendParts s spans 1 false []
    = Ok (match content_from_first_black s 0 spans with
          | Some f => [f]
          | None => []
          end, true, jn).
Proof.
  intros Hlast.
  destruct (loop_single_field s spans 0) as (st & Hloop & Hparts).
  exists (join_next st). unfold _AppendParts. rewrite Hloop. cbn [bind].
  rewrite Hparts. do 3 f_equal.
  unfold is_done. destruct (last spans) as [[[] e] |]; try done.
  by destruct (Hlast e).
Qed.

End FieldsFacts.

Lemma C3_single_field_keeps_delimiters_witness :
  (forall e, last [(Fields.Black, 1); (Fields.Delim, 2); (Fields.Black, 3)]
             <> Some (Fields.Backslash, e)) /\
  exists jn,
    Fields._AppendParts "a b"
      [(Fields.Black, 1); (Fields.Delim, 2); (Fields.Black, 3)] 1 false []
    = Ok (["a b"], true, jn).
Proof.
  assert (H : forall e,
    last [(Fields.Black, 1); (Fields.Delim, 2); (Fields.Black, 3)]
    <> Some (Fields.Backslash, e)).
  { intros e. simpl. discriminate. }
  split; [exact H |].
  exact (C3_single_field_keeps_delimiters "a b" _ H).
Defined.

(** C3, the Black content alone is not what is returned: on the line
    [a b], split into Black, Delim, Black, the single field is [a b], not
    [ab]. *)
Lemma C3_counterexample :
  ~ (forall (s : string) (spans : list Fields.span),
       (forall e, last spans <> Some (Fields.Backslash, e)) ->
       exists done jn,
         Fields._AppendParts s spans 1 false []
         = Ok ([Fields.black_content s 0 spans], done, jn)).
Proof.
  intros H.
  destruct (H "a b" [(Fields.Black, 1); (Fields.Delim, 2); (Fields.Black, 3)])
    as (done & jn & Heq).
  - intros e. simpl. discriminate.
  - vm_compute in Heq. discriminate.
Qed.

(** A line of separators alone gives no field at all. *)
Example AppendParts_no_black_span :
  Fields._AppendParts "  " [(Fields.Delim, 2)] 1 false []
  = Ok ([], true, false).
Proof. reflexivity. Qed.

Lemma C8_overflow_joins_last_field_witness :
  1 <= 2 /\
  exists ps done jn,
    Fields._AppendParts "a b c"
      [(Fields.Black, 1); (Fields.Delim, 2); (Fields.Black, 3);
       (Fields.Delim, 4); (Fields.Black, 5)] 2 false []
    = Ok (ps, done, jn) /\
    Z.of_nat (length ps) <= 2 /\
    forall pre post st,
      [(Fields.Black, 1); (Fields.Delim, 2); (Fields.Black, 3);
       (Fields.Delim, 4); (Fields.Black, 5)] = pre ++ post ->
      Fields.loop "a b c" 2 pre (Fields.LoopState [] false 0 false) = Ok st ->
      Z.of_nat (length (Fields.parts st)) = 2 ->
      exists init l,
        Fields.parts st = init ++ [l] /\
        ps = init ++ [l +:+ Fields.joined_content "a b c"
                              (Fields.start_index st) post].
Proof.
  split; [lia |].
  apply C8_overflow_joins_last_field; simpl; [lia | lia | lia | discriminate].
Defined.


(** ** [read] at end of input *)

Section ReadFacts.
Import Fields.
Context {Mem : Type}.
Variable SetLocalString : Mem -> string -> string -> result Mem.
Variable SplitForRead : string -> bool -> list span.
Variable READ_SPEC_Parse : list string -> result (read_arg * nat).
Variable os_read : Z -> list string -> string * list string.

Lemma endswith_char_nonempty c line :
  endswith_char c line = true -> String.eqb line "" = false.
Proof. by destruct line. Qed.

(** Between two lines the invariant of the loop of [_AppendParts] is
    kept, and the call returns. *)
Lemma AppendParts_inv s spans max jn ps :
  1 <= max -> inv max (LoopState ps jn 0 false) ->
  exists ps' jn',
    _AppendParts s spans max jn ps = Ok (ps', is_done spans, jn') /\
    inv max (LoopState ps' jn' 0 false).
Proof.
  intros Hmax Hinv.
  destruct (loop_inv s max spans _ Hmax Hinv)
    as (st & Hloop & H1 & H2 & H3 & _).
  exists (parts st), (join_next st).
  unfold _AppendParts. rewrite Hloop. split; [done |].
  unfold inv; simpl. by repeat split.
Qed.

Lemma continued_inv raw max pre : forall ps jn ps1 jn1,
  1 <= max -> inv max (LoopState ps jn 0 false) ->
  continued SplitForRead raw max pre ps jn = Some (ps1, jn1) ->
  inv max (LoopState ps1 jn1 0 false).
Proof.
  induction pre as [| line pre IH]; intros ps jn ps1 jn1 Hmax Hinv Hc.
  - simpl in Hc. by injection Hc as <- <-.
  - cbn [continued] in Hc.
    destruct (endswith_char "010" line); [| done].
    destruct (AppendParts_inv (drop_last line)
                (SplitForRead (drop_last line) (negb raw)) max jn ps
                Hmax Hinv) as (ps' & jn' & Heq & Hinv').
    rewrite Heq in Hc.
    destruct (is_done _); [done |]. by eapply IH.
Qed.

(** The loop of [Read] passes over continued lines. *)
Lemma read_lines_continued raw max pre : forall rest ps jn ps1 jn1,
  continued SplitForRead raw max pre ps jn = Some (ps1, jn1) ->
  read_lines SplitForRead raw max (pre ++ rest) ps jn
  = read_lines SplitForRead raw max rest ps1 jn1.
Proof.
  induction pre as [| line pre IH]; intros rest ps jn ps1 jn1 Hc.
  - simpl in Hc. by injection Hc as <- <-.
  - cbn [continued] in Hc. cbn [app read_lines].
    destruct (endswith_char "010" line) eqn:Hnl; [| done].
    rewrite (endswith_char_nonempty _ _ Hnl).
    destruct (_AppendParts _ _ _ _ _) as [[[ps' dn] jn'] |]; [| done].
    cbn [bind]. destruct dn; [done |]. by apply IH.
Qed.

(** C10: let [read] be called without [-n], let the lines before the last
    one all be continued, and let the last line be non-empty and not end in
    a newline.  Then the last line is split and assembled like any other,
    the names are assigned the fields (the empty string beyond the field
    count), and the status is 1. *)
Theorem C10_read_unterminated_last_line
    (argv : list string) (arg : read_arg) (i : nat) (mem : Mem)
    (pre : list string) (line : string) (ps : list string) (jn : bool) :
  let names :=
    if bool_decide (skipn i argv = []) then ["REPLY"] else skipn i argv in
  let max_results := Z.of_nat (length names) in
  READ_SPEC_Parse argv = Ok (arg, i) ->
  arg_n arg = None ->
  continued SplitForRead (arg_r arg) max_results pre [] false
  = Some (ps, jn) ->
  line <> "" ->
  endswith_char "010" line = false ->
  exists ps' done jn',
    _AppendParts line (SplitForRead line (negb (arg_r arg)))
                 max_results jn ps = Ok (ps', done, jn') /\
    Read SetLocalString SplitForRead READ_SPEC_Parse os_read
         argv (pre ++ [line]) mem
    = (let* mem' := assign_names SetLocalString names 0 ps' mem in
       Ok (1, mem', [])).
Proof.
  intros names max_results Hparse Hn Hpre Hne Hnl.
  assert (Hmax : 1 <= max_results).
  { subst max_results names. case_bool_decide as Hnames; simpl; [lia |].
    destruct (skipn i argv); [done | simpl; lia]. }
  assert (Hinv0 : inv max_results (LoopState [] false 0 false)).
  { unfold inv; simpl. repeat split; [lia | lia | done | done]. }
  pose proof (continued_inv _ _ _ _ _ _ _ Hmax Hinv0 Hpre) as Hinv.
  destruct (AppendParts_inv line (SplitForRead line (negb (arg_r arg)))
              max_results jn ps Hmax Hinv) as (ps' & jn' & Heq & _).
  exists ps', (is_done (SplitForRead line (negb (arg_r arg)))), jn'.
  split; [exact Heq |].
  unfold Read. rewrite Hparse. cbn [bind]. rewrite Hn.
  fold names. fold max_results.
  rewrite (read_lines_continued _ _ _ _ _ _ _ _ Hpre).
  cbn [read_lines].
  rewrite (proj2 (String.eqb_neq line "") Hne), Hnl, Heq. cbn [bind].
  by destruct (is_done _).
Qed.

End ReadFacts.


(** ** [getopts] *)

Section GetOptsFacts.
Import GetOpts.
Context {Mem : Type}.
Variable GetArgNum : Mem -> Z -> value.
Variable GetVar : Mem -> string -> value.
Variable SetGlobalString : Mem -> string -> string -> result Mem.
Variable int_of_str : string -> option Z.

Lemma last_char_None (s : string) : last_char s = None -> s = "".
Proof.
  induction s as [| c s IH]; [done |].
  simpl. destruct s; [done |]. intros H. by specialize (IH H).
Qed.

(** [GetOpts] once the arguments are there and [OPTIND] holds an
    integer. *)
Lemma GetOpts_unfold spec_str var_name rest mem cache s optind :
  GetVar mem "OPTIND" = Str s ->
  int_of_str s = Some optind ->
  GetOpts GetArgNum GetVar SetGlobalString int_of_str
          (spec_str :: var_name :: rest) mem cache
  = (let* (status, opt_char, optarg, optind', errs) :=
       _GetOpts GetArgNum (cached_spec cache spec_str) mem optind in
     let* mem' :=
       set_results SetGlobalString mem var_name opt_char optarg optind' in
     Ok (status, mem',
         cache_after cache spec_str (cached_spec cache spec_str), errs)).
Proof. intros Hv Hi. unfold GetOpts. by rewrite Hv, Hi. Qed.

(** The three assignments that end [GetOpts], one after the other. *)
Lemma set_results_bind {A : Type} (mem : Mem)
    (var_name opt_char optarg : string) (optind : Z) (k : Mem -> result A) :
  (let* mem' :=
     set_results SetGlobalString mem var_name opt_char optarg optind in
   k mem')
  = (let* mem1 := SetGlobalString mem var_name opt_char in
     let* mem2 := SetGlobalString mem1 "OPTARG" optarg in
     let* mem3 := SetGlobalString mem2 "OPTIND" (str_of_int optind) in
     k mem3).
Proof.
  unfold set_results.
  destruct (SetGlobalString mem var_name opt_char) as [mem1 |]; [| done].
  cbn [bind].
  destruct (SetGlobalString mem1 "OPTARG" optarg) as [mem2 |]; [| done].
  reflexivity.
Qed.

(** C4: in a [getopts] call with its two arguments and an integer
    [OPTIND], (1) when the current positional argument is absent or does not
    start with [-], the status is 1, the option variable is set to [?] and
    [OPTIND] keeps its value; (2) when it starts with [-] and is not in the
    spec, the status is 0, the option variable is [?] and [OPTIND] is one
    more; (3) when it is an option that takes an argument and no argument
    is left, an error is reported, the status is 0 and the option variable
    is [?]. *)
Theorem C4_getopts_one_step
    (spec_str var_name : string) (rest : list string) (mem : Mem)
    (cache : gmap string (gmap string bool)) (s : string) (optind : Z) :
  GetVar mem "OPTIND" = Str s ->
  int_of_str s = Some optind ->
  let spec := cached_spec cache spec_str in
  let run :=
    GetOpts GetArgNum GetVar SetGlobalString int_of_str
            (spec_str :: var_name :: rest) mem cache in
  let finish status optind' errs :=
    let* mem1 := SetGlobalString mem var_name "?" in
    let* mem2 := SetGlobalString mem1 "OPTARG" "" in
    let* mem3 := SetGlobalString mem2 "OPTIND" (str_of_int optind') in
    Ok (status, mem3, cache_after cache spec_str spec, errs) in
  (GetArgNum mem optind = Undef \/
   (exists current, GetArgNum mem optind = Str current /\
                    startswith_char "-" current = false) ->
   run = finish 1 optind []) /\
  (forall current,
     GetArgNum mem optind = Str current ->
     startswith_char "-" current = true ->
     spec !! current = None ->
     run = finish 0 (optind + 1) []) /\
  (forall current,
     GetArgNum mem optind = Str current ->
     startswith_char "-" current = true ->
     spec !! current = Some true ->
     GetArgNum mem (optind + 1) = Undef ->
     run = finish 0 (optind + 1)
             [Error "getopts: option %r requires an argument" [current]]).
Proof.
  intros Hv Hi spec run finish. subst run finish.
  rewrite (GetOpts_unfold _ _ _ _ _ _ _ Hv Hi). fold spec.
  unfold _GetOpts.
  split; [| split].
  - intros [-> | (current & -> & ->)]; apply set_results_bind.
  - intros current -> -> ->. apply set_results_bind.
  - intros current -> Hdash -> Hnext. rewrite Hdash. cbn [negb].
    destruct (last_char current) as [c |] eqn:Hc.
    + rewrite Hnext. apply set_results_bind.
    + apply last_char_None in Hc. by subst current.
Qed.

(** C9: in a [getopts] call with its two arguments, an [OPTIND] that is
    not a string, or a string that is not an integer, ends the call with the
    fatal error of [e_die], not with an exit status. *)
Theorem C9_optind_invariant_is_fatal
    (spec_str var_name : string) (rest : list string) (mem : Mem)
    (cache : gmap string (gmap string bool)) :
  (forall s, GetVar mem "OPTIND" = Str s -> int_of_str s = None) ->
  exists msg,
    GetOpts GetArgNum GetVar SetGlobalString int_of_str
            (spec_str :: var_name :: rest) mem cache
    = Raise (FatalRuntimeError msg).
Proof.
  intros H. unfold GetOpts.
  destruct (GetVar mem "OPTIND") as [| s |] eqn:Hv; [by eexists | | by eexists].
  rewrite (H s eq_refl). by eexists.
Qed.

End GetOptsFacts.


(** ** [wait] with explicit ids *)

Section WaitFacts.
Import Wait.
Context {World Job : Type}.
Variable getopt_n : list string -> option (list (string * string) * list string).
Variable int_of_str : string -> option Z.
Variable waiter_Wait : World -> bool * World.
Variable last_status : World -> Z.
Variable AllDone : World -> bool.
Variable jobs : World -> gmap Z Job.
Variable WaitUntilDone : Job -> World -> wait_status * World.
Variable SetGlobalArray : World -> string -> list string -> result World.

(** With ids listed and no option, [Wait] is the loop over the ids. *)
Lemma Wait_ids fuel argv args w :
  getopt_n argv = Some ([], args) ->
  args <> [] ->
  Wait getopt_n int_of_str waiter_Wait last_status AllDone jobs
       WaitUntilDone SetGlobalArray fuel argv w
  = Some (wait_ids int_of_str jobs WaitUntilDone SetGlobalArray args 1 w).
Proof.
  intros Hg Hargs. unfold Wait. rewrite Hg. simpl. by destruct args.
Qed.

(** Ids waited for without any report are passed over: the loop goes on
    from the status and the world they leave. *)
Lemma wait_ids_app pre : forall rest status w st1 w1,
  wait_ids int_of_str jobs WaitUntilDone SetGlobalArray pre status w
  = Ok (st1, w1, []) ->
  wait_ids int_of_str jobs WaitUntilDone SetGlobalArray (pre ++ rest) status w
  = wait_ids int_of_str jobs WaitUntilDone SetGlobalArray rest st1 w1.
Proof.
  induction pre as [| a pre IH]; intros rest status w st1 w1 Hpre.
  - simpl in Hpre. by injection Hpre as <- <-.
  - cbn [app wait_ids] in *.
    destruct (int_of_str a) as [jid |]; [| done].
    destruct (jobs w !! jid) as [job |]; [| done].
    destruct (WaitUntilDone job w) as [[s | l] w2].
    + by apply IH.
    + destruct (last l) as [s |]; [| done].
      destruct (SetGlobalArray w2 "PIPESTATUS" (map str_of_int l))
        as [w3 |]; [| done].
      cbn [bind] in *. by apply IH.
Qed.

(** C5: let [wait] be called with ids and no option, and let the ids
    before [a] have been waited for without any report, leaving the world
    [w1].  (1) If [a] is not a number, or names no tracked job, an error is
    reported and the status is 127, the ids after [a] being left alone.
    (2) If [a] names a job, the loop goes on with the status its wait
    returns: the status of a single process, or the last member status of a
    pipeline, whose member statuses are stored in [PIPESTATUS].  (3) So
    when [a] is the last id, that status is the result, whatever the
    earlier ids returned. *)
Theorem C5_wait_explicit_ids
    (fuel : nat) (argv pre post : list string) (a : string)
    (w w1 : World) (st1 : Z) :
  getopt_n argv = Some ([], pre ++ a :: post) ->
  wait_ids int_of_str jobs WaitUntilDone SetGlobalArray pre 1 w
  = Ok (st1, w1, []) ->
  let run :=
    Wait getopt_n int_of_str waiter_Wait last_status AllDone jobs
         WaitUntilDone SetGlobalArray fuel argv w in
  (int_of_str a = None ->
   run = Some (Ok (127, w1, [Error "Invalid argument %r" [a]]))) /\
  (forall jid,
     int_of_str a = Some jid -> jobs w1 !! jid = None ->
     run = Some (Ok (127, w1, [Error "No such job: %s" [str_of_int jid]]))) /\
  (forall jid job,
     int_of_str a = Some jid -> jobs w1 !! jid = Some job ->
     (forall s w2,
        WaitUntilDone job w1 = (Single s, w2) ->
        run = Some (wait_ids int_of_str jobs WaitUntilDone SetGlobalArray
                             post s w2) /\
        (post = [] -> run = Some (Ok (s, w2, [])))) /\
     (forall l s w2 w3,
        WaitUntilDone job w1 = (Pipeline l, w2) ->
        last l = Some s ->
        SetGlobalArray w2 "PIPESTATUS" (map str_of_int l) = Ok w3 ->
        run = Some (wait_ids int_of_str jobs WaitUntilDone SetGlobalArray
                             post s w3) /\
        (post = [] -> run = Some (Ok (s, w3, []))))).
Proof.
  intros Hg Hpre run. subst run.
  rewrite (Wait_ids _ _ _ _ Hg) by (by destruct pre).
  rewrite (wait_ids_app _ _ _ _ _ _ Hpre). cbn [wait_ids].
  split; [| split].
  - by intros ->.
  - by intros jid -> ->.
  - intros jid job -> ->. split.
    + intros s w2 ->. split; [done | by intros ->].
    + intros l s w2 w3 -> -> ->. split; [done | by intros ->].
Qed.

End WaitFacts.


(** ** [echo -e] *)

Section EchoFacts.
Import Echo.

(** The separator is written before every argument but the first. *)
Lemma write_args_spec (a : text) (rest : list text) :
  write_args true (a :: rest)
  = Write a :: flat_map (fun x => [Write (text_of_string " "); Write x]) rest.
Proof.
  cbn [write_args app]. f_equal.
  induction rest as [| b rest IH]; [done |].
  cbn [write_args flat_map app]. by rewrite IH.
Qed.

(** Arguments decoded without a stop are collected in order. *)
Lemma decode_args_app (pre : list string) : forall texts rest new_argv,
  Forall2 (fun p t => decode_arg p = Ok (t, false)) pre texts ->
  decode_args (pre ++ rest) new_argv = decode_args rest (new_argv ++ texts).
Proof.
  induction pre as [| p pre IH]; intros texts rest new_argv H.
  - apply Forall2_nil_inv_l in H as ->. by rewrite app_nil_r.
  - apply Forall2_cons_inv_l in H as (t & texts' & Hp & Hpre & ->).
    cbn [app decode_args]. rewrite Hp. cbn [bind].
    rewrite (IH texts' rest _ Hpre). by rewrite <- app_assoc.
Qed.

(** Characters still to be passed over are passed over. *)
Lemma eval_tokens_skip (x y : string) (acc : text) :
  eval_tokens (x +:+ y) (String.length x) acc = eval_tokens y 0 acc.
Proof.
  induction x as [| c x IH]; [done |].
  rewrite string_app_cons. cbn [String.length eval_tokens]. exact IH.
Qed.

Lemma count_while_prefix p (lit : string) c tail : forall m,
  all_chars p lit = true -> p c = false ->
  (String.length lit <= m)%nat ->
  count_while p m (lit +:+ String c tail) = String.length lit.
Proof.
  induction lit as [| d lit IH]; intros m Hall Hc Hm.
  - change ("" +:+ String c tail) with (String c tail).
    destruct m; [done |]. cbn [count_while]. by rewrite Hc.
  - cbn [all_chars] in Hall. apply andb_prop in Hall as [Hd Hall].
    rewrite string_app_cons. cbn [String.length] in *.
    destruct m as [| m]; [lia |].
    cbn [count_while]. rewrite Hd. f_equal. apply IH; [done | done | lia].
Qed.

Lemma length_string_app (a b : string) :
  String.length (a +:+ b) = (String.length a + String.length b)%nat.
Proof.
  induction a as [| c a IH]; [done |].
  rewrite string_app_cons. cbn [String.length]. by rewrite IH.
Qed.

Lemma substring_prefix (lit tail : string) :
  String.substring 0 (String.length lit) (lit +:+ tail) = lit.
Proof.
  induction lit as [| c lit IH]; [by destruct tail |].
  rewrite string_app_cons. cbn [String.length String.substring].
  by rewrite IH.
Qed.

Lemma text_of_string_cons c s :
  text_of_string (String c s) = Byte c :: text_of_string s.
Proof. reflexivity. Qed.

(** [\c] at the head of the input stops the loop. *)
Lemma eval_tokens_stop (rest : string) (acc : text) :
  eval_tokens (String "\" (String "c" rest)) 0 acc = Ok (acc, true).
Proof. reflexivity. Qed.

(** A run of characters other than the backslash, followed by a backslash,
    is one [Char_Literals] token. *)
Lemma FindLongestMatch_literal (c : ascii) (lit tail : string) :
  not_backslash c = true ->
  all_chars not_backslash lit = true ->
  FindLongestMatch ECHO_LEXER (String c lit +:+ String "\" tail)
  = Ok (Char_Literals, S (String.length lit)).
Proof.
  intros Hc Hlit.
  assert (Hcount :
    count_while not_backslash
      (String.length (String c lit +:+ String "\" tail))
      (String c lit +:+ String "\" tail) = S (String.length lit)).
  { apply (count_while_prefix not_backslash (String c lit) "\" tail).
    - cbn [all_chars]. by rewrite Hc, Hlit.
    - done.
    - rewrite length_string_app. lia. }
  unfold FindLongestMatch, ECHO_LEXER. cbn [all_matches].
  unfold plus. rewrite Hcount.
  rewrite string_app_cons. unfold backslash_then.
  unfold not_backslash in Hc. apply negb_true_iff in Hc. rewrite Hc.
  reflexivity.
Qed.

(** The text before a [\c] that has no backslash in it is what the loop
    has decoded when it stops. *)
Lemma eval_tokens_literal_then_stop (lit rest : string) (acc : text) :
  all_chars not_backslash lit = true ->
  eval_tokens (lit +:+ String "\" (String "c" rest)) 0 acc
  = Ok (acc ++ text_of_string lit, true).
Proof.
  intros Hlit. destruct lit as [| c lit].
  - change ("" +:+ String "\" (String "c" rest))
      with (String "\" (String "c" rest)).
    rewrite eval_tokens_stop.
    unfold text_of_string; simpl. by rewrite app_nil_r.
  - cbn [all_chars] in Hlit. apply andb_prop in Hlit as [Hc Hlit].
    pose proof (FindLongestMatch_literal c lit (String "c" rest) Hc Hlit)
      as Hfind.
    pose proof (substring_prefix (String c lit) (String "\" (String "c" rest)))
      as Hsub.
    rewrite string_app_cons in *. cbn [String.length] in Hsub.
    cbn [eval_tokens]. rewrite Hfind. cbn [bind].
    rewrite Hsub. cbn [_EvalStringPart bind Nat.pred].
    rewrite eval_tokens_skip. apply eval_tokens_stop.
Qed.

(** An octal escape decodes to the byte of its value modulo 256. *)
Lemma EvalStringPart_octal (value : string) (i : Z) :
  int_base (drop2 value) 8 = Ok i -> 0 <= i ->
  exists b, _EvalStringPart Char_Octal value = Ok (Some [Byte b]) /\
            code b = i mod 256.
Proof.
  intros Hi Hpos. unfold _EvalStringPart. rewrite Hi. cbn [bind].
  assert (Hr : 0 <= i mod 256 < 256) by (apply Z.mod_pos_bound; lia).
  assert (Hv : (if i >=? 256 then i mod 256 else i) = i mod 256).
  { destruct (Z.geb_spec i 256); [done |]. by rewrite Z.mod_small by lia. }
  rewrite Hv. unfold chr.
  destruct (Z.leb_spec 0 (i mod 256)); [| lia].
  destruct (Z.ltb_spec (i mod 256) 256); [| lia].
  cbn [andb bind]. eexists; split; [reflexivity |].
  unfold code. rewrite N_ascii_embedding by lia. lia.
Qed.

(** A hexadecimal escape decodes to the byte of its value. *)
Lemma EvalStringPart_hex (value : string) (i : Z) :
  int_base (drop2 value) 16 = Ok i -> 0 <= i < 256 ->
  exists b, _EvalStringPart Char_Hex value = Ok (Some [Byte b]) /\
            code b = i.
Proof.
  intros Hi Hr. unfold _EvalStringPart. rewrite Hi. cbn [bind].
  unfold chr.
  destruct (Z.leb_spec 0 i); [| lia].
  destruct (Z.ltb_spec i 256); [| lia].
  cbn [andb bind]. eexists; split; [reflexivity |].
  unfold code. rewrite N_ascii_embedding by lia. lia.
Qed.

(** Literal text, an unmatched escape and a final backslash are passed
    through. *)
Lemma EvalStringPart_literals (value : string) :
  _EvalStringPart Char_Literals value = Ok (Some (text_of_string value)).
Proof. reflexivity. Qed.

Lemma eval_tokens_passthrough :
  eval_tokens (String "\" "q") 0 [] = Ok (text_of_string (String "\" "q"), false)
  /\ eval_tokens (String "a" (String "\" "")) 0 []
     = Ok (text_of_string (String "a" (String "\" "")), false).
Proof. split; reflexivity. Qed.

Variable ParseLikeEcho : list string -> (bool * bool) * nat.


End EchoFacts.


(** Joining a byte above 0x7F with a part made by [unichr] ends [Echo] in
    [UnicodeDecodeError]. *)
Example Echo_join_mixed_parts :
  Echo.Echo Samples.ParseLikeEcho
    ["-e"; String "\" "xff" +:+ String "\" "u0041" +:+ String "\" "c"]
  = Raise UnicodeDecodeError.
Proof. vm_compute. reflexivity. Qed.

(** C6: the patterns of [Char_Unicode4] and [Char_Unicode8]
    take decimal digits only, while [_EvalStringPart] reads the digits in
    base 16.  So backslash-u00e9 is not decoded to the code point U+00E9: the
    token ends at the first letter and yields code point 0, and [e9] is
    left as two literal characters.  Escapes made of decimal digits only
    are decoded as hexadecimal, as the table says. *)
Theorem C6_unicode_escape_stops_at_hex_letter :
  Echo.eval_tokens (String "\" "u00e9") 0 []
  = Ok ([Echo.Uni 0; Echo.Byte "e"; Echo.Byte "9"], false) /\
  Echo.eval_tokens (String "\" "U000000e9") 0 []
  = Ok ([Echo.Uni 0; Echo.Byte "e"; Echo.Byte "9"], false) /\
  Echo.eval_tokens (String "\" "u0041") 0 [] = Ok ([Echo.Uni 65], false).
Proof. repeat split; vm_compute; reflexivity. Qed.


(** ** Precedence in the boolean parser *)

Section ParserFacts.
Import BoolParse.
Context {word WP : Type}.
Variable ReadWord : WP -> lex_mode_e -> result (word * WP).
Variable BoolId : word -> Id.
Variable LookupKind : Id -> Kind.
Variable StaticEval : word -> bool * string * bool.
Variable regex_parse : string -> bool.

(** The equations of the three upper levels of the descent. *)
Lemma ParseExpr_eq fuel st :
  ParseExpr ReadWord BoolId LookupKind StaticEval regex_parse (S fuel) st
  = pbind (ParseTerm ReadWord BoolId LookupKind StaticEval regex_parse
                     fuel st)
      (fun left st =>
         if bool_decide (op_id st = Op_DPipe)
            || bool_decide (op_id st = BoolUnary_o)
         then
           pbind (_Next ReadWord BoolId LookupKind fuel DBRACKET st)
             (fun _ st =>
           pbind (ParseExpr ReadWord BoolId LookupKind StaticEval
                            regex_parse fuel st)
             (fun right st => Done (LogicalOr left right) st))
         else Done left st).
Proof. reflexivity. Qed.

Lemma ParseTerm_eq fuel st :
  ParseTerm ReadWord BoolId LookupKind StaticEval regex_parse (S fuel) st
  = pbind (ParseNegatedFactor ReadWord BoolId LookupKind StaticEval
                              regex_parse fuel st)
      (fun left st =>
         if bool_decide (op_id st = Op_DAmp)
            || bool_decide (op_id st = BoolUnary_a)
         then
           pbind (_Next ReadWord BoolId LookupKind fuel DBRACKET st)
             (fun _ st =>
           pbind (ParseTerm ReadWord BoolId LookupKind StaticEval
                            regex_parse fuel st)
             (fun right st => Done (LogicalAnd left right) st))
         else Done left st).
Proof. reflexivity. Qed.

Lemma ParseNegatedFactor_eq fuel st :
  ParseNegatedFactor ReadWord BoolId LookupKind StaticEval regex_parse
                     (S fuel) st
  = if bool_decide (op_id st = KW_Bang)
    then
      pbind (_Next ReadWord BoolId LookupKind fuel DBRACKET st)
        (fun _ st =>
      pbind (ParseFactor ReadWord BoolId LookupKind StaticEval regex_parse
                         fuel st)
        (fun child st => Done (LogicalNot child) st))
    else ParseFactor ReadWord BoolId LookupKind StaticEval regex_parse
                     fuel st.
Proof. reflexivity. Qed.

(** [_Next] reads a word when none is pending. *)
Lemma Next_read fuel wp ws cur op k w wp' :
  (ws = [] \/ exists w0, ws = [w0]) ->
  ReadWord wp DBRACKET = Ok (w, wp') ->
  BoolId w <> Op_Newline ->
  _Next ReadWord BoolId LookupKind (S fuel) DBRACKET (PState wp ws cur op k)
  = Done tt (at_word BoolId LookupKind wp' w).
Proof.
  intros Hws Hread Hnl. cbn [_Next]. unfold _NextOne, read_word; simpl.
  destruct Hws as [-> | [w0 ->]]; rewrite Hread; simpl;
    by rewrite bool_decide_eq_true_2.
Qed.

Lemma Next_read_at_word fuel wp w0 w wp' :
  ReadWord wp DBRACKET = Ok (w, wp') ->
  BoolId w <> Op_Newline ->
  _Next ReadWord BoolId LookupKind (S fuel) DBRACKET
        (at_word BoolId LookupKind wp w0)
  = Done tt (at_word BoolId LookupKind wp' w).
Proof. intros. apply Next_read; eauto. Qed.

(** [_Next] moves to the word read ahead. *)
Lemma Next_shift fuel wp w0 w1 cur op k :
  BoolId w1 <> Op_Newline ->
  _Next ReadWord BoolId LookupKind (S fuel) DBRACKET
        (PState wp [w0; w1] cur op k)
  = Done tt (at_word BoolId LookupKind wp w1).
Proof.
  intros Hnl. cbn [_Next]. unfold _NextOne; simpl.
  by rewrite bool_decide_eq_true_2.
Qed.

(** A token of [is_op] is not a newline when its ids are not. *)
Lemma is_op_not_binary ids w :
  is_op BoolId LookupKind ids w ->
  bool_decide (LookupKind (BoolId w) = Kind_BoolBinary)
  || bool_decide (LookupKind (BoolId w) = Kind_Redir) = false.
Proof.
  intros (_ & H1 & H2).
  by rewrite !bool_decide_eq_false_2.
Qed.

(** An operand followed by a token that is no binary operator is a
    [WordTest], and the parser stops on that token. *)
Lemma ParseFactor_word fuel wp w t2 wp' ids :
  is_word BoolId LookupKind w ->
  ReadWord wp DBRACKET = Ok (t2, wp') ->
  is_op BoolId LookupKind ids t2 ->
  BoolId t2 <> Op_Newline ->
  ParseFactor ReadWord BoolId LookupKind StaticEval regex_parse
              (S (S fuel)) (at_word BoolId LookupKind wp w)
  = Done (WordTest w) (at_word BoolId LookupKind wp' t2).
Proof.
  intros (Hk & _ & _) Hread Hop Hnl.
  cbn [ParseFactor]. unfold at_word. cbn [b_kind op_id].
  rewrite bool_decide_eq_false_2 by congruence.
  rewrite bool_decide_eq_true_2 by done.
  unfold _LookAhead, read_word; cbn [words w_parser]. rewrite Hread.
  cbn [pbind words w_parser cur_word op_id b_kind app].
  rewrite (is_op_not_binary _ _ Hop).
  unfold get_cur_word; cbn [cur_word pbind].
  by rewrite Next_shift.
Qed.

Lemma ParseNegatedFactor_word fuel wp w t2 wp' ids :
  is_word BoolId LookupKind w ->
  ReadWord wp DBRACKET = Ok (t2, wp') ->
  is_op BoolId LookupKind ids t2 ->
  BoolId t2 <> Op_Newline ->
  ParseNegatedFactor ReadWord BoolId LookupKind StaticEval regex_parse
                     (S (S (S fuel))) (at_word BoolId LookupKind wp w)
  = Done (WordTest w) (at_word BoolId LookupKind wp' t2).
Proof.
  intros Hw Hread Hop Hnl.
  rewrite ParseNegatedFactor_eq. unfold at_word at 1. cbn [op_id].
  rewrite bool_decide_eq_false_2 by apply Hw.
  by apply (ParseFactor_word _ _ _ _ _ ids).
Qed.

(** [!] before an operand negates that operand alone. *)
Lemma ParseNegatedFactor_bang fuel wp bang w t2 wp1 wp2 ids :
  BoolId bang = KW_Bang ->
  ReadWord wp DBRACKET = Ok (w, wp1) ->
  is_word BoolId LookupKind w ->
  ReadWord wp1 DBRACKET = Ok (t2, wp2) ->
  is_op BoolId LookupKind ids t2 ->
  BoolId t2 <> Op_Newline ->
  ParseNegatedFactor ReadWord BoolId LookupKind StaticEval regex_parse
                     (S (S (S fuel))) (at_word BoolId LookupKind wp bang)
  = Done (LogicalNot (WordTest w)) (at_word BoolId LookupKind wp2 t2).
Proof.
  intros Hbang Hr1 Hw Hr2 Hop Hnl.
  rewrite ParseNegatedFactor_eq.
  change (at_word BoolId LookupKind wp bang)
    with (PState wp [bang] (Some bang) (BoolId bang)
                 (LookupKind (BoolId bang))).
  cbn [op_id]. rewrite bool_decide_eq_true_2 by done.
  rewrite (Next_read _ _ _ _ _ _ w wp1); [| eauto | done | apply Hw].
  cbn [pbind].
  by rewrite (ParseFactor_word _ _ _ _ _ ids Hw Hr2 Hop Hnl).
Qed.

Lemma op_id_at_word (wp : WP) (w : word) :
  op_id (at_word BoolId LookupKind wp w) = BoolId w.
Proof. reflexivity. Qed.

Ltac decide_ids :=
  repeat first
    [ rewrite bool_decide_eq_true_2 by congruence
    | rewrite bool_decide_eq_false_2 by congruence ].

(** The ids in a list of operator ids are not [Op_Newline]. *)
Lemma and_op_facts w :
  is_op BoolId LookupKind [Op_DAmp; BoolUnary_a] w ->
  BoolId w <> Op_Newline /\
  bool_decide (BoolId w = Op_DAmp) || bool_decide (BoolId w = BoolUnary_a)
  = true.
Proof.
  intros ([H | [H | []]] & _); split; try congruence; by decide_ids.
Qed.

Lemma or_op_facts w :
  is_op BoolId LookupKind [Op_DPipe; BoolUnary_o] w ->
  BoolId w <> Op_Newline /\
  bool_decide (BoolId w = Op_DAmp) || bool_decide (BoolId w = BoolUnary_a)
  = false /\
  bool_decide (BoolId w = Op_DPipe) || bool_decide (BoolId w = BoolUnary_o)
  = true.
Proof.
  intros ([H | [H | []]] & _); repeat split; try congruence; by decide_ids.
Qed.

Lemma end_facts w :
  is_op BoolId LookupKind [Lit_DRightBracket] w ->
  BoolId w = Lit_DRightBracket /\
  BoolId w <> Op_Newline /\
  bool_decide (BoolId w = Op_DAmp) || bool_decide (BoolId w = BoolUnary_a)
  = false /\
  bool_decide (BoolId w = Op_DPipe) || bool_decide (BoolId w = BoolUnary_o)
  = false.
Proof.
  intros ([H | []] & _); repeat split; try congruence; by decide_ids.
Qed.

(** On plain words: let [a], [b], [c] be operands, [and_w] a token [&&]
    (or [-a]), [or_w] a token [||] (or [-o]), [bang] the token [!] and
    [end_w] the closing token.  With fuel 6 or more, [Parse] on the words
    [a and_w b or_w c end_w] returns [Or(And(a, b), c)], and on the words
    [bang a and_w b end_w] it returns [And(Not(a), b)]. *)
Theorem Parse_words_precedence
    (wp0 : WP) (a b c and_w or_w bang end_w : word) (fuel : nat) :
  is_word BoolId LookupKind a ->
  is_word BoolId LookupKind b ->
  is_word BoolId LookupKind c ->
  is_op BoolId LookupKind [Op_DAmp; BoolUnary_a] and_w ->
  is_op BoolId LookupKind [Op_DPipe; BoolUnary_o] or_w ->
  BoolId bang = KW_Bang ->
  is_op BoolId LookupKind [Lit_DRightBracket] end_w ->
  (6 <= fuel)%nat ->
  (forall wp',
     reads ReadWord wp0 [a; and_w; b; or_w; c; end_w] wp' ->
     Parse ReadWord BoolId LookupKind StaticEval regex_parse fuel (init wp0)
     = Done (LogicalOr (LogicalAnd (WordTest a) (WordTest b)) (WordTest c))
            (at_word BoolId LookupKind wp' end_w)) /\
  (forall wp',
     reads ReadWord wp0 [bang; a; and_w; b; end_w] wp' ->
     Parse ReadWord BoolId LookupKind StaticEval regex_parse fuel (init wp0)
     = Done (LogicalAnd (LogicalNot (WordTest a)) (WordTest b))
            (at_word BoolId LookupKind wp' end_w)).
Proof.
  intros Ha Hb Hc Hand Hor Hbang Hend Hfuel.
  do 6 (destruct fuel as [| fuel]; [lia |]). clear Hfuel.
  destruct (and_op_facts _ Hand) as (Hand_nl & Hand_and).
  destruct (or_op_facts _ Hor) as (Hor_nl & Hor_and & Hor_or).
  destruct (end_facts _ Hend) as (Hend_id & Hend_nl & Hend_and & Hend_or).
  split.
  - intros wp' (wp1 & R1 & wp2 & R2 & wp3 & R3 & wp4 & R4 & wp5 & R5
                & wp6 & R6 & <-).
    unfold Parse, init.
    rewrite (Next_read _ _ _ _ _ _ a wp1); [| by left | done | apply Ha].
    cbn [pbind]. rewrite ParseExpr_eq, ParseTerm_eq.
    rewrite (ParseNegatedFactor_word _ _ _ _ _ _ Ha R2 Hand Hand_nl).
    cbn [pbind]. rewrite !op_id_at_word. rewrite Hand_and.
    rewrite (Next_read_at_word _ _ _ b wp3); [| done | apply Hb].
    cbn [pbind]. rewrite ParseTerm_eq.
    rewrite (ParseNegatedFactor_word _ _ _ _ _ _ Hb R4 Hor Hor_nl).
    cbn [pbind]. rewrite !op_id_at_word. rewrite Hor_and.
    cbn [pbind]. rewrite !op_id_at_word. rewrite Hor_or.
    rewrite (Next_read_at_word _ _ _ c wp5); [| done | apply Hc].
    cbn [pbind]. rewrite ParseExpr_eq, ParseTerm_eq.
    rewrite (ParseNegatedFactor_word _ _ _ _ _ _ Hc R6 Hend Hend_nl).
    cbn [pbind]. rewrite !op_id_at_word. rewrite Hend_and.
    cbn [pbind]. rewrite !op_id_at_word. rewrite Hend_or.
    cbn [pbind]. rewrite !op_id_at_word.
    by rewrite bool_decide_eq_false_2 by (intros H; by apply H).
  - intros wp' (wp1 & R1 & wp2 & R2 & wp3 & R3 & wp4 & R4 & wp5 & R5 & <-).
    unfold Parse, init.
    rewrite (Next_read _ _ _ _ _ _ bang wp1);
      [| by left | done | congruence].
    cbn [pbind]. rewrite ParseExpr_eq, ParseTerm_eq.
    rewrite (ParseNegatedFactor_bang _ _ _ _ _ _ _ _
               Hbang R2 Ha R3 Hand Hand_nl).
    cbn [pbind]. rewrite !op_id_at_word. rewrite Hand_and.
    rewrite (Next_read_at_word _ _ _ b wp4); [| done | apply Hb].
    cbn [pbind]. rewrite ParseTerm_eq.
    rewrite (ParseNegatedFactor_word _ _ _ _ _ _ Hb R5 Hend Hend_nl).
    cbn [pbind]. rewrite !op_id_at_word. rewrite Hend_and.
    cbn [pbind]. rewrite !op_id_at_word. rewrite Hend_or.
    cbn [pbind]. rewrite !op_id_at_word.
    by rewrite bool_decide_eq_false_2 by (intros H; by apply H).
Qed.

Lemma pbind_Done_inv {A B} (m : outcome A)
    (k : A -> pstate -> outcome B) (b : B)
    (st' : pstate (word:=word) (WP:=WP)) :
  pbind m k = Done b st' ->
  exists a st1, m = Done a st1 /\ k a st1 = Done b st'.
Proof. destruct m as [a st1 | e |]; [eauto | done | done]. Qed.

Lemma Next_mono fuel : forall fuel' mode st u st',
  (fuel <= fuel')%nat ->
  _Next ReadWord BoolId LookupKind fuel mode st = Done u st' ->
  _Next ReadWord BoolId LookupKind fuel' mode st = Done u st'.
Proof.
  induction fuel as [| fuel IH]; intros fuel' mode st u st' Hle H; [done |].
  destruct fuel' as [| fuel']; [lia |].
  cbn [_Next] in *.
  destruct (_NextOne ReadWord BoolId LookupKind mode st) as [[] st1 | |];
    [| done | done].
  cbn [pbind] in *. case_bool_decide; [done |].
  apply IH; [lia | done].
Qed.

Lemma ParseFactor_eq fuel st :
  ParseFactor ReadWord BoolId LookupKind StaticEval regex_parse (S fuel) st
  = if bool_decide (b_kind st = Kind_BoolUnary)
    then
      pbind (_Next ReadWord BoolId LookupKind fuel DBRACKET st) (fun _ st1 =>
      pbind (get_cur_word st1) (fun w st2 =>
      pbind (_Next ReadWord BoolId LookupKind fuel DBRACKET st2) (fun _ st3 =>
        Done (BoolUnary (op_id st) w) st3)))
    else if bool_decide (b_kind st = Kind_Word)
    then
      pbind (_LookAhead ReadWord st) (fun t2 st =>
        if bool_decide (LookupKind (BoolId t2) = Kind_BoolBinary)
           || bool_decide (LookupKind (BoolId t2) = Kind_Redir)
        then
          pbind (get_cur_word st) (fun left st =>
          pbind (_Next ReadWord BoolId LookupKind fuel DBRACKET st)
            (fun _ st1 =>
          pbind (_Next ReadWord BoolId LookupKind fuel
                       (if bool_decide (BoolId t2 = BoolBinary_EqualTilde)
                        then BASH_REGEX else DBRACKET) st1)
            (fun _ st =>
          pbind (get_cur_word st) (fun right st =>
          pbind (if bool_decide (BoolId t2 = BoolBinary_EqualTilde)
                 then check_regex StaticEval regex_parse right st
                 else Done tt st)
            (fun _ st =>
          pbind (_Next ReadWord BoolId LookupKind fuel DBRACKET st)
            (fun _ st => Done (BoolBinary (op_id st1) left right) st))))))
        else
          pbind (get_cur_word st) (fun w st =>
          pbind (_Next ReadWord BoolId LookupKind fuel DBRACKET st)
            (fun _ st => Done (WordTest w) st)))
    else if bool_decide (op_id st = Op_LParen)
    then
      pbind (_Next ReadWord BoolId LookupKind fuel DBRACKET st) (fun _ st =>
      pbind (ParseExpr ReadWord BoolId LookupKind StaticEval regex_parse
                       fuel st)
        (fun node st =>
           if bool_decide (op_id st <> Op_RParen)
           then p_die "Expected ), got %s"
           else
             pbind (_Next ReadWord BoolId LookupKind fuel DBRACKET st)
               (fun _ st => Done node st)))
    else p_die "Unexpected token in boolean expression".
Proof. reflexivity. Qed.


Ltac mono_step Hle IHe IHt IHn IHf :=
  match goal with
  | H : pbind _ _ = Done _ _ |- _ =>
      let a := fresh "a" in
      let st1 := fresh "st" in
      let Hm := fresh "Hm" in
      apply pbind_Done_inv in H as (a & st1 & Hm & H);
      first
        [ rewrite (Next_mono _ _ _ _ _ _ Hle Hm)
        | rewrite (IHe _ _ _ _ Hle Hm)
        | rewrite (IHt _ _ _ _ Hle Hm)
        | rewrite (IHn _ _ _ _ Hle Hm)
        | rewrite (IHf _ _ _ _ Hle Hm)
        | rewrite Hm ];
      cbn [pbind]
  | H : (if ?c then _ else _) = Done _ _ |- _ => destruct c eqn:?
  | H : p_die _ = Done _ _ |- _ => discriminate H
  end.

(** A result reached with some fuel is reached with any larger fuel. *)
Lemma Parse_mono fuel :
  (forall fuel' st a st',
     (fuel <= fuel')%nat ->
     ParseExpr ReadWord BoolId LookupKind StaticEval regex_parse fuel st
     = Done a st' ->
     ParseExpr ReadWord BoolId LookupKind StaticEval regex_parse fuel' st
     = Done a st') /\
  (forall fuel' st a st',
     (fuel <= fuel')%nat ->
     ParseTerm ReadWord BoolId LookupKind StaticEval regex_parse fuel st
     = Done a st' ->
     ParseTerm ReadWord BoolId LookupKind StaticEval regex_parse fuel' st
     = Done a st') /\
  (forall fuel' st a st',
     (fuel <= fuel')%nat ->
     ParseNegatedFactor ReadWord BoolId LookupKind StaticEval regex_parse
                        fuel st = Done a st' ->
     ParseNegatedFactor ReadWord BoolId LookupKind StaticEval regex_parse
                        fuel' st = Done a st') /\
  (forall fuel' st a st',
     (fuel <= fuel')%nat ->
     ParseFactor ReadWord BoolId LookupKind StaticEval regex_parse fuel st
     = Done a st' ->
     ParseFactor ReadWord BoolId LookupKind StaticEval regex_parse fuel' st
     = Done a st').
Proof.
  induction fuel as [| fuel (IHe & IHt & IHn & IHf)].
  { repeat split; intros; discriminate. }
  repeat split; intros fuel' st a st' Hle H;
    (destruct fuel' as [| fuel']; [lia |]);
    apply le_S_n in Hle.
  - rewrite ParseExpr_eq in *.
    repeat mono_step Hle IHe IHt IHn IHf; done.
  - rewrite ParseTerm_eq in *.
    repeat mono_step Hle IHe IHt IHn IHf; done.
  - rewrite ParseNegatedFactor_eq in *.
    destruct (bool_decide (op_id st = KW_Bang)).
    + repeat mono_step Hle IHe IHt IHn IHf; done.
    + by apply IHf.
  - rewrite ParseFactor_eq in *.
    repeat mono_step Hle IHe IHt IHn IHf; done.
Qed.

Lemma is_and_id_true (id_ : Id) :
  is_and_id id_ ->
  bool_decide (id_ = Op_DAmp) || bool_decide (id_ = BoolUnary_a) = true.
Proof. intros [-> | ->]; reflexivity. Qed.

Lemma is_and_id_false (id_ : Id) :
  ~ is_and_id id_ ->
  bool_decide (id_ = Op_DAmp) || bool_decide (id_ = BoolUnary_a) = false.
Proof.
  intros H. unfold is_and_id in H.
  rewrite !bool_decide_eq_false_2; [done | tauto | tauto].
Qed.

Lemma is_or_id_true (id_ : Id) :
  is_or_id id_ ->
  bool_decide (id_ = Op_DPipe) || bool_decide (id_ = BoolUnary_o) = true.
Proof. intros [-> | ->]; reflexivity. Qed.

Lemma is_or_id_false (id_ : Id) :
  ~ is_or_id id_ ->
  bool_decide (id_ = Op_DPipe) || bool_decide (id_ = BoolUnary_o) = false.
Proof.
  intros H. unfold is_or_id in H.
  rewrite !bool_decide_eq_false_2; [done | tauto | tauto].
Qed.

Lemma is_or_id_not_and (id_ : Id) :
  is_or_id id_ ->
  bool_decide (id_ = Op_DAmp) || bool_decide (id_ = BoolUnary_a) = false.
Proof. intros [-> | ->]; reflexivity. Qed.

(** C2: precedence in [ParseExpr].  (1) If a negated factor [A] is
    followed by an AND token, then a negated factor [B], then an OR token,
    then a negated factor [C], and what follows is neither AND nor OR, the
    result is [Or(And(A, B), C)].  (2) If [!] is followed by a factor [A],
    an AND token and a negated factor [B], and what follows is neither AND
    nor OR, the result is [And(Not(A), B)].  The fuel needed is three more
    than what the parts need. *)
Theorem C2_precedence (fuel fuel' : nat) (st0 : pstate) :
  (fuel + 3 <= fuel')%nat ->
  (forall st1 st2 st3 st4 st5 A B C,
     ParseNegatedFactor ReadWord BoolId LookupKind StaticEval regex_parse
                        fuel st0 = Done A st1 ->
     is_and_id (op_id st1) ->
     _Next ReadWord BoolId LookupKind fuel DBRACKET st1 = Done tt st2 ->
     ParseNegatedFactor ReadWord BoolId LookupKind StaticEval regex_parse
                        fuel st2 = Done B st3 ->
     is_or_id (op_id st3) ->
     _Next ReadWord BoolId LookupKind fuel DBRACKET st3 = Done tt st4 ->
     ParseNegatedFactor ReadWord BoolId LookupKind StaticEval regex_parse
                        fuel st4 = Done C st5 ->
     ~ is_and_id (op_id st5) -> ~ is_or_id (op_id st5) ->
     ParseExpr ReadWord BoolId LookupKind StaticEval regex_parse fuel' st0
     = Done (LogicalOr (LogicalAnd A B) C) st5) /\
  (forall st1 st2 st3 st4 A B,
     op_id st0 = KW_Bang ->
     _Next ReadWord BoolId LookupKind fuel DBRACKET st0 = Done tt st1 ->
     ParseFactor ReadWord BoolId LookupKind StaticEval regex_parse
                 fuel st1 = Done A st2 ->
     is_and_id (op_id st2) ->
     _Next ReadWord BoolId LookupKind fuel DBRACKET st2 = Done tt st3 ->
     ParseNegatedFactor ReadWord BoolId LookupKind StaticEval regex_parse
                        fuel st3 = Done B st4 ->
     ~ is_and_id (op_id st4) -> ~ is_or_id (op_id st4) ->
     ParseExpr ReadWord BoolId LookupKind StaticEval regex_parse fuel' st0
     = Done (LogicalAnd (LogicalNot A) B) st4).
Proof.
  intros Hfuel.
  destruct (Parse_mono fuel) as (_ & _ & Hn & Hf).
  assert (H1 : (fuel <= S fuel)%nat) by lia.
  assert (H2 : (fuel <= S (S fuel))%nat) by lia.
  assert (H3 : (S (S (S fuel)) <= fuel')%nat) by lia.
  split.
  - intros st1 st2 st3 st4 st5 A B C HA Hand1 Hnext1 HB Hor3 Hnext3 HC
           Hnand5 Hnor5.
    destruct (Parse_mono (S (S (S fuel)))) as (He & _).
    apply (He fuel' _ _ _ H3).
    rewrite ParseExpr_eq, ParseTerm_eq.
    rewrite (Hn (S fuel) _ _ _ H1 HA). cbn [pbind].
    rewrite (is_and_id_true _ Hand1).
    rewrite (Next_mono _ (S fuel) _ _ _ _ H1 Hnext1). cbn [pbind].
    rewrite ParseTerm_eq. rewrite HB. cbn [pbind].
    rewrite (is_or_id_not_and _ Hor3). cbn [pbind].
    rewrite (is_or_id_true _ Hor3).
    rewrite (Next_mono _ (S (S fuel)) _ _ _ _ H2 Hnext3).
    cbn [pbind].
    rewrite ParseExpr_eq, ParseTerm_eq. rewrite HC. cbn [pbind].
    rewrite (is_and_id_false _ Hnand5). cbn [pbind].
    by rewrite (is_or_id_false _ Hnor5).
  - intros st1 st2 st3 st4 A B Hbang Hnext0 HA Hand2 Hnext2 HB Hnand4 Hnor4.
    destruct (Parse_mono (S (S (S fuel)))) as (He & _).
    apply (He fuel' _ _ _ H3).
    rewrite ParseExpr_eq, ParseTerm_eq, ParseNegatedFactor_eq.
    rewrite bool_decide_eq_true_2 by done.
    rewrite Hnext0. cbn [pbind]. rewrite HA. cbn [pbind].
    rewrite (is_and_id_true _ Hand2).
    rewrite (Next_mono _ (S fuel) _ _ _ _ H1 Hnext2). cbn [pbind].
    rewrite ParseTerm_eq. rewrite HB. cbn [pbind].
    rewrite (is_and_id_false _ Hnand4). cbn [pbind].
    by rewrite (is_or_id_false _ Hnor4).
Qed.

End ParserFacts.


(** ** The theorems at work on concrete inputs *)

Lemma Parse_words_precedence_sample :
  BoolParse.Parse Samples.ReadWord Samples.BoolId Samples.LookupKind
    Samples.StaticEval Samples.regex_parse 6
    (BoolParse.init ["a"; "&&"; "b"; "||"; "c"; "]]"])
  = BoolParse.Done
      (BoolParse.LogicalOr
         (BoolParse.LogicalAnd (BoolParse.WordTest "a")
                               (BoolParse.WordTest "b"))
         (BoolParse.WordTest "c"))
      (BoolParse.at_word Samples.BoolId Samples.LookupKind [] "]]") /\
  BoolParse.Parse Samples.ReadWord Samples.BoolId Samples.LookupKind
    Samples.StaticEval Samples.regex_parse 6
    (BoolParse.init ["!"; "a"; "&&"; "b"; "]]"])
  = BoolParse.Done
      (BoolParse.LogicalAnd
         (BoolParse.LogicalNot (BoolParse.WordTest "a"))
         (BoolParse.WordTest "b"))
      (BoolParse.at_word Samples.BoolId Samples.LookupKind [] "]]").
Proof.
  assert (Hword : forall w, In w ["a"; "b"; "c"] ->
            BoolParse.is_word Samples.BoolId Samples.LookupKind w).
  { intros w Hw. simpl in Hw.
    destruct Hw as [<- | [<- | [<- | []]]];
      (split; [reflexivity | split; discriminate]). }
  assert (Hand : BoolParse.is_op Samples.BoolId Samples.LookupKind
                   [Op_DAmp; BoolUnary_a] "&&").
  { split; [simpl; tauto | split; discriminate]. }
  assert (Hor : BoolParse.is_op Samples.BoolId Samples.LookupKind
                  [Op_DPipe; BoolUnary_o] "||").
  { split; [simpl; tauto | split; discriminate]. }
  assert (Hend : BoolParse.is_op Samples.BoolId Samples.LookupKind
                   [Lit_DRightBracket] "]]").
  { split; [simpl; tauto | split; discriminate]. }
  split.
  - apply (Parse_words_precedence Samples.ReadWord Samples.BoolId Samples.LookupKind
             Samples.StaticEval Samples.regex_parse
             ["a"; "&&"; "b"; "||"; "c"; "]]"] "a" "b" "c" "&&" "||" "!" "]]" 6);
      try (apply Hword; simpl; tauto); try assumption;
      [reflexivity | lia |].
    simpl. repeat (eexists; split; [reflexivity |]). reflexivity.
  - apply (Parse_words_precedence Samples.ReadWord Samples.BoolId Samples.LookupKind
             Samples.StaticEval Samples.regex_parse
             ["!"; "a"; "&&"; "b"; "]]"] "a" "b" "c" "&&" "||" "!" "]]" 6);
      try (apply Hword; simpl; tauto); try assumption;
      [reflexivity | lia |].
    simpl. repeat (eexists; split; [reflexivity |]). reflexivity.
Defined.

(** [getopts ab: opt] with the positional parameters [-a -x -b]: at
    [OPTIND=4] there is no argument left, at [OPTIND=2] the argument [-x]
    is not in the spec, at [OPTIND=3] the option [-b] lacks its
    argument. *)
Lemma C4_getopts_one_step_witness :
  let mem optind :=
    Samples.Store (<["OPTIND" := Str optind]> ∅) ["-a"; "-x"; "-b"] in
  let run optind :=
    GetOpts.GetOpts Samples.GetArgNum Samples.GetVar Samples.SetString
      Samples.int_of_str ["ab:"; "opt"] (mem optind) ∅ in
  let cache :=
    GetOpts.cache_after ∅ "ab:" (GetOpts.cached_spec ∅ "ab:") in
  let holds mem' opt optarg optind :=
    Samples.GetVar mem' "opt" = Str opt /\
    Samples.GetVar mem' "OPTARG" = Str optarg /\
    Samples.GetVar mem' "OPTIND" = Str optind in
  (exists mem', run "4" = Ok (1, mem', cache, []) /\ holds mem' "?" "" "4") /\
  (exists mem', run "2" = Ok (0, mem', cache, []) /\ holds mem' "?" "" "3") /\
  (exists mem',
     run "3" = Ok (0, mem', cache,
                   [Error "getopts: option %r requires an argument" ["-b"]])
     /\ holds mem' "?" "" "4").
Proof.
  intros mem run cache holds. subst run cache holds. cbv beta.
  split; [| split].
  - pose proof (C4_getopts_one_step Samples.GetArgNum Samples.GetVar
                  Samples.SetString Samples.int_of_str "ab:" "opt" []
                  (mem "4") ∅ "4" 4 eq_refl eq_refl) as (H & _ & _).
    rewrite H by (left; reflexivity).
    eexists. split; [reflexivity |]. repeat split; reflexivity.
  - pose proof (C4_getopts_one_step Samples.GetArgNum Samples.GetVar
                  Samples.SetString Samples.int_of_str "ab:" "opt" []
                  (mem "2") ∅ "2" 2 eq_refl eq_refl) as (_ & H & _).
    rewrite (H "-x") by reflexivity.
    eexists. split; [reflexivity |]. repeat split; reflexivity.
  - pose proof (C4_getopts_one_step Samples.GetArgNum Samples.GetVar
                  Samples.SetString Samples.int_of_str "ab:" "opt" []
                  (mem "3") ∅ "3" 3 eq_refl eq_refl) as (_ & _ & H).
    rewrite (H "-b") by reflexivity.
    eexists. split; [reflexivity |]. repeat split; reflexivity.
Defined.

(** [OPTIND=x] is a string that is no integer. *)
Lemma C9_optind_invariant_is_fatal_witness :
  exists msg,
    GetOpts.GetOpts Samples.GetArgNum Samples.GetVar Samples.SetString
      Samples.int_of_str ["ab:"; "opt"]
      (Samples.Store (<["OPTIND" := Str "x"]> ∅) ["-a"]) ∅
    = Raise (FatalRuntimeError msg).
Proof.
  apply (C9_optind_invariant_is_fatal Samples.GetArgNum Samples.GetVar
           Samples.SetString Samples.int_of_str "ab:" "opt" []).
  intros s Hs. vm_compute in Hs. injection Hs as <-. reflexivity.
Defined.

(** [wait 1 2] where job 1 is a pipeline that ends with the statuses 3 and
    5, and job 2 is a process that ends with status 0. *)
Lemma C5_wait_explicit_ids_witness :
  let w := Samples.World
             (<[1 := Wait.Pipeline [3; 5]]> (<[2 := Wait.Single 0]> ∅)) [] in
  let w1 := Samples.World (Samples.table w) ["3"; "5"] in
  Wait.Wait Samples.getopt_n Samples.int_of_str (fun w => (false, w))
    (fun _ => 0) (fun _ => true) Samples.table Samples.WaitUntilDone
    Samples.SetGlobalArray 0 ["1"; "2"] w
  = Some (Ok (0, w1, [])).
Proof.
  intros w w1.
  pose proof (C5_wait_explicit_ids Samples.getopt_n Samples.int_of_str
                (fun w => (false, w)) (fun _ => 0) (fun _ => true)
                Samples.table Samples.WaitUntilDone Samples.SetGlobalArray
                0 ["1"; "2"] ["1"] [] "2" w w1 5 eq_refl eq_refl)
    as (_ & _ & H).
  destruct (H 2 (Wait.Single 0) eq_refl eq_refl) as (Hsingle & _).
  exact (proj2 (Hsingle 0 w1 eq_refl) eq_refl).
Defined.


(** [read x y z] on the input [ab  cd] that ends without a newline. *)
Lemma C10_read_unterminated_last_line_witness :
  exists mem',
    Fields.Read Samples.SetString Samples.SplitForRead
      Samples.READ_SPEC_Parse Samples.os_read
      ["x"; "y"; "z"] ["ab  cd"] (Samples.Store ∅ [])
    = Ok (1, mem', []) /\
    Samples.GetVar mem' "x" = Str "ab" /\
    Samples.GetVar mem' "y" = Str "cd" /\
    Samples.GetVar mem' "z" = Str "".
Proof.
  destruct (C10_read_unterminated_last_line Samples.SetString
              Samples.SplitForRead Samples.READ_SPEC_Parse Samples.os_read
              ["x"; "y"; "z"] (Fields.ReadArg false None) 0
              (Samples.Store ∅ []) [] "ab  cd" [] false
              eq_refl eq_refl eq_refl ltac:(discriminate) eq_refl)
    as (ps' & dn & jn' & Hparts & Hread).
  vm_compute in Hparts. injection Hparts as <- <- <-.
  cbn [app] in Hread. rewrite Hread.
  eexists. split; [reflexivity |]. repeat split; reflexivity.
Defined.

(** [a && b || c ]]] and [! a && b ]]], from the point where the first
    word has been read. *)
Lemma C2_precedence_witness :
  BoolParse.ParseExpr Samples.ReadWord Samples.BoolId Samples.LookupKind
    Samples.StaticEval Samples.regex_parse 6
    (BoolParse.at_word Samples.BoolId Samples.LookupKind
       ["&&"; "b"; "||"; "c"; "]]"] "a")
  = BoolParse.Done
      (BoolParse.LogicalOr
         (BoolParse.LogicalAnd (BoolParse.WordTest "a")
                               (BoolParse.WordTest "b"))
         (BoolParse.WordTest "c"))
      (BoolParse.at_word Samples.BoolId Samples.LookupKind [] "]]") /\
  BoolParse.ParseExpr Samples.ReadWord Samples.BoolId Samples.LookupKind
    Samples.StaticEval Samples.regex_parse 6
    (BoolParse.at_word Samples.BoolId Samples.LookupKind
       ["a"; "&&"; "b"; "]]"] "!")
  = BoolParse.Done
      (BoolParse.LogicalAnd
         (BoolParse.LogicalNot (BoolParse.WordTest "a"))
         (BoolParse.WordTest "b"))
      (BoolParse.at_word Samples.BoolId Samples.LookupKind [] "]]").
Proof.
  assert (Hfuel : (3 + 3 <= 6)%nat) by lia.
  split.
  - eapply (proj1 (C2_precedence Samples.ReadWord Samples.BoolId
                     Samples.LookupKind Samples.StaticEval
                     Samples.regex_parse 3 6 _ Hfuel)).
    + reflexivity.
    + left; reflexivity.
    + reflexivity.
    + reflexivity.
    + left; reflexivity.
    + reflexivity.
    + reflexivity.
    + intros [H | H]; discriminate H.
    + intros [H | H]; discriminate H.
  - eapply (proj2 (C2_precedence Samples.ReadWord Samples.BoolId
                     Samples.LookupKind Samples.StaticEval
                     Samples.regex_parse 3 6 _ Hfuel)).
    + reflexivity.
    + reflexivity.
    + reflexivity.
    + left; reflexivity.
    + reflexivity.
    + reflexivity.
    + intros [H | H]; discriminate H.
    + intros [H | H]; discriminate H.
Defined.


(** * Further properties *)

(** ** The boolean parser: pending words, associativity, factors *)

Section ParserMore.
Import BoolParse.
Context {word WP : Type}.
Variable ReadWord : WP -> lex_mode_e -> result (word * WP).
Variable BoolId : word -> Id.
Variable LookupKind : Id -> Kind.
Variable StaticEval : word -> bool * string * bool.
Variable regex_parse : string -> bool.

Lemma settled_words (st : pstate (word:=word) (WP:=WP)) :
  settled BoolId LookupKind st -> (length (words st) <= 2)%nat.
Proof. intros (wp & w & -> & _). simpl. lia. Qed.

Lemma NextOne_at_word mode (st : pstate (word:=word) (WP:=WP)) u st' :
  (length (words st) <= 2)%nat ->
  _NextOne ReadWord BoolId LookupKind mode st = Done u st' ->
  exists wp w, st' = at_word BoolId LookupKind wp w.
Proof.
  intros Hlen H. unfold _NextOne, read_word, classify in H.
  destruct st as [wp ws cur op k]; simpl in *.
  destruct ws as [| w0 [| w1 [| w2 ws]]]; simpl in *.
  - destruct (ReadWord wp mode) as [[w wp'] |]; [| done].
    simpl in H. injection H as _ <-. eauto.
  - destruct (ReadWord wp mode) as [[w wp'] |]; [| done].
    simpl in H. injection H as _ <-. eauto.
  - case_bool_decide; [| done]. injection H as _ <-. eauto.
  - lia.
Qed.

Lemma Next_settled fuel : forall mode st u st',
  (length (words st) <= 2)%nat ->
  _Next ReadWord BoolId LookupKind fuel mode st = Done u st' ->
  settled BoolId LookupKind st'.
Proof.
  induction fuel as [| fuel IH]; intros mode st u st' Hlen H; [done |].
  cbn [_Next] in H.
  apply pbind_Done_inv in H as (u1 & st1 & H1 & H).
  destruct (NextOne_at_word _ _ _ _ Hlen H1) as (wp & w & ->).
  case_bool_decide as Hnl.
  - injection H as _ <-. exists wp, w. by split.
  - eapply IH; [| exact H]. simpl. lia.
Qed.

Lemma LookAhead_words (st : pstate (word:=word) (WP:=WP)) t st' :
  _LookAhead ReadWord st = Done t st' -> (length (words st') <= 2)%nat.
Proof.
  unfold _LookAhead, read_word. intros H.
  destruct (words st) as [| w0 [| w1 ws]] eqn:Hw; [done | | done].
  destruct (ReadWord (w_parser st) DBRACKET) as [[w wp'] |]; [| done].
  simpl in H. injection H as _ <-. simpl. rewrite ?Hw. simpl. lia.
Qed.

Lemma get_cur_word_state (st : pstate (word:=word) (WP:=WP)) w st' :
  get_cur_word st = Done w st' -> st' = st /\ cur_word st = Some w.
Proof.
  unfold get_cur_word. destruct (cur_word st); [| done].
  intros H. by injection H as <- <-.
Qed.

Lemma check_regex_state right (st : pstate (word:=word) (WP:=WP)) u st' :
  check_regex StaticEval regex_parse right st = Done u st' -> st' = st.
Proof.
  unfold check_regex. destruct (StaticEval right) as [[ok pat] q].
  destruct (ok && negb (regex_parse pat)); [done |].
  intros H. by injection H as _ <-.
Qed.

(** Every level of the descent that returns has stopped on a word. *)
Lemma Parse_settled fuel :
  (forall st a st',
     (length (words st) <= 2)%nat ->
     ParseExpr ReadWord BoolId LookupKind StaticEval regex_parse fuel st
     = Done a st' -> settled BoolId LookupKind st') /\
  (forall st a st',
     (length (words st) <= 2)%nat ->
     ParseTerm ReadWord BoolId LookupKind StaticEval regex_parse fuel st
     = Done a st' -> settled BoolId LookupKind st') /\
  (forall st a st',
     (length (words st) <= 2)%nat ->
     ParseNegatedFactor ReadWord BoolId LookupKind StaticEval regex_parse
                        fuel st = Done a st' ->
     settled BoolId LookupKind st') /\
  (forall st a st',
     (length (words st) <= 2)%nat ->
     ParseFactor ReadWord BoolId LookupKind StaticEval regex_parse fuel st
     = Done a st' -> settled BoolId LookupKind st').
Proof.
  induction fuel as [| fuel (IHe & IHt & IHn & IHf)].
  { repeat split; intros; discriminate. }
  repeat split; intros st a st' Hlen H.
  - rewrite ParseExpr_eq in H.
    apply pbind_Done_inv in H as (l & st1 & H1 & H).
    pose proof (IHt _ _ _ Hlen H1) as S1.
    destruct (_ || _).
    + apply pbind_Done_inv in H as (u & st2 & H2 & H).
      pose proof (Next_settled _ _ _ _ _ (settled_words _ S1) H2) as S2.
      apply pbind_Done_inv in H as (r & st3 & H3 & H).
      pose proof (IHe _ _ _ (settled_words _ S2) H3) as S3.
      by injection H as _ <-.
    + by injection H as _ <-.
  - rewrite ParseTerm_eq in H.
    apply pbind_Done_inv in H as (l & st1 & H1 & H).
    pose proof (IHn _ _ _ Hlen H1) as S1.
    destruct (_ || _).
    + apply pbind_Done_inv in H as (u & st2 & H2 & H).
      pose proof (Next_settled _ _ _ _ _ (settled_words _ S1) H2) as S2.
      apply pbind_Done_inv in H as (r & st3 & H3 & H).
      pose proof (IHt _ _ _ (settled_words _ S2) H3) as S3.
      by injection H as _ <-.
    + by injection H as _ <-.
  - rewrite ParseNegatedFactor_eq in H.
    destruct (bool_decide (op_id st = KW_Bang)).
    + apply pbind_Done_inv in H as (u & st1 & H1 & H).
      pose proof (Next_settled _ _ _ _ _ Hlen H1) as S1.
      apply pbind_Done_inv in H as (c & st2 & H2 & H).
      pose proof (IHf _ _ _ (settled_words _ S1) H2) as S2.
      by injection H as _ <-.
    + by eapply IHf.
  - rewrite ParseFactor_eq in H.
    destruct (bool_decide (b_kind st = Kind_BoolUnary)).
    { apply pbind_Done_inv in H as (u & st1 & H1 & H).
      pose proof (Next_settled _ _ _ _ _ Hlen H1) as S1.
      apply pbind_Done_inv in H as (w & st2 & H2 & H).
      apply get_cur_word_state in H2 as [-> _].
      apply pbind_Done_inv in H as (u' & st3 & H3 & H).
      pose proof (Next_settled _ _ _ _ _ (settled_words _ S1) H3) as S3.
      by injection H as _ <-. }
    destruct (bool_decide (b_kind st = Kind_Word)).
    { apply pbind_Done_inv in H as (t2 & st1 & H1 & H).
      pose proof (LookAhead_words _ _ _ H1) as L1.
      destruct (_ || _).
      - apply pbind_Done_inv in H as (l & st2 & H2 & H).
        apply get_cur_word_state in H2 as [-> _].
        apply pbind_Done_inv in H as (u & st3 & H3 & H).
        pose proof (Next_settled _ _ _ _ _ L1 H3) as S3.
        apply pbind_Done_inv in H as (u' & st4 & H4 & H).
        pose proof (Next_settled _ _ _ _ _ (settled_words _ S3) H4) as S4.
        apply pbind_Done_inv in H as (r & st5 & H5 & H).
        apply get_cur_word_state in H5 as [-> _].
        apply pbind_Done_inv in H as (u'' & st6 & H6 & H).
        assert (st6 = st4) as ->.
        { destruct (bool_decide _); [by eapply check_regex_state |].
          by injection H6 as _ <-. }
        apply pbind_Done_inv in H as (u3 & st7 & H7 & H).
        pose proof (Next_settled _ _ _ _ _ (settled_words _ S4) H7) as S7.
        by injection H as _ <-.
      - apply pbind_Done_inv in H as (w & st2 & H2 & H).
        apply get_cur_word_state in H2 as [-> _].
        apply pbind_Done_inv in H as (u & st3 & H3 & H).
        pose proof (Next_settled _ _ _ _ _ L1 H3) as S3.
        by injection H as _ <-. }
    destruct (bool_decide (op_id st = Op_LParen)); [| done].
    apply pbind_Done_inv in H as (u & st1 & H1 & H).
    pose proof (Next_settled _ _ _ _ _ Hlen H1) as S1.
    apply pbind_Done_inv in H as (node & st2 & H2 & H).
    pose proof (IHe _ _ _ (settled_words _ S1) H2) as S2.
    destruct (bool_decide (op_id st2 <> Op_RParen)); [done |].
    apply pbind_Done_inv in H as (u' & st3 & H3 & H).
    pose proof (Next_settled _ _ _ _ _ (settled_words _ S2) H3) as S3.
    by injection H as _ <-.
Qed.

(** A parse that succeeds has stopped on its closing token, which is the
    one pending word: [Parse] on the closing bracket, [ParseForBuiltin] on
    the end of input.  No word read ahead is left behind. *)
Theorem Parse_ends_on_sentinel (fuel : nat) (wp : WP) (node : bool_expr)
    (st' : pstate) :
  (Parse ReadWord BoolId LookupKind StaticEval regex_parse fuel (init wp)
   = Done node st' ->
   op_id st' = Lit_DRightBracket /\ settled BoolId LookupKind st') /\
  (ParseForBuiltin ReadWord BoolId LookupKind StaticEval regex_parse fuel
                   (init wp) = Done node st' ->
   op_id st' = Eof_Real /\ settled BoolId LookupKind st').
Proof.
  assert (Hinit : (length (words (init (word:=word) wp)) <= 2)%nat)
    by (simpl; lia).
  destruct (Parse_settled fuel) as (He & _).
  split; intros H.
  - unfold Parse in H.
    apply pbind_Done_inv in H as (u & st1 & H1 & H).
    pose proof (Next_settled _ _ _ _ _ Hinit H1) as S1.
    apply pbind_Done_inv in H as (n & st2 & H2 & H).
    pose proof (He _ _ _ (settled_words _ S1) H2) as S2.
    case_bool_decide as Hop; [done |].
    injection H as _ <-. split; [| done].
    by destruct (decide (op_id st2 = Lit_DRightBracket)).
  - unfold ParseForBuiltin in H.
    apply pbind_Done_inv in H as (u & st1 & H1 & H).
    pose proof (Next_settled _ _ _ _ _ Hinit H1) as S1.
    apply pbind_Done_inv in H as (n & st2 & H2 & H).
    pose proof (He _ _ _ (settled_words _ S1) H2) as S2.
    case_bool_decide as Hop; [done |].
    injection H as _ <-. split; [| done].
    by destruct (decide (op_id st2 = Eof_Real)).
Qed.

End ParserMore.

Section ParserForms.
Import BoolParse.
Context {word WP : Type}.
Variable ReadWord : WP -> lex_mode_e -> result (word * WP).
Variable BoolId : word -> Id.
Variable LookupKind : Id -> Kind.
Variable StaticEval : word -> bool * string * bool.
Variable regex_parse : string -> bool.

(** AND and OR associate to the right: [A and B and C] is
    [And(A, And(B, C))] and [A or B or C] is [Or(A, Or(B, C))].  The fuel
    needed is three more than what the parts need. *)
Theorem Parse_right_associative (fuel fuel' : nat) (st0 : pstate) :
  (fuel + 3 <= fuel')%nat ->
  (forall st1 st2 st3 st4 st5 A B C,
     ParseNegatedFactor ReadWord BoolId LookupKind StaticEval regex_parse
                        fuel st0 = Done A st1 ->
     is_and_id (op_id st1) ->
     _Next ReadWord BoolId LookupKind fuel DBRACKET st1 = Done tt st2 ->
     ParseNegatedFactor ReadWord BoolId LookupKind StaticEval regex_parse
                        fuel st2 = Done B st3 ->
     is_and_id (op_id st3) ->
     _Next ReadWord BoolId LookupKind fuel DBRACKET st3 = Done tt st4 ->
     ParseNegatedFactor ReadWord BoolId LookupKind StaticEval regex_parse
                        fuel st4 = Done C st5 ->
     ~ is_and_id (op_id st5) ->
     ParseTerm ReadWord BoolId LookupKind StaticEval regex_parse fuel' st0
     = Done (LogicalAnd A (LogicalAnd B C)) st5) /\
  (forall st1 st2 st3 st4 st5 A B C,
     ParseTerm ReadWord BoolId LookupKind StaticEval regex_parse
               fuel st0 = Done A st1 ->
     is_or_id (op_id st1) ->
     _Next ReadWord BoolId LookupKind fuel DBRACKET st1 = Done tt st2 ->
     ParseTerm ReadWord BoolId LookupKind StaticEval regex_parse
               fuel st2 = Done B st3 ->
     is_or_id (op_id st3) ->
     _Next ReadWord BoolId LookupKind fuel DBRACKET st3 = Done tt st4 ->
     ParseTerm ReadWord BoolId LookupKind StaticEval regex_parse
               fuel st4 = Done C st5 ->
     ~ is_or_id (op_id st5) ->
     ParseExpr ReadWord BoolId LookupKind StaticEval regex_parse fuel' st0
     = Done (LogicalOr A (LogicalOr B C)) st5).
Proof.
  intros Hfuel.
  assert (H0 : (fuel <= fuel)%nat) by lia.
  assert (H1 : (fuel <= S fuel)%nat) by lia.
  assert (H2 : (fuel <= S (S fuel))%nat) by lia.
  assert (H3 : (S (S (S fuel)) <= fuel')%nat) by lia.
  destruct (Parse_mono ReadWord BoolId LookupKind StaticEval regex_parse
              fuel) as (_ & Ht & Hn & _).
  destruct (Parse_mono ReadWord BoolId LookupKind StaticEval regex_parse
              (S (S (S fuel)))) as (He3 & Ht3 & _).
  split.
  - intros st1 st2 st3 st4 st5 A B C HA Ha1 N1 HB Ha3 N3 HC Hn5.
    apply (Ht3 fuel' _ _ _ H3).
    rewrite ParseTerm_eq. rewrite (Hn (S (S fuel)) _ _ _ H2 HA).
    cbn [pbind]. rewrite (is_and_id_true _ Ha1).
    rewrite (Next_mono _ _ _ _ (S (S fuel)) _ _ _ _ H2 N1). cbn [pbind].
    rewrite ParseTerm_eq. rewrite (Hn (S fuel) _ _ _ H1 HB).
    cbn [pbind]. rewrite (is_and_id_true _ Ha3).
    rewrite (Next_mono _ _ _ _ (S fuel) _ _ _ _ H1 N3). cbn [pbind].
    rewrite ParseTerm_eq. rewrite HC. cbn [pbind].
    by rewrite (is_and_id_false LookupKind _ Hn5).
  - intros st1 st2 st3 st4 st5 A B C HA Ho1 N1 HB Ho3 N3 HC Hn5.
    apply (He3 fuel' _ _ _ H3).
    rewrite ParseExpr_eq. rewrite (Ht (S (S fuel)) _ _ _ H2 HA).
    cbn [pbind]. rewrite (is_or_id_true _ Ho1).
    rewrite (Next_mono _ _ _ _ (S (S fuel)) _ _ _ _ H2 N1). cbn [pbind].
    rewrite ParseExpr_eq. rewrite (Ht (S fuel) _ _ _ H1 HB).
    cbn [pbind]. rewrite (is_or_id_true _ Ho3).
    rewrite (Next_mono _ _ _ _ (S fuel) _ _ _ _ H1 N3). cbn [pbind].
    rewrite ParseExpr_eq. rewrite HC. cbn [pbind].
    by rewrite (is_or_id_false LookupKind _ Hn5).
Qed.

(** Parentheses leave no trace in the tree: [( expr )] is a factor whose
    node is the node of [expr]; and when the expression inside is not
    followed by [)], the parse fails. *)
Theorem ParseFactor_parentheses (fuel fuel' : nat) (st0 st1 st2 : pstate)
    (node : bool_expr) :
  (fuel < fuel')%nat ->
  b_kind st0 <> Kind_BoolUnary ->
  b_kind st0 <> Kind_Word ->
  op_id st0 = Op_LParen ->
  _Next ReadWord BoolId LookupKind fuel DBRACKET st0 = Done tt st1 ->
  ParseExpr ReadWord BoolId LookupKind StaticEval regex_parse fuel st1
  = Done node st2 ->
  (forall st3,
     op_id st2 = Op_RParen ->
     _Next ReadWord BoolId LookupKind fuel DBRACKET st2 = Done tt st3 ->
     ParseFactor ReadWord BoolId LookupKind StaticEval regex_parse fuel' st0
     = Done node st3) /\
  (op_id st2 <> Op_RParen ->
   ParseFactor ReadWord BoolId LookupKind StaticEval regex_parse fuel' st0
   = Fail (ParseError "Expected ), got %s")).
Proof.
  intros Hfuel Hk1 Hk2 Hop N0 HE.
  destruct fuel' as [| fuel']; [lia |].
  assert (Hle : (fuel <= fuel')%nat) by lia.
  destruct (Parse_mono ReadWord BoolId LookupKind StaticEval regex_parse
              fuel) as (He & _).
  assert (Hhead :
    ParseFactor ReadWord BoolId LookupKind StaticEval regex_parse
                (S fuel') st0
    = if bool_decide (op_id st2 <> Op_RParen)
      then p_die "Expected ), got %s"
      else pbind (_Next ReadWord BoolId LookupKind fuel' DBRACKET st2)
             (fun _ st => Done node st)).
  { rewrite ParseFactor_eq.
    rewrite !bool_decide_eq_false_2 by done.
    rewrite bool_decide_eq_true_2 by done.
    rewrite (Next_mono _ _ _ _ _ _ _ _ _ Hle N0). cbn [pbind].
    by rewrite (He _ _ _ _ Hle HE). }
  rewrite Hhead. split.
  - intros st3 Hr N2. rewrite bool_decide_eq_false_2 by (intros H; by apply H).
    by rewrite (Next_mono _ _ _ _ _ _ _ _ _ Hle N2).
  - intros Hr. by rewrite bool_decide_eq_true_2.
Qed.

(** A unary operator takes the next word as its operand, whatever that
    word is: no check is made that it is an operand. *)
Theorem ParseFactor_unary (fuel : nat) (wp wp1 wp2 : WP) (op w t : word) :
  LookupKind (BoolId op) = Kind_BoolUnary ->
  ReadWord wp DBRACKET = Ok (w, wp1) ->
  BoolId w <> Op_Newline ->
  ReadWord wp1 DBRACKET = Ok (t, wp2) ->
  BoolId t <> Op_Newline ->
  ParseFactor ReadWord BoolId LookupKind StaticEval regex_parse
              (S (S fuel)) (at_word BoolId LookupKind wp op)
  = Done (BoolUnary (BoolId op) w) (at_word BoolId LookupKind wp2 t).
Proof.
  intros Hk R1 Hw R2 Ht.
  rewrite ParseFactor_eq.
  change (b_kind (at_word BoolId LookupKind wp op))
    with (LookupKind (BoolId op)).
  rewrite bool_decide_eq_true_2 by done.
  rewrite (Next_read_at_word _ _ _ _ _ _ _ _ R1 Hw). cbn [pbind].
  unfold get_cur_word at 1. cbn [at_word cur_word pbind].
  by rewrite (Next_read_at_word _ _ _ _ _ _ _ _ R2 Ht).
Qed.

(** A word followed by a binary test operator (or a redirection operator,
    punned as one) is a binary test on the word after it.  After the regex
    operator that word is read in [BASH_REGEX] mode, and when it is
    statically known and is not a valid regex the parse fails; after any
    other operator it is read in [DBRACKET] mode. *)
Theorem ParseFactor_binary (fuel : nat) (wp wp1 wp2 wp3 : WP)
    (l op r t : word) :
  LookupKind (BoolId l) = Kind_Word ->
  ReadWord wp DBRACKET = Ok (op, wp1) ->
  LookupKind (BoolId op) = Kind_BoolBinary \/
  LookupKind (BoolId op) = Kind_Redir ->
  BoolId op <> Op_Newline ->
  BoolId r <> Op_Newline ->
  ReadWord wp2 DBRACKET = Ok (t, wp3) ->
  BoolId t <> Op_Newline ->
  let run :=
    ParseFactor ReadWord BoolId LookupKind StaticEval regex_parse
                (S (S fuel)) (at_word BoolId LookupKind wp l) in
  let node := BoolBinary (BoolId op) l r in
  (BoolId op <> BoolBinary_EqualTilde ->
   ReadWord wp1 DBRACKET = Ok (r, wp2) ->
   run = Done node (at_word BoolId LookupKind wp3 t)) /\
  (BoolId op = BoolBinary_EqualTilde ->
   ReadWord wp1 BASH_REGEX = Ok (r, wp2) ->
   forall ok pat quoted,
     StaticEval r = (ok, pat, quoted) ->
     run = if ok && negb (regex_parse pat)
           then Fail (ParseError "Error parsing regex %r: %s")
           else Done node (at_word BoolId LookupKind wp3 t)).
Proof.
  intros Hl R0 Hop Hopnl Hrnl R2 Htnl run node. subst run node.
  assert (Hhead :
    ParseFactor ReadWord BoolId LookupKind StaticEval regex_parse
                (S (S fuel)) (at_word BoolId LookupKind wp l)
    = pbind (_Next ReadWord BoolId LookupKind (S fuel)
                   (if bool_decide (BoolId op = BoolBinary_EqualTilde)
                    then BASH_REGEX else DBRACKET)
                   (at_word BoolId LookupKind wp1 op))
        (fun _ st =>
         pbind (get_cur_word st) (fun right st =>
         pbind (if bool_decide (BoolId op = BoolBinary_EqualTilde)
                then check_regex StaticEval regex_parse right st
                else Done tt st)
           (fun _ st =>
         pbind (_Next ReadWord BoolId LookupKind (S fuel) DBRACKET st)
           (fun _ st => Done (BoolBinary (BoolId op) l right) st))))).
  { rewrite ParseFactor_eq.
    change (b_kind (at_word BoolId LookupKind wp l))
      with (LookupKind (BoolId l)).
    rewrite bool_decide_eq_false_2 by congruence.
    rewrite bool_decide_eq_true_2 by done.
    unfold _LookAhead, read_word. cbn [at_word words w_parser].
    rewrite R0.
    cbn [pbind words w_parser cur_word op_id b_kind app].
    assert (Hb : bool_decide (LookupKind (BoolId op) = Kind_BoolBinary)
                 || bool_decide (LookupKind (BoolId op) = Kind_Redir)
                 = true).
    { destruct Hop as [Hop | Hop].
      - by rewrite (bool_decide_eq_true_2 _ Hop).
      - rewrite (bool_decide_eq_true_2 _ Hop). by rewrite orb_true_r. }
    rewrite Hb. unfold get_cur_word at 1.
    cbn [at_word cur_word op_id b_kind pbind].
    rewrite Next_shift by done. reflexivity. }
  rewrite Hhead. split.
  - intros Hne R1. rewrite !bool_decide_eq_false_2 by done.
    rewrite (Next_read_at_word _ _ _ _ _ _ _ _ R1 Hrnl). cbn [pbind].
    unfold get_cur_word at 1. cbn [at_word cur_word pbind].
    by rewrite (Next_read_at_word _ _ _ _ _ _ _ _ R2 Htnl).
  - intros He R1 ok pat quoted HS. rewrite !bool_decide_eq_true_2 by done.
    assert (N1 : _Next ReadWord BoolId LookupKind (S fuel) BASH_REGEX
                   (at_word BoolId LookupKind wp1 op)
                 = Done tt (at_word BoolId LookupKind wp2 r)).
    { cbn [_Next]. unfold _NextOne, read_word.
      cbn [at_word words w_parser]. rewrite R1.
      cbn [pbind classify w_parser op_id].
      by rewrite bool_decide_eq_true_2. }
    rewrite N1. cbn [pbind].
    unfold get_cur_word at 1. cbn [at_word cur_word pbind].
    unfold check_regex. rewrite HS.
    destruct (ok && negb (regex_parse pat)); [done |].
    cbn [pbind].
    by rewrite (Next_read_at_word _ _ _ _ _ _ _ _ R2 Htnl).
Qed.

End ParserForms.

Section ParserEdges.
Import BoolParse.
Context {word WP : Type}.
Variable ReadWord : WP -> lex_mode_e -> result (word * WP).
Variable BoolId : word -> Id.
Variable LookupKind : Id -> Kind.
Variable StaticEval : word -> bool * string * bool.
Variable regex_parse : string -> bool.

Lemma Next_over_newlines (nls : list word) : forall fuel wp wp' w st,
  Forall (fun n => BoolId n = Op_Newline) nls ->
  reads ReadWord wp (nls ++ [w]) wp' ->
  BoolId w <> Op_Newline ->
  w_parser st = wp ->
  (words st = [] \/ exists w0, words st = [w0]) ->
  (length nls < fuel)%nat ->
  _Next ReadWord BoolId LookupKind fuel DBRACKET st
  = Done tt (at_word BoolId LookupKind wp' w).
Proof.
  induction nls as [| n nls IH]; intros fuel wp wp' w st Hnl R Hw Hwp Hws Hf;
    (destruct fuel as [| fuel]; [simpl in Hf; lia |]);
    destruct st as [wp0 ws cur op k]; simpl in Hwp, Hws; subst wp0.
  - destruct R as (wp1 & R & <-). by apply Next_read.
  - destruct R as (wp1 & R1 & R).
    apply Forall_cons in Hnl as [Hn Hnl].
    assert (Hone :
      _NextOne ReadWord BoolId LookupKind DBRACKET (PState wp ws cur op k)
      = Done tt (at_word BoolId LookupKind wp1 n)).
    { unfold _NextOne, read_word.
      destruct Hws as [-> | [w0 ->]]; cbn [words w_parser]; by rewrite R1. }
    cbn [_Next]. rewrite Hone. cbn [pbind].
    change (op_id (at_word BoolId LookupKind wp1 n)) with (BoolId n).
    rewrite bool_decide_eq_false_2 by (intros H; by apply H).
    apply (IH fuel wp1 wp' w); try done.
    + right. by eexists.
    + simpl in Hf. lia.
Qed.

(** With no word read ahead, advancing depends on the word parser
    alone. *)
Lemma NextOne_short mode (st st2 : pstate (word:=word) (WP:=WP)) :
  w_parser st = w_parser st2 ->
  (words st = [] \/ exists w0, words st = [w0]) ->
  (words st2 = [] \/ exists w0, words st2 = [w0]) ->
  _NextOne ReadWord BoolId LookupKind mode st
  = _NextOne ReadWord BoolId LookupKind mode st2.
Proof.
  intros Hwp H1 H2. unfold _NextOne, read_word. rewrite Hwp.
  destruct H1 as [-> | [w1 ->]], H2 as [-> | [w2 ->]];
    by destruct (ReadWord (w_parser st2) mode) as [[w wp'] |].
Qed.

Lemma Next_short fuel mode (st st2 : pstate (word:=word) (WP:=WP)) :
  w_parser st = w_parser st2 ->
  (words st = [] \/ exists w0, words st = [w0]) ->
  (words st2 = [] \/ exists w0, words st2 = [w0]) ->
  _Next ReadWord BoolId LookupKind fuel mode st
  = _Next ReadWord BoolId LookupKind fuel mode st2.
Proof.
  intros Hwp H1 H2. destruct fuel as [| fuel]; [done |].
  cbn [_Next]. by rewrite (NextOne_short mode st st2).
Qed.

Lemma Next_after_newlines (nls : list word) : forall fuel wp wp1 st st1,
  Forall (fun n => BoolId n = Op_Newline) nls ->
  reads ReadWord wp nls wp1 ->
  w_parser st = wp ->
  (words st = [] \/ exists w0, words st = [w0]) ->
  _Next ReadWord BoolId LookupKind fuel DBRACKET (init wp1) = Done tt st1 ->
  _Next ReadWord BoolId LookupKind (fuel + length nls) DBRACKET st
  = Done tt st1.
Proof.
  induction nls as [| n nls IH]; intros fuel wp wp1 st st1 Hnl R Hwp Hws H.
  - simpl in R. subst wp1. rewrite Nat.add_0_r.
    rewrite (Next_short fuel DBRACKET st (init wp)); [done | done | done |].
    by left.
  - destruct R as (wp2 & R2 & R).
    apply Forall_cons in Hnl as [Hn Hnl].
    replace (fuel + length (n :: nls))%nat
      with (S (fuel + length nls)) by (simpl; lia).
    assert (Hone :
      _NextOne ReadWord BoolId LookupKind DBRACKET st
      = Done tt (at_word BoolId LookupKind wp2 n)).
    { unfold _NextOne, read_word. rewrite Hwp.
      destruct Hws as [-> | [w0 ->]]; by rewrite R2. }
    cbn [_Next]. rewrite Hone. cbn [pbind].
    change (op_id (at_word BoolId LookupKind wp2 n)) with (BoolId n).
    rewrite bool_decide_eq_false_2 by (intros Hc; by apply Hc).
    apply (IH fuel wp2 wp1); try done.
    right. by eexists.
Qed.

(** Newlines are skipped wherever the parser advances, so newlines before
    an expression do not change what [Parse] returns. *)
Theorem Parse_skips_leading_newlines
    (fuel : nat) (nls : list word) (wp wp1 : WP) (node : bool_expr)
    (st' : pstate) :
  Forall (fun n => BoolId n = Op_Newline) nls ->
  reads ReadWord wp nls wp1 ->
  Parse ReadWord BoolId LookupKind StaticEval regex_parse fuel (init wp1)
  = Done node st' ->
  Parse ReadWord BoolId LookupKind StaticEval regex_parse
        (fuel + length nls) (init wp)
  = Done node st'.
Proof.
  intros Hnl R H. unfold Parse in *.
  apply pbind_Done_inv in H as ([] & st1 & H1 & H).
  apply pbind_Done_inv in H as (n & st2 & H2 & H).
  assert (Hle : (fuel <= fuel + length nls)%nat) by lia.
  rewrite (Next_after_newlines nls fuel wp wp1 (init wp) st1 Hnl R eq_refl
             (or_introl eq_refl) H1).
  cbn [pbind].
  destruct (Parse_mono ReadWord BoolId LookupKind StaticEval regex_parse
              fuel) as (He & _).
  rewrite (He _ _ _ _ Hle H2). cbn [pbind]. exact H.
Qed.

(** An expression cannot start with a token that is neither [!], [(], a
    unary operator nor a word: with nothing between the brackets, or with
    an operator first, the parse fails. *)
Theorem Parse_unexpected_first_token
    (fuel : nat) (wp wp1 : WP) (w : word) :
  ReadWord wp DBRACKET = Ok (w, wp1) ->
  BoolId w <> Op_Newline ->
  BoolId w <> KW_Bang ->
  BoolId w <> Op_LParen ->
  LookupKind (BoolId w) <> Kind_BoolUnary ->
  LookupKind (BoolId w) <> Kind_Word ->
  (4 <= fuel)%nat ->
  Parse ReadWord BoolId LookupKind StaticEval regex_parse fuel (init wp)
  = Fail (ParseError "Unexpected token in boolean expression").
Proof.
  intros R Hnl Hbang Hparen Hu Hw Hfuel.
  do 4 (destruct fuel as [| fuel]; [lia |]).
  unfold Parse, init.
  rewrite (Next_read _ _ _ _ _ _ _ _ _ w wp1); [| by left | done | done].
  cbn [pbind].
  rewrite ParseExpr_eq, ParseTerm_eq, ParseNegatedFactor_eq, ParseFactor_eq.
  change (op_id (at_word BoolId LookupKind wp1 w)) with (BoolId w).
  change (b_kind (at_word BoolId LookupKind wp1 w))
    with (LookupKind (BoolId w)).
  by rewrite !bool_decide_eq_false_2 by done.
Qed.

End ParserEdges.

(** ** The parser theorems on sample word streams *)

Lemma Parse_ends_on_sentinel_witness :
  BoolParse.op_id
    (BoolParse.at_word Samples.BoolId Samples.LookupKind ([] : list string) "]]")
  = Lit_DRightBracket /\
  BoolParse.settled Samples.BoolId Samples.LookupKind
    (BoolParse.at_word Samples.BoolId Samples.LookupKind ([] : list string) "]]").
Proof.
  apply (proj1 (Parse_ends_on_sentinel Samples.ReadWord Samples.BoolId
                  Samples.LookupKind Samples.StaticEval Samples.regex_parse
                  6 ["a"; "&&"; "b"; "]]"]
                  (BoolParse.LogicalAnd (BoolParse.WordTest "a")
                                        (BoolParse.WordTest "b"))
                  _)).
  reflexivity.
Defined.

Lemma Parse_right_associative_witness :
  BoolParse.ParseTerm Samples.ReadWord Samples.BoolId Samples.LookupKind
    Samples.StaticEval Samples.regex_parse 6
    (BoolParse.at_word Samples.BoolId Samples.LookupKind
       ["&&"; "b"; "&&"; "c"; "]]"] "a")
  = BoolParse.Done
      (BoolParse.LogicalAnd (BoolParse.WordTest "a")
         (BoolParse.LogicalAnd (BoolParse.WordTest "b")
                               (BoolParse.WordTest "c")))
      (BoolParse.at_word Samples.BoolId Samples.LookupKind [] "]]") /\
  BoolParse.ParseExpr Samples.ReadWord Samples.BoolId Samples.LookupKind
    Samples.StaticEval Samples.regex_parse 7
    (BoolParse.at_word Samples.BoolId Samples.LookupKind
       ["||"; "b"; "||"; "c"; "]]"] "a")
  = BoolParse.Done
      (BoolParse.LogicalOr (BoolParse.WordTest "a")
         (BoolParse.LogicalOr (BoolParse.WordTest "b")
                              (BoolParse.WordTest "c")))
      (BoolParse.at_word Samples.BoolId Samples.LookupKind [] "]]").
Proof.
  assert (H3 : (3 + 3 <= 6)%nat) by lia.
  assert (H4 : (4 + 3 <= 7)%nat) by lia.
  split.
  - eapply (proj1 (Parse_right_associative Samples.ReadWord Samples.BoolId
                     Samples.LookupKind Samples.StaticEval
                     Samples.regex_parse 3 6 _ H3)).
    + reflexivity.
    + left; reflexivity.
    + reflexivity.
    + reflexivity.
    + left; reflexivity.
    + reflexivity.
    + reflexivity.
    + intros [H | H]; discriminate H.
  - eapply (proj2 (Parse_right_associative Samples.ReadWord Samples.BoolId
                     Samples.LookupKind Samples.StaticEval
                     Samples.regex_parse 4 7 _ H4)).
    + reflexivity.
    + left; reflexivity.
    + reflexivity.
    + reflexivity.
    + left; reflexivity.
    + reflexivity.
    + reflexivity.
    + intros [H | H]; discriminate H.
Defined.

Lemma ParseFactor_parentheses_witness :
  BoolParse.ParseFactor Samples.ReadWord Samples.BoolId Samples.LookupKind
    Samples.StaticEval Samples.regex_parse 6
    (BoolParse.at_word Samples.BoolId Samples.LookupKind
       ["a"; ")"; "]]"] "(")
  = BoolParse.Done (BoolParse.WordTest "a")
      (BoolParse.at_word Samples.BoolId Samples.LookupKind [] "]]").
Proof.
  assert (Hf : (5 < 6)%nat) by lia.
  pose proof (ParseFactor_parentheses Samples.ReadWord Samples.BoolId
                Samples.LookupKind Samples.StaticEval Samples.regex_parse
                5 6
                (BoolParse.at_word Samples.BoolId Samples.LookupKind
                   ["a"; ")"; "]]"] "(")
                (BoolParse.at_word Samples.BoolId Samples.LookupKind
                   [")"; "]]"] "a")
                (BoolParse.at_word Samples.BoolId Samples.LookupKind
                   ["]]"] ")")
                (BoolParse.WordTest "a") Hf
                ltac:(discriminate) ltac:(discriminate)
                eq_refl eq_refl eq_refl) as [H _].
  apply H; reflexivity.
Defined.

(** [-z ]]]: the closing bracket is taken as the operand. *)
Lemma ParseFactor_unary_witness :
  BoolParse.ParseFactor Samples.ReadWord Samples.BoolId Samples.LookupKind
    Samples.StaticEval Samples.regex_parse 2
    (BoolParse.at_word Samples.BoolId Samples.LookupKind ["]]"; "]]"] "-z")
  = BoolParse.Done (BoolParse.BoolUnary (Id_other 1) "]]")
      (BoolParse.at_word Samples.BoolId Samples.LookupKind [] "]]").
Proof.
  apply (ParseFactor_unary Samples.ReadWord Samples.BoolId
           Samples.LookupKind Samples.StaticEval Samples.regex_parse
           0 ["]]"; "]]"] ["]]"] [] "-z" "]]" "]]");
    try reflexivity; discriminate.
Defined.

(** [a == b ]]] and [a =~ b ]]]. *)
Lemma ParseFactor_binary_witness :
  BoolParse.ParseFactor Samples.ReadWord Samples.BoolId Samples.LookupKind
    Samples.StaticEval Samples.regex_parse 2
    (BoolParse.at_word Samples.BoolId Samples.LookupKind
       ["=="; "b"; "]]"] "a")
  = BoolParse.Done (BoolParse.BoolBinary (Id_other 2) "a" "b")
      (BoolParse.at_word Samples.BoolId Samples.LookupKind [] "]]") /\
  BoolParse.ParseFactor Samples.ReadWord Samples.BoolId Samples.LookupKind
    Samples.StaticEval Samples.regex_parse 2
    (BoolParse.at_word Samples.BoolId Samples.LookupKind
       ["=~"; "b"; "]]"] "a")
  = BoolParse.Done (BoolParse.BoolBinary BoolBinary_EqualTilde "a" "b")
      (BoolParse.at_word Samples.BoolId Samples.LookupKind [] "]]").
Proof.
  split.
  - apply (proj1 (ParseFactor_binary Samples.ReadWord Samples.BoolId
                    Samples.LookupKind Samples.StaticEval
                    Samples.regex_parse 0 ["=="; "b"; "]]"] ["b"; "]]"]
                    ["]]"] [] "a" "==" "b" "]]"
                    eq_refl eq_refl (or_introl eq_refl)
                    ltac:(discriminate) ltac:(discriminate) eq_refl
                    ltac:(discriminate)));
      [discriminate | reflexivity].
  - apply (proj2 (ParseFactor_binary Samples.ReadWord Samples.BoolId
                    Samples.LookupKind Samples.StaticEval
                    Samples.regex_parse 0 ["=~"; "b"; "]]"] ["b"; "]]"]
                    ["]]"] [] "a" "=~" "b" "]]"
                    eq_refl eq_refl (or_introl eq_refl)
                    ltac:(discriminate) ltac:(discriminate) eq_refl
                    ltac:(discriminate)) eq_refl eq_refl true "b" false
                  eq_refl).
Defined.

(** Two newlines before [a ]]]. *)
Lemma Parse_skips_leading_newlines_witness :
  BoolParse.Parse Samples.ReadWord Samples2.BoolId Samples.LookupKind
    Samples.StaticEval Samples.regex_parse (5 + 2)
    (BoolParse.init [String "010" ""; String "010" ""; "a"; "]]"])
  = BoolParse.Done (BoolParse.WordTest "a")
      (BoolParse.at_word Samples2.BoolId Samples.LookupKind [] "]]").
Proof.
  apply (Parse_skips_leading_newlines Samples.ReadWord Samples2.BoolId
           Samples.LookupKind Samples.StaticEval Samples.regex_parse
           5 [String "010" ""; String "010" ""]
           [String "010" ""; String "010" ""; "a"; "]]"] ["a"; "]]"]).
  - repeat constructor.
  - simpl. repeat (eexists; split; [reflexivity |]). reflexivity.
  - reflexivity.
Defined.

(** [[[ ]]] with nothing inside. *)
Lemma Parse_unexpected_first_token_witness :
  BoolParse.Parse Samples.ReadWord Samples.BoolId Samples.LookupKind
    Samples.StaticEval Samples.regex_parse 4 (BoolParse.init ["]]"])
  = BoolParse.Fail (ParseError "Unexpected token in boolean expression").
Proof.
  apply (Parse_unexpected_first_token Samples.ReadWord Samples.BoolId
           Samples.LookupKind Samples.StaticEval Samples.regex_parse
           4 ["]]"] [] "]]");
    try reflexivity; try discriminate; lia.
Defined.


(** ** [getopts]: the parsed spec, a successful step, the cache *)

Section GetOptsMore.
Import GetOpts.
Context {Mem : Type}.
Variable GetArgNum : Mem -> Z -> value.
Variable GetVar : Mem -> string -> value.
Variable SetGlobalString : Mem -> string -> string -> result Mem.
Variable int_of_str : string -> option Z.

(** Every key that parsing adds to a spec is a dash and one character. *)
Lemma parse_opt_spec_keys (n : nat) : forall s spec key,
  (String.length s <= n)%nat ->
  is_Some (parse_opt_spec s spec !! key) ->
  (exists c, key = String "-" (String c "")) \/ is_Some (spec !! key).
Proof.
  induction n as [| n IH]; intros s spec key Hlen H.
  - destruct s; [by right | simpl in Hlen; lia].
  - destruct s as [| c rest]; [by right |].
    cbn [parse_opt_spec] in H. cbn [String.length] in Hlen.
    set (key0 := String "-" (String c "")) in *.
    assert (Hins : forall b (m : gmap string bool),
              is_Some (<[key0 := b]> m !! key) ->
              (exists c, key = String "-" (String c "")) \/ is_Some (m !! key)).
    { intros b m Hm. destruct (decide (key0 = key)) as [<- | Hne].
      - left. by exists c.
      - right. by rewrite lookup_insert_ne in Hm. }
    destruct rest as [| d rest'].
    + by apply (Hins false).
    + cbn [String.length] in Hlen.
      destruct (Ascii.eqb d ":").
      * apply IH in H; [| lia].
        destruct H as [H | H]; [by left |].
        apply Hins in H as [H | H]; [by left |]. by apply (Hins false).
      * apply IH in H; [| simpl; lia].
        destruct H as [H | H]; [by left |]. by apply (Hins false).
Qed.

Lemma ParseOptSpec_key_shape spec_str key :
  is_Some (_ParseOptSpec spec_str !! key) ->
  exists c, key = String "-" (String c "").
Proof.
  intros H. unfold _ParseOptSpec in H.
  apply (parse_opt_spec_keys (String.length spec_str)) in H; [| lia].
  destruct H as [H | H]; [done |].
  rewrite lookup_empty in H. by destruct H.
Qed.

(** The three assignments that end [GetOpts], one after the other. *)
Lemma set_results_chain {A : Type} (mem : Mem)
    (var_name opt_char optarg : string) (optind : Z) (k : Mem -> result A) :
  (let* mem' :=
     set_results SetGlobalString mem var_name opt_char optarg optind in
   k mem')
  = (let* mem1 := SetGlobalString mem var_name opt_char in
     let* mem2 := SetGlobalString mem1 "OPTARG" optarg in
     let* mem3 := SetGlobalString mem2 "OPTIND" (str_of_int optind) in
     k mem3).
Proof.
  unfold set_results.
  destruct (SetGlobalString mem var_name opt_char) as [mem1 |]; [| done].
  cbn [bind].
  destruct (SetGlobalString mem1 "OPTARG" optarg) as [mem2 |]; [| done].
  reflexivity.
Qed.

Lemma cached_spec_coherent cache spec_str :
  coherent cache -> cached_spec cache spec_str = _ParseOptSpec spec_str.
Proof.
  intros Hc. unfold cached_spec.
  destruct (cache !! spec_str) as [spec |] eqn:E; [by apply Hc | done].
Qed.

(** With a cache whose entries are parsed specs, an argument that starts
    with a dash and is not a dash and one character (bundled options as in
    [-ab], a lone [-], long options as in [--all]) is never in the spec:
    the option variable is set to [?], then [OPTARG] to the empty string
    and [OPTIND] to one more, and the status is 0. *)
Theorem GetOpts_only_single_letter_options
    (spec_str var_name : string) (rest : list string) (mem : Mem)
    (cache : gmap string (gmap string bool)) (s : string) (optind : Z)
    (current : string) :
  coherent cache ->
  GetVar mem "OPTIND" = Str s ->
  int_of_str s = Some optind ->
  GetArgNum mem optind = Str current ->
  startswith_char "-" current = true ->
  String.length current <> 2%nat ->
  GetOpts GetArgNum GetVar SetGlobalString int_of_str
          (spec_str :: var_name :: rest) mem cache
  = (let* mem1 := SetGlobalString mem var_name "?" in
     let* mem2 := SetGlobalString mem1 "OPTARG" "" in
     let* mem3 := SetGlobalString mem2 "OPTIND" (str_of_int (optind + 1)) in
     Ok (0, mem3, cache_after cache spec_str (_ParseOptSpec spec_str), [])).
Proof.
  intros Hc Hv Hi Hcur Hdash Hlen.
  unfold GetOpts. rewrite Hv, Hi. rewrite (cached_spec_coherent _ _ Hc).
  unfold _GetOpts. rewrite Hcur, Hdash. cbn [negb].
  destruct (_ParseOptSpec spec_str !! current) as [b |] eqn:E;
    [| apply set_results_chain].
  destruct (ParseOptSpec_key_shape spec_str current) as (c & ->);
    [by rewrite E |].
  by destruct Hlen.
Qed.

(** A recognised option: the option variable is set to its last
    character, then [OPTARG] to the empty string and [OPTIND] to one more;
    when the option takes an argument and one is there, [OPTARG] is set to
    that argument and [OPTIND] to two more. *)
Theorem GetOpts_recognised_option
    (spec_str var_name : string) (rest : list string) (mem : Mem)
    (cache : gmap string (gmap string bool)) (s : string) (optind : Z)
    (current : string) (c : ascii) :
  GetVar mem "OPTIND" = Str s ->
  int_of_str s = Some optind ->
  GetArgNum mem optind = Str current ->
  startswith_char "-" current = true ->
  last_char current = Some c ->
  let spec := cached_spec cache spec_str in
  let run :=
    GetOpts GetArgNum GetVar SetGlobalString int_of_str
            (spec_str :: var_name :: rest) mem cache in
  let finish optarg optind' :=
    let* mem1 := SetGlobalString mem var_name (String c "") in
    let* mem2 := SetGlobalString mem1 "OPTARG" optarg in
    let* mem3 := SetGlobalString mem2 "OPTIND" (str_of_int optind') in
    Ok (0, mem3, cache_after cache spec_str spec, []) in
  (spec !! current = Some false -> run = finish "" (optind + 1)) /\
  (forall optarg,
     spec !! current = Some true ->
     GetArgNum mem (optind + 1) = Str optarg ->
     run = finish optarg (optind + 1 + 1)).
Proof.
  intros Hv Hi Hcur Hdash Hlast spec run finish. subst run finish.
  unfold GetOpts. rewrite Hv, Hi. fold spec.
  unfold _GetOpts. rewrite Hcur, Hdash. cbn [negb].
  split.
  - intros ->. rewrite Hlast. apply set_results_chain.
  - intros optarg -> Hnext. rewrite Hlast. cbv zeta. rewrite Hnext.
    apply set_results_chain.
Qed.

(** The cache is transparent: with a cache whose entries are parsed specs,
    [GetOpts] gives the status, the store and the messages it gives with an
    empty cache, and the cache it leaves is again made of parsed specs and
    holds the spec string. *)
Theorem GetOpts_cache_transparent
    (argv : list string) (mem : Mem)
    (cache : gmap string (gmap string bool)) :
  coherent cache ->
  drop_cache (GetOpts GetArgNum GetVar SetGlobalString int_of_str
                      argv mem cache)
  = drop_cache (GetOpts GetArgNum GetVar SetGlobalString int_of_str
                        argv mem ∅) /\
  forall status mem' cache' errs,
    GetOpts GetArgNum GetVar SetGlobalString int_of_str argv mem cache
    = Ok (status, mem', cache', errs) ->
    coherent cache' /\
    exists spec_str, head argv = Some spec_str /\
      cache' !! spec_str = Some (_ParseOptSpec spec_str).
Proof.
  intros Hc.
  assert (He : coherent (∅ : gmap string (gmap string bool))).
  { intros k sp H. by rewrite lookup_empty in H. }
  destruct argv as [| spec_str [| var_name rest]];
    [split; [done | intros; discriminate]
    | split; [done | intros; discriminate] |].
  unfold GetOpts. cbv beta iota zeta.
  rewrite (cached_spec_coherent cache spec_str Hc).
  rewrite (cached_spec_coherent ∅ spec_str He).
  destruct (GetVar mem "OPTIND") as [| s |];
    [split; [done | intros; discriminate] |
    | split; [done | intros; discriminate]].
  destruct (int_of_str s) as [optind |];
    [| split; [done | intros; discriminate]].
  destruct (_GetOpts GetArgNum (_ParseOptSpec spec_str) mem optind)
    as [[[[[st oc] oa] oi] errs] | e];
    [| split; [done | intros; discriminate]].
  cbn [bind].
  destruct (set_results SetGlobalString mem var_name oc oa oi) as [m' | e];
    [| split; [done | intros; discriminate]].
  cbn [bind]. split; [done |].
  intros status mem' cache' errs' H. injection H as <- <- <- <-.
  unfold cache_after. split.
  - destruct (cache !! spec_str) as [sp |] eqn:E; [done |].
    intros k sp H. destruct (decide (spec_str = k)) as [<- | Hne].
    + rewrite lookup_insert_eq in H. by injection H as <-.
    + rewrite lookup_insert_ne in H by done. by apply Hc.
  - exists spec_str. split; [done |].
    destruct (cache !! spec_str) as [sp |] eqn:E.
    + by rewrite E, (Hc _ _ E).
    + by rewrite lookup_insert_eq.
Qed.

End GetOptsMore.


(** ** Field assembly: fields grow at the end only; plain splitting *)

Section FieldsMore.
Import Fields.

Lemma grows_refl (ps : list string) : grows ps ps.
Proof.
  split; [done |]. intros i l H. exists "".
  by rewrite string_app_empty_r.
Qed.

Lemma grows_snoc (ps : list string) (p : string) : grows ps (ps ++ [p]).
Proof.
  split; [rewrite length_app; lia |]. intros i l H. exists "".
  rewrite string_app_empty_r. split; [| done].
  by apply lookup_app_l_Some.
Qed.

Lemma grows_last (init : list string) (l x : string) :
  grows (init ++ [l]) (init ++ [l +:+ x]).
Proof.
  split; [by rewrite !length_app |]. intros i l0 H.
  destruct (decide (i < length init)%nat) as [Hi | Hi].
  - rewrite lookup_app_l in H by done. exists "".
    rewrite string_app_empty_r. split; [| done].
    by rewrite lookup_app_l.
  - rewrite lookup_app_r in H by lia.
    destruct (i - length init)%nat as [| k] eqn:Hk; [| done].
    injection H as <-. exists x. split.
    + rewrite lookup_app_r by lia. by rewrite Hk.
    + rewrite length_app. simpl. lia.
Qed.

Lemma grows_trans (ps ps' ps'' : list string) :
  grows ps ps' -> grows ps' ps'' -> grows ps ps''.
Proof.
  intros [L1 G1] [L2 G2]. split; [lia |].
  intros i l H.
  destruct (G1 i l H) as (x & H1 & E1).
  destruct (G2 i _ H1) as (y & H2 & E2).
  exists (x +:+ y). rewrite <- string_app_assoc. split; [done |].
  intros Hi. rewrite (E1 Hi), (E2 ltac:(lia)). reflexivity.
Qed.

Lemma append_to_last_grows (ps ps' : list string) (x : string) :
  append_to_last ps x = Ok ps' -> grows ps ps'.
Proof.
  intros H. destruct (decide (ps = [])) as [-> | Hne]; [done |].
  destruct (nonempty_snoc ps Hne) as (init & l & ->).
  rewrite append_to_last_snoc in H. injection H as <-.
  apply grows_last.
Qed.

Lemma step_grows s max st sp st' :
  step s max st sp = Ok st' -> grows (parts st) (parts st').
Proof.
  unfold step. destruct sp as [ty e], st as [ps jn start black]; simpl.
  destruct ty.
  - destruct (jn && negb (bool_decide (ps = []))).
    + destruct (append_to_last ps (slice s start e)) as [ps1 |] eqn:E;
        [| done].
      simpl. intros H. injection H as <-. simpl.
      by eapply append_to_last_grows.
    + simpl. intros H. injection H as <-. simpl. apply grows_snoc.
  - destruct jn.
    + destruct (append_to_last ps (slice s start e)) as [ps1 |] eqn:E;
        [| done].
      simpl. intros H. injection H as <-. simpl.
      by eapply append_to_last_grows.
    + simpl. intros H. injection H as <-. simpl. apply grows_refl.
  - destruct black; simpl; intros H; injection H as <-; simpl;
      apply grows_refl.
Qed.

Lemma loop_grows s max spans : forall st st',
  loop s max spans st = Ok st' -> grows (parts st) (parts st').
Proof.
  induction spans as [| sp spans IH]; intros st st' H.
  - simpl in H. injection H as <-. apply grows_refl.
  - cbn [loop] in H. destruct (step s max st sp) as [st1 |] eqn:E; [| done].
    cbn [bind] in H.
    eapply grows_trans; [by eapply step_grows | by eapply IH].
Qed.

(** Whatever the spans and the state, a call that returns loses no field
    and leaves every field but the last as it was: text is only added at
    the end of the last field, or in new fields after it. *)
Theorem AppendParts_grows (s : string) (spans : list span) (max : Z)
    (jn : bool) (ps ps' : list string) (dn jn' : bool) :
  _AppendParts s spans max jn ps = Ok (ps', dn, jn') ->
  grows ps ps'.
Proof.
  unfold _AppendParts. intros H.
  destruct (loop s max spans (LoopState ps jn 0 false)) as [st |] eqn:E;
    [| done].
  cbn [bind] in H. injection H as <- _ _.
  by apply (loop_grows _ _ _ _ _ E).
Qed.

Lemma count_black_app pre sp :
  count_black (pre ++ [sp]) = (count_black pre + count_black [sp])%nat.
Proof.
  induction pre as [| [[] e] pre IH]; simpl; [done | | |]; by rewrite ?IH.
Qed.

Lemma loop_plain s max : forall spans start acc black,
  Forall (fun sp : span => fst sp <> Backslash) spans ->
  Z.of_nat (length acc) < max ->
  Z.of_nat (length acc + count_black spans) <= max ->
  (Z.of_nat (length acc + count_black spans) = max ->
   exists pre e, spans = pre ++ [(Black, e)]) ->
  exists jn start' black',
    loop s max spans (LoopState acc false start black)
    = Ok (LoopState (acc ++ black_fields s start spans) jn start' black').
Proof.
  induction spans as [| [ty e] spans IH]; intros start acc black Hnb Hlt Hle Hlast.
  - simpl. rewrite app_nil_r. eauto.
  - apply Forall_cons in Hnb as [Hty Hnb]. simpl in Hty.
    destruct ty; [| | done].
    + (* Black *)
      cbn [loop]. unfold step. cbn [parts join_next start_index andb bind].
      cbn [count_black] in Hle, Hlast. cbn [black_fields].
      destruct (Z.geb_spec (Z.of_nat (length (acc ++ [slice s start e]))) max)
        as [Hfull | Hroom]; rewrite length_app in *; simpl in *.
      * assert (Hrest : spans = []).
        { destruct (Hlast ltac:(lia)) as (pre & e' & Heq).
          destruct spans as [| sp spans']; [done |].
          destruct pre as [| p pre]; [done |].
          injection Heq as _ Heq.
          assert (Hc : count_black (sp :: spans') = O) by lia.
          rewrite Heq, count_black_app in Hc. simpl in Hc. lia. }
        subst spans. simpl. eauto.
      * destruct (IH e (acc ++ [slice s start e]) true Hnb) as (jn & st' & b' & ->).
        -- rewrite length_app. simpl. lia.
        -- rewrite length_app. simpl. lia.
        -- rewrite length_app. simpl. intros Hm.
           destruct (Hlast ltac:(lia)) as (pre & e' & Heq).
           destruct pre as [| p pre].
           ++ injection Heq as _ ->. simpl in Hm. lia.
           ++ injection Heq as _ ->. eauto.
        -- rewrite <- app_assoc. simpl. eauto.
    + (* Delim *)
      cbn [loop]. unfold step. cbn [parts join_next start_index bind].
      cbn [count_black] in Hle, Hlast. cbn [black_fields].
      destruct (Z.geb_spec (Z.of_nat (length acc)) max) as [Hfull | Hroom];
        [lia |].
      apply (IH e acc false Hnb Hlt Hle).
      intros Hm. destruct (Hlast Hm) as (pre & e' & Heq).
      destruct pre as [| p pre]; [done |].
      injection Heq as _ ->. eauto.
Qed.

(** Plain splitting: with no Backslash span, room for at least one field
    and no more Black spans than [max_results] (and, when there are exactly
    [max_results], nothing after the last of them), a fresh call returns
    the contents of the Black spans, one field each, in order, and is
    complete. *)
Theorem AppendParts_plain (s : string) (spans : list span) (max : Z) :
  1 <= max ->
  Forall (fun sp : span => fst sp <> Backslash) spans ->
  Z.of_nat (count_black spans) <= max ->
  (Z.of_nat (count_black spans) = max ->
   exists pre e, spans = pre ++ [(Black, e)]) ->
  exists jn,
    _AppendParts s spans max false []
    = Ok (black_fields s 0 spans, true, jn).
Proof.
  intros Hmax Hnb Hle Hlast.
  destruct (loop_plain s max spans 0 [] false Hnb) as (jn & st' & b' & Hloop);
    [simpl; lia | done | done |].
  exists jn. unfold _AppendParts. rewrite Hloop. cbn [bind parts join_next].
  simpl. do 3 f_equal.
  unfold is_done. destruct (last spans) as [[ty e] |] eqn:El; [| done].
  destruct ty; try done.
  apply last_Some in El as (pre & ->).
  apply Forall_app in Hnb as [_ Hnb].
  apply Forall_cons in Hnb as [Hty _]. by destruct Hty.
Qed.

End FieldsMore.


(** ** The [getopts] and field theorems on sample inputs *)

Lemma coherent_empty : GetOpts.coherent ∅.
Proof. intros k sp H. rewrite lookup_empty in H. discriminate. Qed.

Lemma coherent_insert (cache : gmap string (gmap string bool))
    (spec_str : string) :
  GetOpts.coherent cache ->
  GetOpts.coherent (<[spec_str := GetOpts._ParseOptSpec spec_str]> cache).
Proof.
  intros Hc k sp H. destruct (decide (spec_str = k)) as [<- | Hne].
  - rewrite lookup_insert_eq in H. by injection H as <-.
  - rewrite lookup_insert_ne in H by done. by apply Hc.
Qed.

Lemma GetOpts_only_single_letter_options_witness :
  let mem := Samples.Store (<["OPTIND" := Str "1"]> ∅) ["-ab"; "x"] in
  exists mem',
    GetOpts.GetOpts Samples.GetArgNum Samples.GetVar Samples.SetString
      Samples.int_of_str ["ab"; "opt"] mem ∅
    = Ok (0, mem', GetOpts.cache_after ∅ "ab" (GetOpts._ParseOptSpec "ab"),
          []) /\
    Samples.GetVar mem' "opt" = Str "?" /\
    Samples.GetVar mem' "OPTARG" = Str "" /\
    Samples.GetVar mem' "OPTIND" = Str "2".
Proof.
  intros mem.
  rewrite (GetOpts_only_single_letter_options Samples.GetArgNum
             Samples.GetVar Samples.SetString Samples.int_of_str "ab" "opt"
             [] mem ∅ "1" 1 "-ab" coherent_empty eq_refl eq_refl eq_refl
             eq_refl ltac:(discriminate)).
  eexists. split; [reflexivity |]. repeat split; reflexivity.
Defined.

Lemma GetOpts_recognised_option_witness :
  let mem optind :=
    Samples.Store (<["OPTIND" := Str optind]> ∅) ["-a"; "-b"; "val"] in
  let run optind :=
    GetOpts.GetOpts Samples.GetArgNum Samples.GetVar Samples.SetString
      Samples.int_of_str ["ab:"; "opt"] (mem optind) ∅ in
  let cache :=
    GetOpts.cache_after ∅ "ab:" (GetOpts.cached_spec ∅ "ab:") in
  let holds mem' opt optarg optind :=
    Samples.GetVar mem' "opt" = Str opt /\
    Samples.GetVar mem' "OPTARG" = Str optarg /\
    Samples.GetVar mem' "OPTIND" = Str optind in
  (exists mem', run "1" = Ok (0, mem', cache, []) /\ holds mem' "a" "" "2") /\
  (exists mem',
     run "2" = Ok (0, mem', cache, []) /\ holds mem' "b" "val" "4").
Proof.
  intros mem run cache holds. subst run cache holds. cbv beta.
  split.
  - pose proof (GetOpts_recognised_option Samples.GetArgNum Samples.GetVar
                  Samples.SetString Samples.int_of_str "ab:" "opt" []
                  (mem "1") ∅ "1" 1 "-a" "a"
                  eq_refl eq_refl eq_refl eq_refl eq_refl) as [H _].
    rewrite H by reflexivity.
    eexists. split; [reflexivity |]. repeat split; reflexivity.
  - pose proof (GetOpts_recognised_option Samples.GetArgNum Samples.GetVar
                  Samples.SetString Samples.int_of_str "ab:" "opt" []
                  (mem "2") ∅ "2" 2 "-b" "b"
                  eq_refl eq_refl eq_refl eq_refl eq_refl) as [_ H].
    rewrite (H "val") by reflexivity.
    eexists. split; [reflexivity |]. repeat split; reflexivity.
Defined.

Lemma GetOpts_cache_transparent_witness :
  let mem := Samples.Store (<["OPTIND" := Str "1"]> ∅) ["-a"] in
  let cache : gmap string (gmap string bool) :=
    <["ab:" := GetOpts._ParseOptSpec "ab:"]> ∅ in
  GetOpts.drop_cache
    (GetOpts.GetOpts Samples.GetArgNum Samples.GetVar Samples.SetString
       Samples.int_of_str ["ab:"; "opt"] mem cache)
  = GetOpts.drop_cache
      (GetOpts.GetOpts Samples.GetArgNum Samples.GetVar Samples.SetString
         Samples.int_of_str ["ab:"; "opt"] mem ∅).
Proof.
  intros mem cache.
  apply (GetOpts_cache_transparent Samples.GetArgNum Samples.GetVar
           Samples.SetString Samples.int_of_str ["ab:"; "opt"] mem cache
           (coherent_insert ∅ "ab:" coherent_empty)).
Defined.

Lemma AppendParts_grows_witness :
  Fields.grows ["x"] ["x"; "a b"].
Proof.
  apply (AppendParts_grows "a b"
           [(Fields.Black, 1); (Fields.Delim, 2); (Fields.Black, 3)]
           1 false ["x"] ["x"; "a b"] true true).
  reflexivity.
Defined.

Lemma AppendParts_plain_witness :
  exists jn,
    Fields._AppendParts "a b"
      [(Fields.Black, 1); (Fields.Delim, 2); (Fields.Black, 3)] 2 false []
    = Ok (["a"; "b"], true, jn).
Proof.
  apply (AppendParts_plain "a b"
           [(Fields.Black, 1); (Fields.Delim, 2); (Fields.Black, 3)] 2).
  - lia.
  - repeat constructor; discriminate.
  - simpl. lia.
  - intros _. exists [(Fields.Black, 1); (Fields.Delim, 2)], 3. reflexivity.
Defined.


(** ** Dispatch: PATH search, [command -v], [type -t], [unset] *)

Lemma length_omap_le {A B : Type} (f : A -> option B) (l : list A) :
  (length (omap f l) <= length l)%nat.
Proof.
  induction l as [| a l IH]; [done |].
  change (omap f (a :: l))
    with (match f a with Some y => y :: omap f l | None => omap f l end).
  destruct (f a); cbn [length]; lia.
Qed.

Section DispatchMore.
Import Dispatch Builtins.
Context {Func : Type}.
Variable IsOtherBuiltin : string -> bool.
Variable IsKeyword : string -> bool.
Variable path_exists : string -> bool.

Lemma search_path_first (name : string) : forall pre d post,
  Forall (fun p => path_exists (path_join p name) = false) pre ->
  path_exists (path_join d name) = true ->
  search_path path_exists (pre ++ d :: post) name
  = (Some "file", Some (path_join d name)).
Proof.
  induction pre as [| p pre IH]; intros d post Hpre Hd.
  - cbn [app search_path]. by rewrite Hd.
  - apply Forall_cons in Hpre as [Hp Hpre].
    cbn [app search_path]. rewrite Hp. by apply IH.
Qed.

(** What [search_path] can return. *)
Lemma search_path_shape (name : string) : forall pl kind arg,
  search_path path_exists pl name = (kind, arg) ->
  (kind = None /\ arg = None) \/
  (kind = Some "file" /\
   exists d, d ∈ pl /\ arg = Some (path_join d name) /\
             path_exists (path_join d name) = true).
Proof.
  induction pl as [| p pl IH]; intros kind arg H.
  - injection H as <- <-. by left.
  - cbn [search_path] in H.
    destruct (path_exists (path_join p name)) eqn:E.
    + injection H as <- <-. right. split; [done |].
      exists p. split; [apply list_elem_of_here | done].
    + destruct (IH _ _ H) as [? | (? & d & Hd & ?)]; [by left |].
      right. split; [done |]. exists d. split; [| done].
      by apply list_elem_of_further.
Qed.

(** What [resolve_name] can return. *)
Lemma resolve_name_shape (funcs : gmap string Func) (pl : list string)
    (name : string) (kind arg : option string) :
  resolve_name IsOtherBuiltin IsKeyword path_exists funcs pl name
  = (kind, arg) ->
  (kind = None /\ arg = None) \/
  (kind ∈ [Some "function"; Some "builtin"; Some "keyword"] /\
   arg = Some name) \/
  (kind = Some "file" /\
   exists d, d ∈ pl /\ arg = Some (path_join d name) /\
             path_exists (path_join d name) = true).
Proof.
  unfold resolve_name. intros H.
  repeat (case_decide; [injection H as <- <-; right; left;
                        split; [set_solver | done] |]).
  destruct (IsOtherBuiltin name);
    [injection H as <- <-; right; left; split; [set_solver | done] |].
  destruct (IsKeyword name);
    [injection H as <- <-; right; left; split; [set_solver | done] |].
  apply search_path_shape in H. tauto.
Qed.

(** The first directory of [PATH] that holds the name wins: a name that is
    no function, builtin or keyword resolves to the file in the first
    directory of the colon-separated path where it exists. *)
Theorem ResolveNames_path_first_match
    (names : list string) (funcs : gmap string Func) (s : string)
    (i : nat) (name : string) (pre : list string) (d : string)
    (post : list string) :
  names !! i = Some name ->
  funcs !! name = None ->
  Resolve name = NONE ->
  ResolveSpecial name = NONE ->
  IsOtherBuiltin name = false ->
  IsKeyword name = false ->
  split_on ":" s = pre ++ d :: post ->
  Forall (fun p => path_exists (path_join p name) = false) pre ->
  path_exists (path_join d name) = true ->
  _ResolveNames IsOtherBuiltin IsKeyword path_exists names funcs (Str s)
    !! i
  = Some (Some "file", Some (path_join d name)).
Proof.
  intros Hi Hf Hr Hs Hb Hk Hsplit Hpre Hd.
  unfold _ResolveNames. rewrite list_lookup_fmap, Hi. cbn [fmap option_fmap option_map].
  f_equal. unfold resolve_name. rewrite Hf, Hr, Hs, Hb, Hk, Hsplit.
  rewrite decide_False by (intros [? ?]; discriminate).
  rewrite !decide_False by (intros H; by apply H).
  by apply search_path_first.
Qed.

(** Without a string for [PATH] (unset, or an array) no name ever resolves
    to a file. *)
Theorem ResolveNames_no_path_no_file
    (names : list string) (funcs : gmap string Func) (path_val : value) :
  (forall s, path_val <> Str s) ->
  Forall (fun r : resolution => fst r <> Some "file")
         (_ResolveNames IsOtherBuiltin IsKeyword path_exists names funcs
                        path_val).
Proof.
  intros Hp. unfold _ResolveNames. apply Forall_fmap, Forall_forall.
  intros name _. simpl.
  assert (Hpl : match path_val with Str s => split_on ":" s | _ => [] end
                = []) by (destruct path_val; [done | by destruct (Hp s) | done]).
  rewrite Hpl.
  destruct (resolve_name IsOtherBuiltin IsKeyword path_exists funcs [] name)
    as [kind arg] eqn:E.
  apply resolve_name_shape in E as [[-> _] | [[Hk _] | (_ & d & Hd & _)]].
  - done.
  - simpl. intros ->.
    repeat (apply elem_of_cons in Hk as [Hk | Hk]; [discriminate |]).
    by apply elem_of_nil in Hk.
  - by apply elem_of_nil in Hd.
Qed.


(** The loop of [Command]: the status is the one given when every name
    resolved and 1 otherwise, and one line is printed for every resolved
    name. *)
Lemma command_loop_spec : forall (rs : list resolution) (status : Z),
  Forall (fun r : resolution => is_Some (fst r) <-> is_Some (snd r)) rs ->
  exists st,
    command_loop rs status = (st, map Stdout (omap snd rs)) /\
    ((st = status /\ length (omap snd rs) = length rs) \/
     (st = 1 /\ (length (omap snd rs) < length rs)%nat)).
Proof.
  induction rs as [| [kind arg] rs IH]; intros status Hrs.
  - exists status. split; [done |]. by left.
  - apply Forall_cons in Hrs as [Hr Hrs]. simpl in Hr.
    assert (Hle : (length (omap snd rs) <= length rs)%nat)
      by apply length_omap_le.
    destruct kind as [k |].
    + destruct arg as [a |]; [| by destruct (proj1 Hr (mk_is_Some _ _ eq_refl))].
      destruct (IH status Hrs) as (st & Hloop & Hst).
      exists st. cbn [command_loop]. rewrite Hloop.
      change (omap snd ((Some k, Some a) :: rs)) with (a :: omap snd rs).
      cbn [map length print_opt default]. split; [done |]. lia.
    + destruct arg as [a |]; [by destruct (proj2 Hr (mk_is_Some _ _ eq_refl)) |].
      destruct (IH 1 Hrs) as (st & Hloop & Hst).
      exists 1. cbn [command_loop].
      change (omap snd ((None, None) :: rs)) with (omap snd rs).
      cbn [length].
      assert (st = 1) as -> by lia.
      split; [done |]. right. split; [done | lia].
Qed.

Lemma ResolveNames_shape (names : list string) (funcs : gmap string Func)
    (path_val : value) :
  Forall (fun r : resolution =>
            (is_Some (fst r) <-> is_Some (snd r)) /\
            (forall k, fst r = Some k ->
                       k ∈ ["function"; "builtin"; "keyword"; "file"]))
         (_ResolveNames IsOtherBuiltin IsKeyword path_exists names funcs
                        path_val).
Proof.
  unfold _ResolveNames. apply Forall_fmap, Forall_forall.
  intros name _. simpl.
  match goal with
  | |- context [resolve_name _ _ _ _ ?pl _] =>
      destruct (resolve_name IsOtherBuiltin IsKeyword path_exists funcs pl
                             name) as [kind arg] eqn:E
  end.
  apply resolve_name_shape in E
    as [[-> ->] | [[Hk ->] | (-> & d & _ & -> & _)]]; simpl.
  - split; [split; intros [? ?]; discriminate | done].
  - assert (Hin : exists k, kind = Some k /\
                    k ∈ ["function"; "builtin"; "keyword"; "file"]).
    { repeat (apply elem_of_cons in Hk as [-> | Hk];
                [eexists; split; [done |]; repeat constructor |]).
      by apply elem_of_nil in Hk. }
    destruct Hin as (k0 & -> & Hin).
    split; [split; intros _; by eexists |].
    by intros k [= <-].
  - split; [split; intros _; by eexists |].
    intros k [= <-]. repeat constructor.
Qed.

(** [command -v]: a line is printed for every name that resolves, in the
    order of the names, and nothing for the others; the status is 0 when
    every name resolved and 1 otherwise. *)
Theorem Command_v_status_and_output
    (COMMAND_SPEC_Parse : list string -> result ((bool * bool) * nat))
    (argv : list string) (funcs : gmap string Func) (path_val : value)
    (arg_V : bool) (i : nat) :
  COMMAND_SPEC_Parse argv = Ok ((true, arg_V), i) ->
  let rs := _ResolveNames IsOtherBuiltin IsKeyword path_exists
              (skipn i argv) funcs path_val in
  exists st,
    Command IsOtherBuiltin IsKeyword path_exists COMMAND_SPEC_Parse
            argv funcs path_val
    = Ok (st, map Stdout (omap snd rs)) /\
    ((st = 0 /\ length (omap snd rs) = length (skipn i argv)) \/
     (st = 1 /\ (length (omap snd rs) < length (skipn i argv))%nat)).
Proof.
  intros Hparse rs. unfold Command. rewrite Hparse. cbn [bind].
  fold rs.
  destruct (command_loop_spec rs 0) as (st & Hloop & Hst).
  { eapply Forall_impl; [apply ResolveNames_shape |]. by intros r [H _]. }
  exists st. rewrite Hloop. split; [done |].
  assert (Hlen : length rs = length (skipn i argv))
    by (unfold rs, _ResolveNames; apply length_fmap).
  rewrite <- Hlen. done.
Qed.

(** The loop of [Type]. *)
Lemma type_loop_spec : forall (rs : list resolution) (status : Z),
  exists st,
    type_loop rs status = (st, map Stdout (omap fst rs)) /\
    ((st = status /\ length (omap fst rs) = length rs) \/
     (st = 1 /\ (length (omap fst rs) < length rs)%nat)).
Proof.
  induction rs as [| [kind arg] rs IH]; intros status.
  - exists status. split; [done |]. by left.
  - assert (Hle : (length (omap fst rs) <= length rs)%nat)
      by apply length_omap_le.
    destruct kind as [k |].
    + destruct (IH status) as (st & Hloop & Hst).
      exists st. cbn [type_loop]. rewrite Hloop.
      change (omap fst ((Some k, arg) :: rs)) with (k :: omap fst rs).
      cbn [map length]. split; [done |]. lia.
    + destruct (IH 1) as (st & Hloop & Hst).
      exists 1. cbn [type_loop].
      change (omap fst ((None, arg) :: rs)) with (omap fst rs).
      cbn [length].
      assert (st = 1) as -> by lia.
      split; [done |]. right. split; [done | lia].
Qed.

(** [type]: after the warning given when [-t] is missing, one of the words
    function, builtin, keyword and file is printed for every name that
    resolves, in the order of the names, and nothing for the others; the
    status is 0 only with [-t] and every name resolved, and 1 otherwise. *)
Theorem Type_status_and_output
    (TYPE_SPEC_Parse : list string -> result (bool * nat))
    (argv : list string) (funcs : gmap string Func) (path_val : value)
    (arg_t : bool) (i : nat) :
  TYPE_SPEC_Parse argv = Ok (arg_t, i) ->
  let rs := _ResolveNames IsOtherBuiltin IsKeyword path_exists
              (skipn i argv) funcs path_val in
  let warn :=
    if arg_t then []
    else [UtilWarn "*** 'type' builtin called without -t ***"] in
  exists st,
    Type_ IsOtherBuiltin IsKeyword path_exists TYPE_SPEC_Parse
          argv funcs path_val
    = Ok (st, warn ++ map Stdout (omap fst rs)) /\
    Forall (fun k => k ∈ ["function"; "builtin"; "keyword"; "file"])
           (omap fst rs) /\
    ((st = 0 /\ arg_t = true /\
      length (omap fst rs) = length (skipn i argv)) \/
     (st = 1 /\
      (arg_t = false \/
       (length (omap fst rs) < length (skipn i argv))%nat))).
Proof.
  intros Hparse rs warn. unfold Type_. rewrite Hparse. cbn [bind].
  fold rs.
  assert (Hlen : length rs = length (skipn i argv))
    by (unfold rs, _ResolveNames; apply length_fmap).
  assert (Hkinds : Forall (fun k => k ∈ ["function"; "builtin"; "keyword";
                                         "file"]) (omap fst rs)).
  { apply Forall_forall. intros k Hk.
    apply list_elem_of_omap in Hk as (r & Hr & Hfst).
    pose proof (ResolveNames_shape (skipn i argv) funcs path_val) as Hs.
    fold rs in Hs. rewrite Forall_forall in Hs.
    by apply (Hs r Hr). }
  destruct arg_t.
  - destruct (type_loop_spec rs 0) as (st & Hloop & Hst).
    exists st. rewrite Hloop. split; [done |]. split; [done |].
    rewrite <- Hlen. destruct Hst as [[-> ?] | [-> ?]]; [left | right]; tauto.
  - destruct (type_loop_spec rs 1) as (st & Hloop & Hst).
    exists 1. rewrite Hloop.
    assert (st = 1) as -> by lia.
    split; [done |]. split; [done |]. right. tauto.
Qed.

End DispatchMore.

(** The special table resolves nothing that the ordinary table resolves,
    and only names of [_SPECIAL_BUILTINS]. *)
Theorem ResolveSpecial_disjoint (name : string) :
  Dispatch.ResolveSpecial name <> Dispatch.NONE ->
  name ∈ Dispatch._SPECIAL_BUILTINS /\ Dispatch.Resolve name = Dispatch.NONE.
Proof.
  unfold Dispatch.ResolveSpecial. intros H.
  destruct (decide (name = "export")) as [-> | H1];
    [split; [unfold Dispatch._SPECIAL_BUILTINS; set_solver | reflexivity] |].
  destruct (decide (name = "exit")) as [-> | H2];
    [split; [unfold Dispatch._SPECIAL_BUILTINS; set_solver | reflexivity] |].
  destruct (decide (name = ":")) as [-> | H3];
    [split; [unfold Dispatch._SPECIAL_BUILTINS; set_solver | reflexivity] |].
  rewrite (proj2 (String.eqb_neq _ _) H1), (proj2 (String.eqb_neq _ _) H2),
    (proj2 (String.eqb_neq _ _) H3) in H.
  done.
Qed.


(** ** [unset] *)

Section UnsetMore.
Import Dispatch Builtins.
Context {Mem Func : Type}.
Variable IsOtherBuiltin : string -> bool.
Variable IsKeyword : string -> bool.
Variable path_exists : string -> bool.
Variable UNSET_SPEC_Parse : list string -> result ((bool * bool) * nat).
Variable mem_Unset : Mem -> string -> scope_e -> (bool * bool) * Mem.

Lemma del_func_lookup (name k : string) (funcs : gmap string Func) :
  del_func name funcs !! k = if decide (k = name) then None else funcs !! k.
Proof.
  unfold del_func. destruct (decide (k = name)) as [-> | Hne].
  - case_decide as Hin; [by rewrite lookup_delete_eq |].
    by apply eq_None_not_Some.
  - case_decide; [by rewrite lookup_delete_ne |]. done.
Qed.

(** The loop of [Unset] never adds or changes a function; the functions it
    removes are among the names. *)
Lemma unset_names_funcs (arg_v arg_f : bool) :
  forall names mem (funcs : gmap string Func) st mem'
         (funcs' : gmap string Func) o,
  unset_names mem_Unset arg_v arg_f names mem funcs = (st, mem', funcs', o) ->
  (st = 0 \/ st = 1) /\
  forall k, funcs' !! k = funcs !! k \/ (funcs' !! k = None /\ k ∈ names).
Proof.
  induction names as [| name names IH]; intros mem funcs st mem' funcs' o H.
  - injection H as <- _ <- _. split; [by left | by left].
  - assert (Hdel : forall mem1,
              unset_names mem_Unset arg_v arg_f names mem1
                          (del_func name funcs) = (st, mem', funcs', o) ->
              (st = 0 \/ st = 1) /\
              forall k, funcs' !! k = funcs !! k \/
                        (funcs' !! k = None /\ k ∈ name :: names)).
    { intros mem1 H1. destruct (IH _ _ _ _ _ _ H1) as [Hst Hk].
      split; [done |]. intros k.
      destruct (Hk k) as [Heq | [Heq Hin]].
      - rewrite Heq, del_func_lookup.
        destruct (decide (k = name)) as [-> | _].
        + right. split; [done | apply list_elem_of_here].
        + by left.
      - right. split; [done | by apply list_elem_of_further]. }
    assert (Hkeep : forall mem1,
              unset_names mem_Unset arg_v arg_f names mem1 funcs
              = (st, mem', funcs', o) ->
              (st = 0 \/ st = 1) /\
              forall k, funcs' !! k = funcs !! k \/
                        (funcs' !! k = None /\ k ∈ name :: names)).
    { intros mem1 H1. destruct (IH _ _ _ _ _ _ H1) as [Hst Hk].
      split; [done |]. intros k.
      destruct (Hk k) as [Heq | [Heq Hin]]; [by left |].
      right. split; [done | by apply list_elem_of_further]. }
    cbn [unset_names] in H. destruct arg_f; [by apply (Hdel mem) |].
    destruct (mem_Unset mem name Dynamic) as [[ok found] mem1].
    destruct ok; cbn [negb] in H.
    + destruct arg_v; [by apply (Hkeep mem1) |].
      destruct found; cbn [negb] in H;
        [by apply (Hkeep mem1) | by apply (Hdel mem1)].
    + injection H as <- _ <- _. split; [by right | by left].
Qed.

(** [unset] never defines or changes a function: a call that returns has
    status 0 or 1, every function left is a function that was there, and
    every function removed is one of the operands.  With [-v] alone no
    function is removed. *)
Theorem Unset_functions
    (argv : list string) (mem mem' : Mem) (funcs funcs' : gmap string Func)
    (st : Z) (o : list out) :
  Unset UNSET_SPEC_Parse mem_Unset argv mem funcs
  = Ok (st, mem', funcs', o) ->
  exists arg_v arg_f i,
    UNSET_SPEC_Parse argv = Ok ((arg_v, arg_f), i) /\
    (st = 0 \/ st = 1) /\
    (forall k, funcs' !! k = funcs !! k \/
               (funcs' !! k = None /\ k ∈ skipn i argv)) /\
    (arg_v = true -> arg_f = false -> funcs' = funcs).
Proof.
  unfold Unset. intros H.
  destruct (UNSET_SPEC_Parse argv) as [[[arg_v arg_f] i] | e]; [| done].
  cbn [bind] in H. injection H as H.
  exists arg_v, arg_f, i. split; [done |].
  destruct (unset_names_funcs _ _ _ _ _ _ _ _ _ H) as [Hst Hl].
  split; [done |]. split; [done |].
  intros -> ->. clear Hl Hst. revert mem H.
  induction (skipn i argv) as [| name names IH]; intros mem H.
  - by injection H as _ _ <- _.
  - cbn [unset_names] in H.
    destruct (mem_Unset mem name Dynamic) as [[ok found] mem1].
    destruct ok; cbn [negb] in H.
    + by apply (IH mem1).
    + by injection H as _ _ <- _.
Qed.

(** [unset -f] removes exactly the named functions and touches no
    variable: the status is 0, nothing is reported, the store is the one
    given, and afterwards a name is a function when it was one and is not
    an operand; in particular no operand resolves to a function any
    more. *)
Theorem Unset_f_removes_functions
    (argv : list string) (mem : Mem) (funcs : gmap string Func)
    (arg_v : bool) (i : nat) :
  UNSET_SPEC_Parse argv = Ok ((arg_v, true), i) ->
  exists funcs',
    Unset UNSET_SPEC_Parse mem_Unset argv mem funcs
    = Ok (0, mem, funcs', []) /\
    (forall k, funcs' !! k
               = if decide (k ∈ skipn i argv) then None else funcs !! k) /\
    (forall path_val,
       Forall (fun r : resolution => fst r <> Some "function")
              (_ResolveNames IsOtherBuiltin IsKeyword path_exists
                             (skipn i argv) funcs' path_val)).
Proof.
  intros Hparse. unfold Unset. rewrite Hparse. cbn [bind].
  assert (Hloop : forall names (fs : gmap string Func),
            exists fs' : gmap string Func,
              unset_names mem_Unset arg_v true names mem fs
              = (0, mem, fs', []) /\
              forall k, fs' !! k
                        = if decide (k ∈ names) then None else fs !! k).
  { induction names as [| name names IH]; intros fs.
    - exists fs. split; [done |]. intros k.
      rewrite decide_False; [done |]. apply not_elem_of_nil.
    - destruct (IH (del_func name fs)) as (fs' & Hrun & Hfs').
      exists fs'. split; [done |]. intros k. rewrite Hfs', del_func_lookup.
      destruct (decide (k ∈ names)) as [Hin | Hnin].
      + rewrite decide_True; [done | by apply list_elem_of_further].
      + destruct (decide (k = name)) as [-> | Hne].
        * rewrite decide_True; [done | apply list_elem_of_here].
        * rewrite decide_False; [done |].
          intros [? | ?]%elem_of_cons; tauto. }
  destruct (Hloop (skipn i argv) funcs) as (funcs' & Hrun & Hfs').
  exists funcs'. rewrite Hrun. split; [done |]. split; [done |].
  intros path_val. unfold _ResolveNames. apply Forall_fmap, Forall_forall.
  intros name Hin. simpl. unfold resolve_name.
  rewrite decide_False.
  - repeat case_decide; try (simpl; discriminate).
    destruct (IsOtherBuiltin name); [simpl; discriminate |].
    destruct (IsKeyword name); [simpl; discriminate |].
    match goal with
    | |- context [search_path _ ?pl _] =>
        destruct (search_path path_exists pl name) as [kind arg] eqn:E
    end.
    apply search_path_shape in E as [[-> _] | [-> _]]; simpl; discriminate.
  - rewrite Hfs', decide_True by done. by intros [? ?].
Qed.

End UnsetMore.


(** ** [export], [cd], [shift] *)

Section ExportMore.
Import Builtins.
Context {Mem : Type}.
Variable EXPORT_SPEC_Parse : list string -> result (bool * nat).
Variable var_name_match : string -> bool.
Variable ClearFlag : Mem -> string -> var_flags_e -> scope_e -> Mem.
Variable SetVar :
  Mem -> string -> option value -> list var_flags_e -> scope_e -> result Mem.

Lemma split_eq_assign (v : string) : forall name,
  Echo.all_chars not_equals name = true ->
  split_eq (name +:+ String "=" v) = (name, Some v).
Proof.
  induction name as [| c name IH]; intros H.
  - reflexivity.
  - cbn [Echo.all_chars] in H. apply andb_true_iff in H as [Hc H].
    rewrite string_app_cons. cbn [split_eq].
    unfold not_equals in Hc. apply negb_true_iff in Hc. rewrite Hc.
    by rewrite (IH H).
Qed.

Lemma split_eq_plain : forall name,
  Echo.all_chars not_equals name = true -> split_eq name = (name, None).
Proof.
  induction name as [| c name IH]; intros H.
  - reflexivity.
  - cbn [Echo.all_chars] in H. apply andb_true_iff in H as [Hc H].
    cbn [split_eq].
    unfold not_equals in Hc. apply negb_true_iff in Hc. rewrite Hc.
    by rewrite (IH H).
Qed.

(** [export] splits its operand at the first [=] only: for a valid name
    without [=], the operand [name=v] binds [name] to all of [v], whatever
    [v] holds, and the operand [name] exports [name] without a value; the
    variable is set with the flag [Exported] in the dynamic scope and the
    status is 0. *)
Theorem Export_splits_at_first_equals
    (argv : list string) (mem : Mem) (i : nat) (name : string) :
  EXPORT_SPEC_Parse argv = Ok (false, i) ->
  Echo.all_chars not_equals name = true ->
  var_name_match name = true ->
  (skipn i argv = [name] ->
   Export EXPORT_SPEC_Parse var_name_match ClearFlag SetVar argv mem
   = (let* mem' := SetVar mem name None [Exported] Dynamic in
      Ok (0, mem'))) /\
  (forall v,
     skipn i argv = [name +:+ String "=" v] ->
     Export EXPORT_SPEC_Parse var_name_match ClearFlag SetVar argv mem
     = (let* mem' := SetVar mem name (Some (Str v)) [Exported] Dynamic in
        Ok (0, mem'))).
Proof.
  intros Hparse Hname Hmatch. unfold Export. rewrite Hparse. cbn [bind].
  split.
  - intros ->. cbn [export_set]. rewrite (split_eq_plain _ Hname), Hmatch.
    by destruct (SetVar mem name None [Exported] Dynamic).
  - intros v ->. cbn [export_set]. rewrite (split_eq_assign v _ Hname), Hmatch.
    by destruct (SetVar mem name (Some (Str v)) [Exported] Dynamic).
Qed.

End ExportMore.

Section CdMore.
Import Builtins.
Context {Mem FS DirStack : Type}.
Variable GetVar : Mem -> string -> option scope_e -> value.
Variable SetGlobalString : Mem -> string -> string -> result Mem.
Variable chdir : FS -> string -> option FS.
Variable dir_Reset : FS -> DirStack -> DirStack.


End CdMore.

Section ShiftMore.
Import Builtins.
Context {Mem : Type}.
Variable int_of_str : string -> option Z.
Variable mem_Shift : Mem -> Z -> Z * Mem.

(** [shift] never prints its message about an invalid argument: a single
    operand that is not an integer makes the handler index [argv[1]],
    which is past the end, so the call ends in [IndexError] with nothing
    given out.  All that [shift] ever gives out is the error about too
    many arguments, through [util.error], for two operands or more. *)
Theorem Shift_invalid_argument (a : string) (mem : Mem) :
  int_of_str a = None ->
  Shift int_of_str mem_Shift [a] mem = (Raise IndexError, []) /\
  forall argv,
    snd (Shift int_of_str mem_Shift argv mem)
    = if (1 <? length argv)%nat
      then [UtilError "shift: too many arguments" []]
      else [].
Proof.
  intros Ha. split.
  - unfold Shift. by rewrite Ha.
  - intros [| b [| c rest]]; unfold Shift; [done | | done].
    by destruct (int_of_str b).
Qed.

End ShiftMore.


(** ** The dispatch and builtin theorems on sample inputs *)

Lemma ResolveNames_path_first_match_witness :
  Dispatch._ResolveNames Samples2.IsOtherBuiltin Samples2.IsKeyword
    Samples2.path_exists ["foo"; "ls"] (∅ : gmap string unit)
    (Str "/usr/bin:/bin:/sbin") !! 1%nat
  = Some (Some "file", Some "/bin/ls").
Proof.
  apply (ResolveNames_path_first_match Samples2.IsOtherBuiltin
           Samples2.IsKeyword Samples2.path_exists ["foo"; "ls"]
           (∅ : gmap string unit) "/usr/bin:/bin:/sbin" 1 "ls"
           ["/usr/bin"] "/bin" ["/sbin"]);
    try reflexivity.
  repeat constructor.
Defined.

Lemma ResolveNames_no_path_no_file_witness :
  Forall (fun r : Dispatch.resolution => fst r <> Some "file")
         (Dispatch._ResolveNames Samples2.IsOtherBuiltin Samples2.IsKeyword
            Samples2.path_exists ["ls"; "echo"] (∅ : gmap string unit)
            Undef).
Proof.
  apply (ResolveNames_no_path_no_file Samples2.IsOtherBuiltin
           Samples2.IsKeyword Samples2.path_exists ["ls"; "echo"]
           (∅ : gmap string unit) Undef).
  intros s. discriminate.
Defined.

Lemma Command_v_status_and_output_witness :
  Builtins.Command Samples2.IsOtherBuiltin Samples2.IsKeyword
    Samples2.path_exists Samples2.COMMAND_SPEC_Parse
    ["-v"; "echo"; "nosuch"; "ls"] (∅ : gmap string unit) (Str "/bin")
  = Ok (1, [Builtins.Stdout "echo"; Builtins.Stdout "/bin/ls"]).
Proof.
  destruct (Command_v_status_and_output Samples2.IsOtherBuiltin
              Samples2.IsKeyword Samples2.path_exists
              Samples2.COMMAND_SPEC_Parse ["-v"; "echo"; "nosuch"; "ls"]
              (∅ : gmap string unit) (Str "/bin") false 1 eq_refl)
    as (st & Hrun & [[_ Hlen] | [-> _]]).
  - vm_compute in Hlen. discriminate.
  - exact Hrun.
Defined.

Lemma Type_status_and_output_witness :
  Builtins.Type_ Samples2.IsOtherBuiltin Samples2.IsKeyword
    Samples2.path_exists Samples2.TYPE_SPEC_Parse
    ["-t"; "echo"; "if"; "ls"] (∅ : gmap string unit) (Str "/bin")
  = Ok (0, [Builtins.Stdout "builtin"; Builtins.Stdout "keyword";
            Builtins.Stdout "file"]).
Proof.
  destruct (Type_status_and_output Samples2.IsOtherBuiltin
              Samples2.IsKeyword Samples2.path_exists
              Samples2.TYPE_SPEC_Parse ["-t"; "echo"; "if"; "ls"]
              (∅ : gmap string unit) (Str "/bin") true 1 eq_refl)
    as (st & Hrun & _ & [[-> _] | [_ [Ht | Hlen]]]).
  - exact Hrun.
  - discriminate.
  - vm_compute in Hlen. lia.
Defined.

Lemma ResolveSpecial_disjoint_witness :
  "export" ∈ Dispatch._SPECIAL_BUILTINS /\
  Dispatch.Resolve "export" = Dispatch.NONE.
Proof.
  apply (ResolveSpecial_disjoint "export"). discriminate.
Defined.

Lemma Unset_functions_witness :
  let mem := Samples.Store (<["x" := Str "1"]> ∅) [] in
  let funcs : gmap string unit := <["x" := tt]> ∅ in
  exists arg_v arg_f i,
    Samples2.UNSET_SPEC_Parse ["x"] = Ok ((arg_v, arg_f), i) /\
    ((0 = 0) \/ (0 = 1)) /\
    (forall k, funcs !! k = funcs !! k \/
               (funcs !! k = None /\ k ∈ skipn i ["x"])) /\
    (arg_v = true -> arg_f = false -> funcs = funcs).
Proof.
  intros mem funcs.
  apply (Unset_functions Samples2.UNSET_SPEC_Parse Samples2.mem_Unset
           ["x"] mem (snd (Samples2.mem_Unset mem "x" Builtins.Dynamic))
           funcs funcs 0 []).
  reflexivity.
Defined.

Lemma Unset_f_removes_functions_witness :
  let mem := Samples.Store (<["f" := Str "1"]> ∅) [] in
  let funcs : gmap string unit := <["f" := tt]> (<["h" := tt]> ∅) in
  exists funcs',
    Builtins.Unset Samples2.UNSET_SPEC_Parse Samples2.mem_Unset
      ["-f"; "f"; "g"] mem funcs
    = Ok (0, mem, funcs', []) /\
    (forall k, funcs' !! k
               = if decide (k ∈ ["f"; "g"]) then None else funcs !! k) /\
    (forall path_val,
       Forall (fun r : Dispatch.resolution => fst r <> Some "function")
              (Dispatch._ResolveNames Samples2.IsOtherBuiltin
                 Samples2.IsKeyword Samples2.path_exists
                 ["f"; "g"] funcs' path_val)).
Proof.
  intros mem funcs.
  apply (Unset_f_removes_functions Samples2.IsOtherBuiltin
           Samples2.IsKeyword Samples2.path_exists
           Samples2.UNSET_SPEC_Parse Samples2.mem_Unset
           ["-f"; "f"; "g"] mem funcs false 1).
  reflexivity.
Defined.

Lemma Export_splits_at_first_equals_witness :
  let mem := Samples.Store ∅ [] in
  Builtins.Export Samples2.EXPORT_SPEC_Parse Samples2.var_name_match
    Samples2.ClearFlag Samples2.SetVar ["a=b=c"] mem
  = (let* mem' :=
       Samples2.SetVar mem "a" (Some (Str "b=c")) [Builtins.Exported]
                       Builtins.Dynamic in
     Ok (0, mem')).
Proof.
  intros mem.
  pose proof (Export_splits_at_first_equals Samples2.EXPORT_SPEC_Parse
                Samples2.var_name_match Samples2.ClearFlag Samples2.SetVar
                ["a=b=c"] mem 0 "a" eq_refl eq_refl eq_refl) as [_ H].
  apply (H "b=c"). reflexivity.
Defined.


Lemma Shift_invalid_argument_witness :
  let mem := Samples.Store ∅ ["a"; "b"] in
  Builtins.Shift Samples.int_of_str Samples2.mem_Shift ["x"] mem
  = (Raise IndexError, []) /\
  forall argv,
    snd (Builtins.Shift Samples.int_of_str Samples2.mem_Shift argv mem)
    = if (1 <? length argv)%nat
      then [Builtins.UtilError "shift: too many arguments" []]
      else [].
Proof.
  intros mem.
  apply (Shift_invalid_argument Samples.int_of_str Samples2.mem_Shift
           "x" mem).
  reflexivity.
Defined.


(** ** [read]: end of input, and one complete line *)

Lemma endswith_newline_app (l : string) :
  endswith_char "010" (l +:+ String "010" "") = true /\
  drop_last (l +:+ String "010" "") = l /\
  String.eqb (l +:+ String "010" "") "" = false.
Proof.
  induction l as [| c l (IH1 & IH2 & IH3)]; [done |].
  rewrite string_app_cons. split; [| split; [| done]].
  - unfold endswith_char in *. cbn [last_char].
    destruct (l +:+ String "010" "") eqn:E; [discriminate | done].
  - cbn [drop_last].
    destruct (l +:+ String "010" "") eqn:E; [discriminate |].
    by rewrite IH2.
Qed.

Lemma is_done_no_backslash (spans : list Fields.span) :
  Forall (fun sp : Fields.span => fst sp <> Fields.Backslash) spans ->
  Fields.is_done spans = true.
Proof.
  intros Hnb. unfold Fields.is_done.
  destruct (last spans) as [[ty e] |] eqn:El; [| done].
  destruct ty; try done.
  apply last_Some in El as (pre & ->).
  apply Forall_app in Hnb as [_ Hnb].
  apply Forall_cons in Hnb as [Hty _]. by destruct Hty.
Qed.

Section ReadMore.
Import Fields.
Context {Mem : Type}.
Variable SetLocalString : Mem -> string -> string -> result Mem.
Variable SplitForRead : string -> bool -> list span.
Variable READ_SPEC_Parse : list string -> result (read_arg * nat).
Variable os_read : Z -> list string -> string * list string.

Lemma assign_names_no_parts : forall names i mem,
  assign_names SetLocalString names i [] mem
  = set_all SetLocalString names "" mem.
Proof.
  induction names as [| name names IH]; intros i mem; [done |].
  cbn [assign_names set_all]. rewrite lookup_nil. cbn [default].
  destruct (SetLocalString mem name "") as [mem' |]; [| done].
  cbn [bind]. apply IH.
Qed.

(** At the end of input (no line left, or [readline] returns ['']) [read]
    without [-n] sets every name, or [REPLY] when there is none, to the
    empty string, in order, and returns 1. *)
Theorem Read_at_end_of_input
    (argv stdin : list string) (mem : Mem) (arg : read_arg) (i : nat) :
  READ_SPEC_Parse argv = Ok (arg, i) ->
  arg_n arg = None ->
  head stdin = None \/ head stdin = Some "" ->
  let names :=
    if bool_decide (skipn i argv = []) then ["REPLY"] else skipn i argv in
  Read SetLocalString SplitForRead READ_SPEC_Parse os_read argv stdin mem
  = (let* mem' := set_all SetLocalString names "" mem in
     Ok (1, mem', tail stdin)).
Proof.
  intros Hparse Hn Hstdin names. unfold Read. rewrite Hparse. cbn [bind].
  rewrite Hn. fold names.
  assert (Hlines : read_lines SplitForRead (arg_r arg)
                     (Z.of_nat (length names)) stdin [] false
                   = Ok (1, [], tail stdin)).
  { destruct stdin as [| line rest]; [done |].
    destruct Hstdin as [H | H]; [done |]. by injection H as ->. }
  rewrite Hlines. cbn [bind]. by rewrite assign_names_no_parts.
Qed.

(** One complete line, split plainly: when the next line ends in a
    newline, the spans of its text hold no Backslash span and no more
    Black spans than there are names (and, when as many, end with the last
    of them), [read] consumes that line only, assigns the contents of the
    Black spans to the names in order and [''] to the names left over, and
    returns 0. *)
Theorem Read_one_plain_line
    (argv : list string) (l : string) (rest : list string) (mem : Mem)
    (arg : read_arg) (i : nat) :
  READ_SPEC_Parse argv = Ok (arg, i) ->
  arg_n arg = None ->
  let names :=
    if bool_decide (skipn i argv = []) then ["REPLY"] else skipn i argv in
  let spans := SplitForRead l (negb (arg_r arg)) in
  Forall (fun sp : span => fst sp <> Backslash) spans ->
  (count_black spans <= length names)%nat ->
  (count_black spans = length names ->
   exists pre e, spans = pre ++ [(Black, e)]) ->
  Read SetLocalString SplitForRead READ_SPEC_Parse os_read argv
       ((l +:+ String "010" "") :: rest) mem
  = (let* mem' :=
       assign_names SetLocalString names 0 (black_fields l 0 spans) mem in
     Ok (0, mem', rest)).
Proof.
  intros Hparse Hn names spans Hnb Hle Hlast.
  unfold Read. rewrite Hparse. cbn [bind]. rewrite Hn. fold names.
  assert (Hnames : (1 <= length names)%nat).
  { unfold names. case_bool_decide as E; [simpl; lia |].
    destruct (skipn i argv); [done | simpl; lia]. }
  destruct (endswith_newline_app l) as (Hend & Hdrop & Hne).
  cbn [read_lines]. rewrite Hne, Hend, Hdrop. fold spans.
  destruct (loop_plain l (Z.of_nat (length names)) spans 0 [] false Hnb)
    as (jn & st' & b' & Hloop).
  - simpl. lia.
  - simpl. lia.
  - simpl. intros Hm. apply Hlast. lia.
  - unfold _AppendParts. rewrite Hloop. cbn [bind parts join_next app].
    by rewrite (is_done_no_backslash spans Hnb).
Qed.

End ReadMore.

Lemma Read_at_end_of_input_witness :
  let mem := Samples.Store ∅ [] in
  Fields.Read Samples.SetString Samples.SplitForRead
    Samples.READ_SPEC_Parse Samples.os_read ["-r"; "x"; "y"] [] mem
  = (let* mem' := Fields.set_all Samples.SetString ["x"; "y"] "" mem in
     Ok (1, mem', [])).
Proof.
  intros mem.
  apply (Read_at_end_of_input Samples.SetString Samples.SplitForRead
           Samples.READ_SPEC_Parse Samples.os_read ["-r"; "x"; "y"] [] mem
           (Fields.ReadArg true None) 1 eq_refl eq_refl).
  left. reflexivity.
Defined.

Lemma Read_one_plain_line_witness :
  let mem := Samples.Store ∅ [] in
  Fields.Read Samples.SetString Samples.SplitForRead
    Samples.READ_SPEC_Parse Samples.os_read ["x"; "y"; "z"]
    [String "a" (String " " (String "b" (String "010" ""))); "next"] mem
  = (let* mem' :=
       Fields.assign_names Samples.SetString ["x"; "y"; "z"] 0 ["a"; "b"]
                           mem in
     Ok (0, mem', ["next"])).
Proof.
  intros mem.
  apply (Read_one_plain_line Samples.SetString Samples.SplitForRead
           Samples.READ_SPEC_Parse Samples.os_read ["x"; "y"; "z"]
           "a b" ["next"] mem (Fields.ReadArg false None) 0
           eq_refl eq_refl).
  - repeat constructor; discriminate.
  - simpl. lia.
  - simpl. intros H. lia.
Defined.


(** ** [echo]: plain output, [-e] on text without backslashes, tokens *)

Section EchoMore.
Import Echo.

Lemma text_of_string_app (a b : string) :
  text_of_string (a +:+ b) = text_of_string a ++ text_of_string b.
Proof.
  induction a as [| c a IH]; [done |].
  rewrite string_app_cons, !text_of_string_cons, IH. done.
Qed.

Lemma output_text_app (xs ys : list event) :
  output_text (xs ++ ys) = output_text xs ++ output_text ys.
Proof.
  induction xs as [| [t |] xs IH]; [done | |]; cbn [app output_text].
  - by rewrite IH, app_assoc.
  - done.
Qed.

(** The text written for the arguments after the first. *)
Lemma output_text_write_args_rest : forall args : list string,
  output_text (write_args false (map text_of_string args))
  = text_of_string
      (match args with
       | [] => ""
       | _ => " " +:+ String.concat " " args
       end).
Proof.
  induction args as [| a args IH]; [done |].
  cbn [map write_args app output_text]. rewrite IH.
  destruct args as [| b args].
  - cbn [String.concat]. rewrite app_nil_r.
    by rewrite <- text_of_string_app.
  - change (String.concat " " (a :: b :: args))
      with (a +:+ " " +:+ String.concat " " (b :: args)).
    by rewrite <- !text_of_string_app.
Qed.

(** The text written for the arguments. *)
Lemma output_text_write_args (args : list string) :
  output_text (write_args true (map text_of_string args))
  = text_of_string (String.concat " " args).
Proof.
  destruct args as [| a args]; [done |].
  cbn [map write_args app output_text].
  rewrite output_text_write_args_rest.
  destruct args as [| b args].
  - cbn [String.concat]. by rewrite app_nil_r.
  - change (String.concat " " (a :: b :: args))
      with (a +:+ " " +:+ String.concat " " (b :: args)).
    by rewrite <- !text_of_string_app.
Qed.

(** The events of the normal end of [Echo] write the arguments joined by
    single spaces and the newline, if any. *)
Lemma output_text_normal (args : list string) (arg_n : bool) :
  output_text
    (write_args true (map text_of_string args)
     ++ (if arg_n then [] else [Write (text_of_string (String "010" ""))])
     ++ [Flush])
  = text_of_string
      (String.concat " " args +:+ (if arg_n then "" else String "010" "")).
Proof.
  rewrite !output_text_app, output_text_write_args, text_of_string_app.
  f_equal. by destruct arg_n.
Qed.

Lemma count_while_all p : forall (s : string) (m : nat),
  all_chars p s = true -> (String.length s <= m)%nat ->
  count_while p m s = String.length s.
Proof.
  induction s as [| c s IH]; intros m Hall Hm; [by destruct m |].
  cbn [all_chars] in Hall. apply andb_prop in Hall as [Hc Hall].
  cbn [String.length] in *. destruct m as [| m]; [lia |].
  cbn [count_while]. rewrite Hc. f_equal. apply IH; [done | lia].
Qed.

(** A non-empty string without a backslash is one [Char_Literals]
    token. *)
Lemma FindLongestMatch_all_literal (c : ascii) (lit : string) :
  not_backslash c = true ->
  all_chars not_backslash lit = true ->
  FindLongestMatch ECHO_LEXER (String c lit)
  = Ok (Char_Literals, S (String.length lit)).
Proof.
  intros Hc Hlit.
  assert (Hcount :
    count_while not_backslash (String.length (String c lit)) (String c lit)
    = S (String.length lit)).
  { apply (count_while_all not_backslash (String c lit)).
    - cbn [all_chars]. by rewrite Hc, Hlit.
    - done. }
  unfold FindLongestMatch, ECHO_LEXER. cbn [all_matches].
  unfold plus. rewrite Hcount. unfold backslash_then.
  unfold not_backslash in Hc. apply negb_true_iff in Hc. rewrite Hc.
  reflexivity.
Qed.

Lemma eval_tokens_no_backslash (s : string) (acc : text) :
  all_chars not_backslash s = true ->
  eval_tokens s 0 acc = Ok (acc ++ text_of_string s, false).
Proof.
  intros Hall. destruct s as [| c lit]; [by rewrite app_nil_r |].
  cbn [all_chars] in Hall. apply andb_prop in Hall as [Hc Hlit].
  cbn [eval_tokens]. rewrite (FindLongestMatch_all_literal c lit Hc Hlit).
  cbn [bind].
  assert (Hsub : String.substring 0 (S (String.length lit)) (String c lit)
                 = String c lit).
  { pose proof (substring_prefix (String c lit) "") as H.
    by rewrite string_app_empty_r in H. }
  rewrite Hsub. cbn [_EvalStringPart bind Nat.pred].
  pose proof (eval_tokens_skip lit "" (acc ++ text_of_string (String c lit)))
    as H.
  rewrite string_app_empty_r in H. by rewrite H.
Qed.

(** Joining the parts of a [str] gives that [str]. *)
Lemma join_str (s : string) : join (text_of_string s) = Ok (text_of_string s).
Proof.
  unfold join.
  assert (H : existsb is_unicode (text_of_string s) = false).
  { unfold text_of_string.
    induction (list_ascii_of_string s) as [| c l IH]; [done |].
    cbn [map existsb is_unicode orb]. exact IH. }
  by rewrite H.
Qed.

Lemma decode_arg_no_backslash (s : string) :
  all_chars not_backslash s = true ->
  decode_arg s = Ok (text_of_string s, false).
Proof.
  intros Hall. unfold decode_arg.
  rewrite (eval_tokens_no_backslash s [] Hall). cbn [bind app].
  by rewrite join_str.
Qed.

Lemma count_while_le p : forall (m : nat) (s : string),
  (count_while p m s <= String.length s)%nat /\ (count_while p m s <= m)%nat.
Proof.
  induction m as [| m IH]; intros s; [simpl; lia |].
  destruct s as [| c s]; [simpl; lia |].
  cbn [count_while String.length]. destruct (p c); [| lia].
  destruct (IH s). lia.
Qed.

Lemma backslash_then_bound (k : matcher) (s : string) (n : nat) :
  (forall r m, k r = Some m -> (m <= String.length r)%nat) ->
  backslash_then k s = Some n -> (1 <= n <= String.length s)%nat.
Proof.
  intros Hk H. unfold backslash_then in H.
  destruct s as [| c rest]; [done |].
  destruct (Ascii.eqb c "\"); [| done].
  destruct (k rest) as [m |] eqn:E; [| done].
  injection H as <-. apply Hk in E. cbn [String.length]. lia.
Qed.

Lemma one_char_bound (p : ascii -> bool) (r : string) (m : nat) :
  one_char p r = Some m -> (m <= String.length r)%nat.
Proof.
  unfold one_char. destruct r as [| c r]; [done |].
  destruct (p c); [| done]. intros [= <-]. cbn [String.length]. lia.
Qed.

Lemma char_then_rep_bound (c : ascii) (p : ascii -> bool) (max : nat)
    (r : string) (m : nat) :
  char_then_rep c p max r = Some m -> (m <= String.length r)%nat.
Proof.
  unfold char_then_rep. destruct r as [| d r]; [done |].
  destruct (Ascii.eqb d c); [| done].
  destruct (count_while p max r) as [| n] eqn:E; [done |].
  intros [= <-]. destruct (count_while_le p max r) as [H _].
  cbn [String.length]. lia.
Qed.

Lemma at_end_bound (r : string) (m : nat) :
  at_end r = Some m -> (m <= String.length r)%nat.
Proof.
  unfold at_end. destruct (_ || _); [| done]. intros [= <-]. lia.
Qed.

Lemma plus_bound (p : ascii -> bool) (s : string) (n : nat) :
  plus p s = Some n -> (1 <= n <= String.length s)%nat.
Proof.
  unfold plus.
  destruct (count_while p (String.length s) s) as [| m] eqn:E; [done |].
  intros [= <-]. destruct (count_while_le p (String.length s) s) as [H _].
  lia.
Qed.

Lemma first_max_In : forall (l : list (nat * Id)) (m : nat * Id),
  first_max l = Some m -> In m l.
Proof.
  induction l as [| x l IH]; intros m H; [done |].
  cbn [first_max] in H. destruct (first_max l) as [m' |].
  - destruct (fst x <? fst m')%nat.
    + injection H as <-. right. by apply IH.
    + injection H as <-. by left.
  - injection H as <-. by left.
Qed.

Lemma all_matches_In (s : string) :
  forall (pats : list (matcher * Id)) (n : nat) (tok_type : Id),
  In (n, tok_type) (all_matches pats s) ->
  exists m, In (m, tok_type) pats /\ m s = Some n.
Proof.
  induction pats as [| [m t] pats IH]; intros n tok_type H; [done |].
  cbn [all_matches] in H. destruct (m s) as [k |] eqn:E.
  - destruct H as [[= <- <-] | H].
    + exists m. split; [by left | done].
    + destruct (IH _ _ H) as (m' & Hin & Hm'). exists m'.
      split; [by right | done].
  - destruct (IH _ _ H) as (m' & Hin & Hm'). exists m'.
    split; [by right | done].
Qed.

(** Every token of [ECHO_LEXER] is non-empty, lies within the input and
    has one of the seven [Char_] ids. *)
Theorem ECHO_LEXER_token_bounds (s : string) (tok_type : Id) (n : nat) :
  FindLongestMatch ECHO_LEXER s = Ok (tok_type, n) ->
  (1 <= n <= String.length s)%nat /\
  In tok_type [Char_OneChar; Char_Stop; Char_Octal; Char_Hex;
               Char_Unicode4; Char_Unicode8; Char_Literals].
Proof.
  unfold FindLongestMatch. intros H.
  destruct (first_max (all_matches ECHO_LEXER s)) as [[k t] |] eqn:E;
    [| done].
  injection H as <- <-.
  apply first_max_In, all_matches_In in E as (m & Hin & Hm).
  unfold ECHO_LEXER in Hin. cbn [In] in Hin.
  repeat (destruct Hin as [[= <- <-] | Hin];
    [split;
       [first [ by apply (plus_bound _ _ _ Hm)
              | eapply backslash_then_bound; [| exact Hm];
                intros r m';
                first [ apply one_char_bound
                      | apply char_then_rep_bound
                      | apply at_end_bound ] ]
       | cbn [In]; tauto] |]).
  done.
Qed.

Variable ParseLikeEcho : list string -> (bool * bool) * nat.

(** Without [-e], [Echo] returns 0 after writing the operands joined by
    single spaces, then a newline unless [-n] was given, and it ends with
    a flush. *)
Theorem Echo_plain_output
    (argv : list string) (arg_n : bool) (index : nat) :
  ParseLikeEcho argv = ((false, arg_n), index) ->
  exists evs,
    Echo ParseLikeEcho argv = Ok (0, evs) /\
    output_text evs
    = text_of_string
        (String.concat " " (skipn index argv)
         +:+ (if arg_n then "" else String "010" "")) /\
    last evs = Some Flush.
Proof.
  intros Hparse. unfold Echo. rewrite Hparse. cbn [bind].
  eexists. split; [reflexivity |]. split.
  - apply output_text_normal.
  - by rewrite app_assoc, last_snoc.
Qed.

(** With [-e], operands without a backslash are written as they are:
    [Echo] gives the events it gives for them without [-e]. *)
Theorem Echo_e_without_backslash
    (argv : list string) (arg_n : bool) (index : nat) :
  ParseLikeEcho argv = ((true, arg_n), index) ->
  Forall (fun a => all_chars not_backslash a = true) (skipn index argv) ->
  exists evs,
    Echo ParseLikeEcho argv = Ok (0, evs) /\
    evs = write_args true (map text_of_string (skipn index argv))
          ++ (if arg_n then []
              else [Write (text_of_string (String "010" ""))])
          ++ [Flush] /\
    output_text evs
    = text_of_string
        (String.concat " " (skipn index argv)
         +:+ (if arg_n then "" else String "010" "")).
Proof.
  intros Hparse Hall. unfold Echo. rewrite Hparse.
  assert (Hdec : decode_args (skipn index argv) []
                 = Ok (inr (map text_of_string (skipn index argv)))).
  { assert (Hpre : Forall2 (fun p t => decode_arg p = Ok (t, false))
                     (skipn index argv)
                     (map text_of_string (skipn index argv))).
    { induction Hall as [| a l Ha Hl IH]; constructor; [| done].
      by apply decode_arg_no_backslash. }
    pose proof (decode_args_app (skipn index argv)
                  (map text_of_string (skipn index argv)) [] [] Hpre) as H.
    by rewrite app_nil_r in H. }
  rewrite Hdec. cbn [bind].
  eexists. split; [reflexivity |]. split; [reflexivity |].
  apply output_text_normal.
Qed.

End EchoMore.

Lemma ECHO_LEXER_token_bounds_witness :
  (1 <= 4 <= 6)%nat /\
  In Char_Hex [Char_OneChar; Char_Stop; Char_Octal; Char_Hex;
               Char_Unicode4; Char_Unicode8; Char_Literals].
Proof.
  apply (ECHO_LEXER_token_bounds
           (String "\" (String "x" (String "4" (String "1" "ab"))))
           Char_Hex 4).
  reflexivity.
Defined.

Lemma Echo_plain_output_witness :
  exists evs,
    Echo.Echo Samples.ParseLikeEcho ["-n"; "a"; "b c"] = Ok (0, evs) /\
    Echo.output_text evs = Echo.text_of_string "a b c" /\
    last evs = Some Echo.Flush.
Proof.
  apply (Echo_plain_output Samples.ParseLikeEcho ["-n"; "a"; "b c"] true 1).
  reflexivity.
Defined.

Lemma Echo_e_without_backslash_witness :
  exists evs,
    Echo.Echo Samples.ParseLikeEcho ["-e"; "a"; "b c"] = Ok (0, evs) /\
    evs = [Echo.Write (Echo.text_of_string "a");
           Echo.Write (Echo.text_of_string " ");
           Echo.Write (Echo.text_of_string "b c");
           Echo.Write (Echo.text_of_string (String "010" ""));
           Echo.Flush] /\
    Echo.output_text evs
    = Echo.text_of_string
        (String "a" (String " " (String "b" (String " " (String "c"
           (String "010" "")))))).
Proof.
  apply (Echo_e_without_backslash Samples.ParseLikeEcho
           ["-e"; "a"; "b c"] false 1).
  - reflexivity.
  - repeat constructor.
Defined.


(** ** [echo -e]: decoding the tokens of the lexer *)

Section EchoDecode.
Import Echo.

Lemma count_while_substring p : forall (m : nat) (s : string),
  all_chars p (String.substring 0 (count_while p m s) s) = true /\
  String.length (String.substring 0 (count_while p m s) s)
  = count_while p m s.
Proof.
  induction m as [| m IH]; intros s.
  - cbn [count_while]. by destruct s.
  - destruct s as [| c s]; [done |].
    cbn [count_while]. destruct (p c) eqn:E; [| done].
    cbn [String.substring all_chars String.length]. rewrite E.
    destruct (IH s) as [H1 H2]. by rewrite H1, H2.
Qed.

(** [int_digits] on digits below the base: the value, with its bound. *)
Lemma int_digits_bound (p : ascii -> bool) (base : Z) :
  0 < base ->
  (forall c, p c = true -> exists d, digit_value c = Some d /\ 0 <= d < base) ->
  forall (s : string) (acc : Z),
    0 <= acc ->
    all_chars p s = true ->
    exists v, int_digits base acc s = Some v /\
              0 <= v < (acc + 1) * base ^ Z.of_nat (String.length s).
Proof.
  intros Hbase Hp. induction s as [| c s IH]; intros acc Hacc Hall.
  - exists acc. split; [done |]. cbn [String.length]. lia.
  - cbn [all_chars] in Hall. apply andb_prop in Hall as [Hc Hall].
    destruct (Hp c Hc) as (d & Hd & Hlt).
    cbn [int_digits]. rewrite Hd.
    destruct (Z.ltb_spec d base) as [_ | ?]; [| lia].
    destruct (IH (acc * base + d) ltac:(nia) Hall) as (v & Hv & Hb).
    exists v. split; [done |].
    cbn [String.length]. rewrite Nat2Z.inj_succ, Z.pow_succ_r by lia.
    split; [lia |]. nia.
Qed.

Lemma in_range_code (lo hi c : ascii) :
  in_range lo hi c = true <-> code lo <= code c <= code hi.
Proof. unfold in_range. rewrite andb_true_iff, !Z.leb_le. tauto. Qed.

Lemma digit_value_octal (c : ascii) :
  is_octal_digit c = true -> exists d, digit_value c = Some d /\ 0 <= d < 8.
Proof.
  unfold is_octal_digit. rewrite in_range_code.
  change (code "0") with 48. change (code "7") with 55. intros H.
  unfold digit_value.
  assert (H9 : in_range "0" "9" c = true).
  { apply in_range_code. change (code "0") with 48.
    change (code "9") with 57. lia. }
  rewrite H9. eexists. split; [done |]. lia.
Qed.

Lemma digit_value_decimal (c : ascii) :
  is_digit c = true -> exists d, digit_value c = Some d /\ 0 <= d < 16.
Proof.
  unfold is_digit. intros H9. unfold digit_value. rewrite H9.
  apply in_range_code in H9. change (code "0") with 48 in H9.
  change (code "9") with 57 in H9.
  eexists. split; [done |]. lia.
Qed.

Lemma digit_value_hex (c : ascii) :
  is_hex_digit c = true -> exists d, digit_value c = Some d /\ 0 <= d < 16.
Proof.
  unfold is_hex_digit. intros H.
  destruct (in_range "0" "9" c) eqn:H9; [by apply digit_value_decimal |].
  unfold digit_value. rewrite H9.
  destruct (in_range "a" "f" c) eqn:Haf.
  - apply in_range_code in Haf. change (code "a") with 97 in Haf.
    change (code "f") with 102 in Haf.
    assert (Haz : in_range "a" "z" c = true).
    { apply in_range_code. change (code "a") with 97.
      change (code "z") with 122. lia. }
    rewrite Haz. eexists. split; [done |]. lia.
  - cbn [orb] in H. apply in_range_code in H.
    change (code "A") with 65 in H. change (code "F") with 70 in H.
    assert (Haz : in_range "a" "z" c = false).
    { apply not_true_is_false. rewrite in_range_code.
      change (code "a") with 97. change (code "z") with 122. lia. }
    assert (HAZ : in_range "A" "Z" c = true).
    { apply in_range_code. change (code "A") with 65.
      change (code "Z") with 90. lia. }
    rewrite Haz, HAZ. eexists. split; [done |]. lia.
Qed.

(** The digits of a token made of a backslash, a letter and at most [max]
    digits: [int] reads them, below [base ^ max]. *)
Lemma escape_digits (c : ascii) (p : ascii -> bool) (max : nat) (base : Z)
    (s : string) (n : nat) :
  0 < base ->
  (forall c, p c = true -> exists d, digit_value c = Some d /\ 0 <= d < base) ->
  backslash_then (char_then_rep c p max) s = Some n ->
  exists v, int_base (drop2 (String.substring 0 n s)) base = Ok v /\
            0 <= v < base ^ Z.of_nat max.
Proof.
  intros Hbase Hp H. unfold backslash_then in H.
  destruct s as [| b rest]; [done |].
  destruct (Ascii.eqb b "\"); [| done].
  unfold char_then_rep in H.
  destruct rest as [| d rest]; [done |].
  destruct (Ascii.eqb d c); [| done].
  destruct (count_while p max rest) as [| k] eqn:E; [done |].
  injection H as <-.
  cbn [String.substring drop2]. rewrite <- E.
  destruct (count_while_substring p max rest) as [Hall Hlen].
  destruct (int_digits_bound p base Hbase Hp _ 0 ltac:(lia) Hall)
    as (v & Hv & Hb).
  exists v. split.
  - unfold int_base. rewrite Hv.
    destruct (String.substring 0 (count_while p max rest) rest) eqn:Es;
      [| done].
    rewrite E in Hlen. done.
  - rewrite Hlen in Hb.
    destruct (count_while_le p max rest) as [_ Hle].
    split; [lia |].
    assert (base ^ Z.of_nat (count_while p max rest) <= base ^ Z.of_nat max)
      by (apply Z.pow_le_mono_r; lia).
    lia.
Qed.

Lemma one_of_ONE_CHAR (c : ascii) :
  one_of "0abeEfrtnv\" c = true -> exists d, _ONE_CHAR c = Some d.
Proof.
  cbn [one_of]. unfold _ONE_CHAR. intros H.
  destruct (Ascii.eqb c "0"); [by eexists |].
  destruct (Ascii.eqb c "a"); [by eexists |].
  destruct (Ascii.eqb c "b"); [by eexists |].
  destruct (Ascii.eqb c "e"); [by eexists |].
  destruct (Ascii.eqb c "E"); [by eexists |].
  destruct (Ascii.eqb c "f"); [by eexists |].
  destruct (Ascii.eqb c "n"); [by eexists |].
  destruct (Ascii.eqb c "r"); [by eexists |].
  destruct (Ascii.eqb c "t"); [by eexists |].
  destruct (Ascii.eqb c "v"); [by eexists |].
  destruct (Ascii.eqb c "\"); [by eexists |].
  done.
Qed.

(** Decoding cannot fail on what the lexer yields, [\U] apart: for every
    token of [ECHO_LEXER] whose id is not [Char_Unicode8],
    [_EvalStringPart] returns (a text, or the sentinel of [\c]) and
    raises nothing. *)
Theorem EvalStringPart_decodes_tokens (s : string) (tok_type : Id) (n : nat) :
  FindLongestMatch ECHO_LEXER s = Ok (tok_type, n) ->
  tok_type <> Char_Unicode8 ->
  exists r, _EvalStringPart tok_type (String.substring 0 n s) = Ok r.
Proof.
  unfold FindLongestMatch. intros H Hne.
  destruct (first_max (all_matches ECHO_LEXER s)) as [[k t] |] eqn:E;
    [| done].
  injection H as <- <-.
  apply first_max_In, all_matches_In in E as (m & Hin & Hm).
  unfold ECHO_LEXER in Hin. cbn [In] in Hin.
  destruct Hin as [[= <- <-] | Hin].
  { unfold backslash_then in Hm. destruct s as [| b rest]; [done |].
    destruct (Ascii.eqb b "\"); [| done].
    unfold one_char in Hm. destruct rest as [| c rest]; [done |].
    change (S <$> (if one_of "0abeEfrtnv\" c then Some 1%nat else None)
            = Some k) in Hm.
    destruct (one_of "0abeEfrtnv\" c) eqn:Hc; [| done].
    injection Hm as <-. destruct (one_of_ONE_CHAR c Hc) as (d & Hd).
    cbn. rewrite Hd. by eexists. }
  destruct Hin as [[= <- <-] | Hin]; [by eexists |].
  destruct Hin as [[= <- <-] | Hin].
  { destruct (escape_digits _ _ _ 8 s k ltac:(lia) digit_value_octal Hm)
      as (v & Hv & Hb).
    cbn [_EvalStringPart]. rewrite Hv. cbn [bind].
    change (8 ^ Z.of_nat 3) with 512 in Hb.
    unfold chr.
    destruct (Z.geb_spec v 256).
    - pose proof (Z.mod_pos_bound v 256 ltac:(lia)).
      rewrite (proj2 (Z.leb_le _ _)), (proj2 (Z.ltb_lt _ _)) by lia.
      by eexists.
    - rewrite (proj2 (Z.leb_le _ _)), (proj2 (Z.ltb_lt _ _)) by lia.
      by eexists. }
  destruct Hin as [[= <- <-] | Hin].
  { destruct (escape_digits _ _ _ 16 s k ltac:(lia) digit_value_hex Hm)
      as (v & Hv & Hb).
    cbn [_EvalStringPart]. rewrite Hv. cbn [bind].
    change (16 ^ Z.of_nat 2) with 256 in Hb.
    unfold chr.
    rewrite (proj2 (Z.leb_le _ _)), (proj2 (Z.ltb_lt _ _)) by lia.
    by eexists. }
  destruct Hin as [[= <- <-] | Hin].
  { destruct (escape_digits _ _ _ 16 s k ltac:(lia) digit_value_decimal Hm)
      as (v & Hv & Hb).
    cbn [_EvalStringPart]. rewrite Hv. cbn [bind].
    change (16 ^ Z.of_nat 4) with 65536 in Hb.
    unfold unichr.
    rewrite (proj2 (Z.leb_le _ _)), (proj2 (Z.ltb_lt _ _)) by lia.
    by eexists. }
  destruct Hin as [[= <- <-] | Hin]; [done |].
  repeat (destruct Hin as [[= <- <-] | Hin]; [by eexists |]).
  done.
Qed.

(** A [\U] token can exceed the range of [unichr]. *)
Example EvalStringPart_unicode8_overflow :
  let s := String "\" "U00110000" in
  FindLongestMatch ECHO_LEXER s = Ok (Char_Unicode8, 10%nat) /\
  _EvalStringPart Char_Unicode8 (String.substring 0 10 s) = Raise ValueError.
Proof. split; reflexivity. Qed.

End EchoDecode.

Lemma EvalStringPart_decodes_tokens_witness :
  exists r,
    Echo._EvalStringPart Char_Hex
      (String.substring 0 4
         (String "\" (String "x" (String "4" (String "1" "ab")))))
    = Ok r.
Proof.
  apply (EvalStringPart_decodes_tokens
           (String "\" (String "x" (String "4" (String "1" "ab"))))
           Char_Hex 4).
  - reflexivity.
  - discriminate.
Defined.
